(** * A caching HTTP proxy: the response cache, the header set, the message
      builder and the per-connection handler, embedded from the Python
      sources and checked against the specification. *)

From Stdlib Require Import String Ascii.
From Stdlib Require Import List ZArith NArith Lia Bool DecimalString.
Import ListNotations.

Set Implicit Arguments.

(** ** Outcomes of a call

    A Python call either returns or raises.  [Beyond] marks an input on which
    the embedding declines to answer (text outside the characters it models,
    see [Text.decode]); it is never used by the cache. *)

Inductive exn : Set :=
| IndexError | KeyError | ValueError
| IncompleteReadError | LimitOverrunError | OSError.

Inductive result (A : Type) : Type :=
| Ok (a : A)
| Raise (e : exn)
| Beyond.

Arguments Ok {A} a.
Arguments Raise {A} e.
Arguments Beyond {A}.

(** Stateful calls: the state survives an exception, as the attributes of a
    Python object do. *)

Definition M (S A : Type) : Type := S -> result A * S.

Definition ret {S A} (a : A) : M S A := fun s => (Ok a, s).

Definition raise {S A} (e : exn) : M S A := fun s => (Raise e, s).

Definition bind {S A B} (m : M S A) (f : A -> M S B) : M S B :=
  fun s =>
    match m s with
    | (Ok a, s') => f a s'
    | (Raise e, s') => (Raise e, s')
    | (Beyond, s') => (Beyond, s')
    end.

Definition lift {S A} (r : result A) : M S A := fun s => (r, s).

Declare Scope py_scope.
Delimit Scope py_scope with py.
Notation "x <- m ;; k" := (bind m (fun x => k))
  (at level 61, m at next level, right associativity) : py_scope.
Notation "m ;;; k" := (bind m (fun _ => k))
  (at level 61, right associativity) : py_scope.

(** ** Text

    A Python [str] is a sequence of code points. *)

Definition codepoint := N.
Definition str := list codepoint.

Definition lit (s : string) : str := map N_of_ascii (list_ascii_of_string s).

Fixpoint str_eqb (a b : str) : bool :=
  match a, b with
  | [], [] => true
  | x :: a', y :: b' => N.eqb x y && str_eqb a' b'
  | _, _ => false
  end.

(** ** Insertion-ordered dictionaries

    [dict] and [collections.OrderedDict] keep their keys in insertion order;
    assigning to a key that is present keeps its place. *)

Module Dict.
Section Dict.
Context {E : Type}.

Definition t := list (str * E).

Definition keys (d : t) : list str := map fst d.

Fixpoint get (k : str) (d : t) : option E :=
  match d with
  | [] => None
  | (k', e) :: r => if str_eqb k k' then Some e else get k r
  end.

Definition mem (k : str) (d : t) : bool :=
  match get k d with Some _ => true | None => false end.

Fixpoint remove (k : str) (d : t) : t :=
  match d with
  | [] => []
  | (k', e) :: r => if str_eqb k k' then r else (k', e) :: remove k r
  end.

(** [d[k] = e] *)
Fixpoint set (k : str) (e : E) (d : t) : t :=
  match d with
  | [] => [(k, e)]
  | (k', e') :: r =>
      if str_eqb k k' then (k', e) :: r else (k', e') :: set k e r
  end.

(** [d.pop(k)] *)
Definition pop (k : str) (d : t) : result (E * t) :=
  match get k d with
  | Some e => Ok (e, remove k d)
  | None => Raise KeyError
  end.

(** [d.move_to_end(k)] *)
Definition move_to_end (k : str) (d : t) : result t :=
  match get k d with
  | Some e => Ok (remove k d ++ [(k, e)])
  | None => Raise KeyError
  end.

(** [d.popitem(last=False)] *)
Definition popitem_first (d : t) : result ((str * E) * t) :=
  match d with
  | [] => Raise KeyError
  | x :: r => Ok (x, r)
  end.

(** Keys of a dictionary are pairwise different. *)
Definition wf (d : t) : Prop := NoDup (keys d).
End Dict.
Arguments t : clear implicits.
End Dict.

(** ** The response cache (caching_proxy/cache/in_memory.py) *)

Module Cache.
Section Cache.
(** [response: Any] *)
Variable V : Type.

(** The stored value [{"response": response, "HIT_TTL": n}]. *)
Record entry : Type := { response : V; HIT_TTL : Z }.

Record InMemoryResponseCache : Type := {
  _cache : Dict.t entry;
  cache_size_limit : Z;
  eviction_policy : str;
  hit_ttl : Z
}.

Definition new (cache_size_limit : Z) (eviction_policy : str) (hit_ttl : Z)
  : InMemoryResponseCache :=
  {| _cache := []; cache_size_limit := cache_size_limit;
     eviction_policy := eviction_policy; hit_ttl := hit_ttl |}.

Definition with_cache (c : InMemoryResponseCache) (d : Dict.t entry)
  : InMemoryResponseCache :=
  {| _cache := d; cache_size_limit := cache_size_limit c;
     eviction_policy := eviction_policy c; hit_ttl := hit_ttl c |}.

Local Abbreviation St := InMemoryResponseCache.
Local Open Scope py_scope.

Definition remove_from_cache (key : str) : M St unit :=
  fun c =>
    match Dict.pop key (_cache c) with
    | Ok (_, d) => (Ok tt, with_cache c d)
    | Raise e => (Raise e, c)
    | Beyond => (Beyond, c)
    end.

Definition has_cached_response (key : str) : M St bool :=
  fun c =>
    match Dict.get key (_cache c) with
    | None => (Ok false, c)
    | Some cached_value =>
        if HIT_TTL cached_value =? 0
        then (remove_from_cache key ;;; ret false) c
        else (Ok true, c)
    end%Z.

Definition evict : M St unit :=
  fun c =>
    if str_eqb (eviction_policy c) (lit "entire") then
      (Ok tt, with_cache c [])
    else if str_eqb (eviction_policy c) (lit "lru") then
      match Dict.popitem_first (_cache c) with
      | Ok (_, d) => (Ok tt, with_cache c d)
      | Raise e => (Raise e, c)
      | Beyond => (Beyond, c)
      end
    else if str_eqb (eviction_policy c) (lit "none") then
      (Ok tt, c)
    else
      (Ok tt, c).

Definition get_cache_size (c : St) : Z := Z.of_nat (length (_cache c)).

(** The keys in iteration order. *)
Definition keys_of (c : St) : list str := Dict.keys (_cache c).

Definition cache_response (key : str) (response : V) : M St unit :=
  fun c =>
    if (cache_size_limit c =? 0)%Z then (Ok tt, c)
    else
      ((if (get_cache_size c >=? cache_size_limit c)%Z
        then evict else ret tt) ;;;
       (fun c' =>
          (Ok tt,
           with_cache c'
             (Dict.set key {| response := response; HIT_TTL := hit_ttl c' |}
                (_cache c'))))) c.

(** The entry is a mutable object held by the store: the decrement is seen
    through the store, and [move_to_end] then moves the updated entry. *)
Definition get_cached_response (key : str) : M St V :=
  fun c =>
    match Dict.get key (_cache c) with
    | None => (Raise KeyError, c)
    | Some cached_value =>
        let cached_value' :=
          {| response := response cached_value;
             HIT_TTL := HIT_TTL cached_value - 1 |} in
        let c1 := with_cache c (Dict.set key cached_value' (_cache c)) in
        match Dict.move_to_end key (_cache c1) with
        | Ok d => (Ok (response cached_value'), with_cache c1 d)
        | Raise e => (Raise e, c1)
        | Beyond => (Beyond, c1)
        end
    end.

(** One round of [periodic_cache_cleaner] (main.py), after its sleep. *)
Definition periodic_cache_cleaner_round : M St unit :=
  fun c =>
    if (get_cache_size c =? 0)%Z then (Ok tt, c) else evict c.

(** *** Sequences of calls *)

Inductive op : Type :=
| CacheResponse (key : str) (response : V)
| GetCachedResponse (key : str)
| HasCachedResponse (key : str)
| RemoveFromCache (key : str)
| Evict.

(** The cache after a call, whether it returned or raised. *)
Definition step (o : op) (c : St) : St :=
  match o with
  | CacheResponse k v => snd (cache_response k v c)
  | GetCachedResponse k => snd (get_cached_response k c)
  | HasCachedResponse k => snd (has_cached_response k c)
  | RemoveFromCache k => snd (remove_from_cache k c)
  | Evict => snd (evict c)
  end.

Definition run (ops : list op) (c : St) : St := fold_left (fun c o => step o c) ops c.

(** Keys that are pairwise different, and the calls storing them. *)
Definition fresh_key (i : nat) : str := repeat 97%N i.

Definition fill (v : V) (n : nat) : list op :=
  map (fun i => CacheResponse (fresh_key i) v) (seq 0 n).

(** [cache_response] of each pair in turn. *)
Definition puts (kvs : list (str * V)) : list op :=
  map (fun kv => CacheResponse (fst kv) (snd kv)) kvs.

(** The item that [cache_response] stores for a pair. *)
Definition stored (ttl : Z) (kv : str * V) : str * entry :=
  (fst kv, {| response := snd kv; HIT_TTL := ttl |}).

(** [n] rounds of the handler's hit path on [key]: [has_cached_response]
    must answer [True], then [get_cached_response] is called.  Returns the
    values read. *)
Fixpoint hits (n : nat) (key : str) : M St (list V) :=
  match n with
  | O => ret []
  | S n' =>
      h <- has_cached_response key ;;
      if (h : bool) then
        v <- get_cached_response key ;;
        vs <- hits n' key ;;
        ret (v :: vs)
      else raise KeyError
  end.

(** *** Recency of use, for the LRU order

    [touch k r] records a use of [k] in a list of keys ordered from the
    least recently used to the most recently used. *)
Definition touch (k : str) (r : list str) : list str :=
  filter (fun x => negb (str_eqb x k)) r ++ [k].

(** Which key a call uses, under three readings of "use". *)

(** a read: a [get_cached_response] that finds its key *)
Definition use_read (o : op) (c : St) : option str :=
  match o with
  | GetCachedResponse k => if Dict.mem k (_cache c) then Some k else None
  | _ => None
  end.

(** a read, or any [cache_response] that stores *)
Definition use_read_write (o : op) (c : St) : option str :=
  match o with
  | GetCachedResponse k => if Dict.mem k (_cache c) then Some k else None
  | CacheResponse k _ =>
      if Dict.mem k (_cache (step o c)) then Some k else None
  | _ => None
  end.

(** a read, or a [cache_response] whose key is not in the store at the
    moment of the assignment (after the eviction, if one takes place) *)
Definition use_read_insert (o : op) (c : St) : option str :=
  match o with
  | GetCachedResponse k => if Dict.mem k (_cache c) then Some k else None
  | CacheResponse k _ =>
      if (cache_size_limit c =? 0)%Z then None
      else
        let c' := if (get_cache_size c >=? cache_size_limit c)%Z
                  then evict c else (Ok tt, c) in
        match c' with
        | (Ok _, c1) => if Dict.mem k (_cache c1) then None else Some k
        | _ => None
        end
  | _ => None
  end.

Fixpoint recency (use : op -> St -> option str) (ops : list op) (c : St)
    (r : list str) : list str :=
  match ops with
  | [] => r
  | o :: ops' =>
      recency use ops' (step o c)
        (match use o c with Some k => touch k r | None => r end)
  end.

(** The store lists its keys in the order of the recency list [r]. *)
Definition ordered_by (r : list str) (c : St) : Prop :=
  Dict.wf (_cache c) /\ NoDup r /\
  keys_of c = filter (fun x => Dict.mem x (_cache c)) r.

(** The keys of the store as the recency list orders them. *)
Definition by_recency (use : op -> St -> option str) (ops : list op) (c : St)
  : list str :=
  filter (fun k => Dict.mem k (_cache (run ops c))) (recency use ops c []).
End Cache.
Arguments use_read {V} o c.
Arguments use_read_write {V} o c.
Arguments use_read_insert {V} o c.
Arguments GetCachedResponse {V} key.
Arguments HasCachedResponse {V} key.
Arguments RemoveFromCache {V} key.
Arguments Evict {V}.
End Cache.

(** ** Text and bytes, as far as the proxy uses them

    The embedding is exact on text made of ASCII characters and the letter
    U+00DF; [decode] answers [None] on any other input, and the functions
    that consult the Unicode tables ([isspace], [isword], [lower_char],
    [upper_char], [title_char]) are only meant for these characters. *)

Module Text.
Local Open Scope N_scope.

Definition bytes := list Byte.byte.

Definition blit (s : string) : bytes := list_byte_of_string s.

Definition byte_of (n : N) : Byte.byte :=
  match Byte.of_N n with Some b => b | None => Byte.x00 end.

Definition CR : codepoint := 13.
Definition LF : codepoint := 10.
Definition CRLF : bytes := [byte_of 13; byte_of 10].

Definition sharp_s : codepoint := 223.

Definition in_repertoire (c : codepoint) : bool := (c <? 128) || (c =? sharp_s).

(** [bytes.decode("utf-8", errors="replace")] *)
Fixpoint decode (raw : bytes) : option str :=
  match raw with
  | [] => Some []
  | b :: r =>
      if Byte.to_N b <? 128 then option_map (cons (Byte.to_N b)) (decode r)
      else
        match r with
        | b2 :: r2 =>
            if (Byte.to_N b =? 195) && (Byte.to_N b2 =? 159)
            then option_map (cons sharp_s) (decode r2)
            else None
        | [] => None
        end
  end.

(** [str.encode("utf-8")] *)
Definition encode_char (c : codepoint) : option bytes :=
  if c <? 128 then Some [byte_of c]
  else if c =? sharp_s then Some [byte_of 195; byte_of 159]
  else None.

Fixpoint encode (s : str) : option bytes :=
  match s with
  | [] => Some []
  | c :: r =>
      match encode_char c, encode r with
      | Some b, Some br => Some (b ++ br)
      | _, _ => None
      end
  end.

(** [str.isspace], also the class [\s] of [re] on [str] *)
Definition isspace (c : codepoint) : bool :=
  ((9 <=? c) && (c <=? 13)) || ((28 <=? c) && (c <=? 32)).

(** ASCII whitespace, as [bytes.strip] and [int] on ASCII use it *)
Definition c_isspace (c : N) : bool := ((9 <=? c) && (c <=? 13)) || (c =? 32).

Definition is_upper_ascii (c : codepoint) : bool := (65 <=? c) && (c <=? 90).
Definition is_lower_ascii (c : codepoint) : bool := (97 <=? c) && (c <=? 122).
Definition is_digit_ascii (c : codepoint) : bool := (48 <=? c) && (c <=? 57).

(** the class [\w] of [re] on [str]: alphanumeric or underscore *)
Definition isword (c : codepoint) : bool :=
  is_upper_ascii c || is_lower_ascii c || is_digit_ascii c || (c =? 95)
  || (c =? sharp_s).

Definition lower_char (c : codepoint) : codepoint :=
  if is_upper_ascii c then c + 32 else c.

Definition upper_char (c : codepoint) : str :=
  if is_lower_ascii c then [c - 32]
  else if c =? sharp_s then [83; 83]
  else [c].

Definition title_char (c : codepoint) : str :=
  if is_lower_ascii c then [c - 32]
  else if c =? sharp_s then [83; 115]
  else [c].

(** [str.lower], [str.upper], [str.capitalize] *)
Definition lower (s : str) : str := map lower_char s.

Definition upper (s : str) : str := flat_map upper_char s.

Definition capitalize (s : str) : str :=
  match s with
  | [] => []
  | c :: r => title_char c ++ lower r
  end.

Fixpoint dropwhile {A} (f : A -> bool) (l : list A) : list A :=
  match l with
  | [] => []
  | x :: r => if f x then dropwhile f r else l
  end.

Fixpoint takewhile {A} (f : A -> bool) (l : list A) : list A :=
  match l with
  | [] => []
  | x :: r => if f x then x :: takewhile f r else []
  end.

(** [s] does not begin with a blank. *)
Definition no_lead {A} (blank : A -> bool) (s : list A) : Prop :=
  match s with [] => True | c :: _ => blank c = false end.

(** [s.strip()] for a class of blanks *)
Definition strip_by {A} (blank : A -> bool) (s : list A) : list A :=
  rev (dropwhile blank (rev (dropwhile blank s))).

Definition strip (s : str) : str := strip_by isspace s.

Definition bytes_strip (s : bytes) : bytes :=
  strip_by (fun b => c_isspace (Byte.to_N b)) s.

(** [s.split(sep)] for a separator of one character *)
Fixpoint split_by {A} (is_sep : A -> bool) (s : list A) : list (list A) :=
  match s with
  | [] => [[]]
  | c :: r =>
      if is_sep c then [] :: split_by is_sep r
      else
        match split_by is_sep r with
        | h :: t => (c :: h) :: t
        | [] => [[c]]
        end
  end.

Definition split (sep : codepoint) (s : str) : list str :=
  split_by (N.eqb sep) s.

Fixpoint starts_with (p s : str) : bool :=
  match p, s with
  | [], _ => true
  | x :: p', y :: s' => (x =? y) && starts_with p' s'
  | _ :: _, [] => false
  end.

Definition ends_with (p s : str) : bool := starts_with (rev p) (rev s).

(** [s.split(sep)] for a separator of several characters: [skip] counts the
    characters of a separator just found that are still to be passed,
    [cur] holds the current piece in reverse. *)
Fixpoint split_str_go (sep s : str) (skip : nat) (cur : str) : list str :=
  match s with
  | [] => [rev cur]
  | c :: r =>
      match skip with
      | S n => split_str_go sep r n cur
      | O =>
          if starts_with sep s
          then rev cur :: split_str_go sep r (pred (length sep)) []
          else split_str_go sep r O (c :: cur)
      end
  end.

Definition split_str (sep s : str) : list str := split_str_go sep s O [].

(** [sep.join(pieces)] *)
Fixpoint join (sep : str) (pieces : list str) : str :=
  match pieces with
  | [] => []
  | [x] => x
  | x :: r => x ++ sep ++ join sep r
  end.

(** [s.replace("\r\n", "\n")] *)
Fixpoint replace_crlf (s : str) : str :=
  match s with
  | [] => []
  | c :: r =>
      match r with
      | d :: r' =>
          if (c =? CR) && (d =? LF) then LF :: replace_crlf r'
          else c :: replace_crlf r
      | [] => [c]
      end
  end.

(** [str(n)] for a number that is not negative *)
Definition str_of_N (n : N) : str :=
  lit (DecimalString.NilZero.string_of_uint (N.to_uint n)).

(** *** [int(text, base)]

    After blanks and a sign, and for base 16 an optional "0x" or "0X"
    (which one underscore may follow), come digits; single underscores may
    separate digits; blanks may follow. *)

Definition digit_value (c : N) : option N :=
  if is_digit_ascii c then Some (c - 48)
  else if is_lower_ascii c then Some (c - 97 + 10)
  else if is_upper_ascii c then Some (c - 65 + 10)
  else None.

Definition is_digit_in (base c : N) : bool :=
  match digit_value c with
  | Some d => d <? base
  | None => false
  end.

Definition scan_end (s : list N) (prev_underscore seen : bool) (acc : N)
  : option (N * list N) :=
  if prev_underscore then None
  else if seen then Some (acc, s) else None.

Fixpoint scan_digits (base : N) (s : list N) (prev_underscore seen : bool)
    (acc : N) : option (N * list N) :=
  match s with
  | [] => scan_end s prev_underscore seen acc
  | c :: r =>
      if c =? 95 then
        if prev_underscore then None
        else scan_digits base r true seen acc
      else
        match digit_value c with
        | Some d =>
            if d <? base then scan_digits base r false true (acc * base + d)
            else scan_end s prev_underscore seen acc
        | None => scan_end s prev_underscore seen acc
        end
  end.

Definition skip_prefix (base : N) (s : list N) : list N :=
  if base =? 16 then
    match s with
    | 48 :: x :: r =>
        if (x =? 120) || (x =? 88)
        then match r with 95 :: r' => r' | _ => r end
        else s
    | _ => s
    end
  else s.

Definition py_int (base : N) (text : list N) : option Z :=
  let s1 := dropwhile c_isspace text in
  let '(sign, s2) :=
    match s1 with
    | 43 :: r => (1%Z, r)
    | 45 :: r => ((-1)%Z, r)
    | _ => (1%Z, s1)
    end in
  let s3 := skip_prefix base s2 in
  match s3 with
  | 95 :: _ => None
  | _ =>
      match scan_digits base s3 false false 0 with
      | Some (v, rest) =>
          if forallb c_isspace rest then Some (sign * Z.of_N v)%Z else None
      | None => None
      end
  end.

(** [int(s)] on a [str], [int(b, 16)] on [bytes].  In base 10 CPython
    refuses a text of more than [sys.get_int_max_str_digits()] digits, 4300
    unless configured otherwise; bases that are powers of two have no such
    limit. *)
Definition MAX_STR_DIGITS : N := 4300.

Definition int_of_str (s : str) : result Z :=
  if MAX_STR_DIGITS <? N.of_nat (length (filter is_digit_ascii s))
  then Raise ValueError
  else match py_int 10 s with Some z => Ok z | None => Raise ValueError end.

Definition int16_of_bytes (b : bytes) : result Z :=
  match py_int 16 (map Byte.to_N b) with
  | Some z => Ok z
  | None => Raise ValueError
  end.

End Text.

(** ** HTTP messages (caching_proxy/http/message.py) *)

Module Http.
Import Text.
Local Open Scope N_scope.
Local Open Scope py_scope.

(** *** The header set *)

Record HTTPHeaders : Type := {
  raw : bytes;
  start_line : str;
  headers : Dict.t (list str)
}.

Definition _normalize_header (repr_txt : str) : str :=
  let words := split 45 (strip repr_txt) in
  let words := map lower words in
  join [95] words.

Definition _format_header (norm_txt : str) : str :=
  let words := split 95 norm_txt in
  let words := map capitalize words in
  join [45] words.

Definition _decode_header_bytes (raw : bytes) : result str :=
  match decode raw with Some s => Ok s | None => Beyond end.

Definition _split_header_lines (decoded : str) : list str :=
  split LF (replace_crlf decoded).

(** The loop of [_unfold_lines]; [unfolded] is kept in reverse, its head is
    [unfolded[-1]]. *)
Fixpoint _unfold_lines_loop (lines : list str) (unfolded : list str)
  : result (list str) :=
  match lines with
  | [] => Ok (rev unfolded)
  | line :: rest =>
      match strip line with
      | [] => _unfold_lines_loop rest unfolded
      | _ :: _ =>
          if starts_with [32] line || starts_with [9] line then
            match unfolded with
            | [] => Raise IndexError
            | last :: others =>
                _unfold_lines_loop rest
                  ((last ++ [32] ++ strip line) :: others)
            end
          else _unfold_lines_loop rest (line :: unfolded)
      end
  end.

Definition _unfold_lines (lines : list str) : result (list str) :=
  _unfold_lines_loop lines [].

(** [re.search(pattern, line)] for the pattern of [_parse_header_lines]: a
    group of one or more word characters or hyphens, a colon, any blanks,
    and a group with the rest of the line.  The leftmost match starts at the
    first run of name characters that a colon follows ([name] holds the
    current run in reverse); the value is what follows the blanks after the
    colon, up to the end of the line. *)
Definition is_name_char (c : codepoint) : bool := isword c || (c =? 45).

Fixpoint search_name (line : str) (name : str) : option (str * str) :=
  match line with
  | [] => None
  | c :: r =>
      if is_name_char c then search_name r (c :: name)
      else
        match name with
        | _ :: _ => if c =? 58 then Some (rev name, r) else search_name r []
        | [] => search_name r []
        end
  end.

Definition header_match (line : str) : option (str * str) :=
  match search_name line [] with
  | Some (name, r) =>
      Some (name, takewhile (fun c => negb (c =? LF)) (dropwhile isspace r))
  | None => None
  end.

(** [headers.setdefault(name, []).append(value)] *)
Definition setdefault_append (name value : str) (headers : Dict.t (list str))
  : Dict.t (list str) :=
  match Dict.get name headers with
  | Some values => Dict.set name (values ++ [value]) headers
  | None => Dict.set name [value] headers
  end.

Definition parse_line (headers : Dict.t (list str)) (line : str)
  : Dict.t (list str) :=
  match header_match line with
  | Some (name, value) =>
      setdefault_append (_normalize_header name) (strip value) headers
  | None => headers
  end.

Definition _parse_header_lines (lines : list str)
  : result (str * Dict.t (list str)) :=
  match lines with
  | [] => Raise IndexError
  | start_line :: rest => Ok (start_line, fold_left parse_line rest [])
  end.

Definition _parse_raw_headers (raw : bytes)
  : result (str * Dict.t (list str)) :=
  match _decode_header_bytes raw with
  | Ok decoded =>
      match _unfold_lines (_split_header_lines decoded) with
      | Ok unfolded => _parse_header_lines unfolded
      | Raise e => Raise e
      | Beyond => Beyond
      end
  | Raise e => Raise e
  | Beyond => Beyond
  end.

(** [HTTPHeaders(raw_header)] *)
Definition HTTPHeaders_init (raw_header : bytes) : result HTTPHeaders :=
  match _parse_raw_headers raw_header with
  | Ok (start_line, headers) =>
      Ok {| raw := raw_header; start_line := start_line; headers := headers |}
  | Raise e => Raise e
  | Beyond => Beyond
  end.

Definition get_header (self : HTTPHeaders) (name : str) : option (list str) :=
  Dict.get (_normalize_header name) (headers self).

Definition header_lines (self : HTTPHeaders) : list str :=
  (start_line self ++ [CR; LF]) ::
  flat_map
    (fun item =>
       map (fun value =>
              _format_header (fst item) ++ lit ": " ++ value ++ [CR; LF])
         (snd item))
    (headers self)
  ++ [[CR; LF]].

Fixpoint encode_all (pieces : list str) : option bytes :=
  match pieces with
  | [] => Some []
  | p :: r =>
      match encode p, encode_all r with
      | Some b, Some br => Some (b ++ br)
      | _, _ => None
      end
  end.

Definition _update_raw_bytes (self : HTTPHeaders) : result HTTPHeaders :=
  match encode_all (header_lines self) with
  | Some b =>
      Ok {| raw := b; start_line := start_line self; headers := headers self |}
  | None => Beyond
  end.

Definition with_headers (self : HTTPHeaders) (d : Dict.t (list str))
  : HTTPHeaders :=
  {| raw := raw self; start_line := start_line self; headers := d |}.

Definition insert (self : HTTPHeaders) (name : str) (values : list str)
  : result HTTPHeaders :=
  let normalized_name := _normalize_header name in
  match Dict.get normalized_name (headers self) with
  | None =>
      _update_raw_bytes
        (with_headers self (Dict.set normalized_name values (headers self)))
  | Some old =>
      _update_raw_bytes
        (with_headers self
           (Dict.set normalized_name (old ++ values) (headers self)))
  end.

Definition replace (self : HTTPHeaders) (name : str) (values : list str)
  : result (HTTPHeaders * bool) :=
  let normalized_name := _normalize_header name in
  match Dict.get normalized_name (headers self) with
  | Some _ =>
      match _update_raw_bytes
              (with_headers self
                 (Dict.set normalized_name values (headers self))) with
      | Ok h => Ok (h, true)
      | Raise e => Raise e
      | Beyond => Beyond
      end
  | None => Ok (self, false)
  end.

Definition delete (self : HTTPHeaders) (name : str)
  : result (HTTPHeaders * bool) :=
  match Dict.pop (_normalize_header name) (headers self) with
  | Ok (_, d) =>
      match _update_raw_bytes (with_headers self d) with
      | Ok h => Ok (h, true)
      | Raise e => Raise e
      | Beyond => Beyond
      end
  | Raise _ => Ok (self, false)
  | Beyond => Beyond
  end.

Definition names (self : HTTPHeaders) : list str := Dict.keys (headers self).

(** *** Body and message *)

Record HTTPBody : Type := { body_raw : bytes }.

Definition size (self : HTTPBody) : N := N.of_nat (length (body_raw self)).

Record HTTPMessage : Type := { msg_headers : HTTPHeaders; msg_body : HTTPBody }.

Definition replace_header (self : HTTPMessage) (name : str) (value : list str)
  : result HTTPMessage :=
  match replace (msg_headers self) name value with
  | Ok (h, _) => Ok {| msg_headers := h; msg_body := msg_body self |}
  | Raise e => Raise e
  | Beyond => Beyond
  end.

Definition set_header (self : HTTPMessage) (name : str) (value : list str)
  : result HTTPMessage :=
  match insert (msg_headers self) name value with
  | Ok h => Ok {| msg_headers := h; msg_body := msg_body self |}
  | Raise e => Raise e
  | Beyond => Beyond
  end.

Definition message_raw (self : HTTPMessage) : bytes :=
  raw (msg_headers self) ++ body_raw (msg_body self).

(** [HTTPRequest] *)
Definition request_line (self : HTTPMessage) : str :=
  start_line (msg_headers self).

Definition method (self : HTTPMessage) : str :=
  upper (hd [] (split 32 (request_line self))).

(** [HTTPRequestMethod.GET.value] *)
Definition GET : str := lit "GET".

(** *** The stream reader (caching_proxy/http/reader.py)

    [asyncio.StreamReader] is modelled by the bytes that are still to arrive
    on the connection, followed by end of file. *)

Definition DEFAULT_LIMIT : N := 65536.

Fixpoint starts_with_bytes (p s : bytes) : bool :=
  match p, s with
  | [], _ => true
  | x :: p', y :: s' => Byte.eqb x y && starts_with_bytes p' s'
  | _ :: _, [] => false
  end.

(** The data before the first [sep] (in reverse), and what follows [sep]. *)
Fixpoint find_separator (sep buf : bytes) (before : bytes)
  : option (bytes * bytes) :=
  match buf with
  | [] => None
  | b :: r =>
      if starts_with_bytes sep buf
      then Some (before, skipn (length sep) buf)
      else find_separator sep r (b :: before)
  end.

(** [StreamReader.readuntil(sep)]: fails at end of file without [sep], and
    when [sep] starts beyond the limit of the stream. *)
Definition readuntil (sep : bytes) : M bytes bytes :=
  fun buf =>
    match find_separator sep buf [] with
    | None => (Raise IncompleteReadError, [])
    | Some (before, rest) =>
        if N.of_nat (length before) <=? DEFAULT_LIMIT
        then (Ok (rev before ++ sep), rest)
        else (Raise LimitOverrunError, buf)
    end.

(** [StreamReader.readexactly(n)] *)
Definition readexactly (n : Z) : M bytes bytes :=
  fun buf =>
    if (n <? 0)%Z then (Raise ValueError, buf)
    else if (Z.of_nat (length buf) <? n)%Z then (Raise IncompleteReadError, [])
    else (Ok (firstn (Z.to_nat n) buf), skipn (Z.to_nat n) buf).

Inductive BodyReaderType : Set := NOREAD | CHUNKED | CONTENT_LENGTH.

Record AsyncHTTPStreamReader : Type := {
  reader : bytes;
  _body_reader_type : BodyReaderType;
  _content_length : Z
}.

Definition AsyncHTTPStreamReader_init (stream : bytes) : AsyncHTTPStreamReader :=
  {| reader := stream; _body_reader_type := NOREAD; _content_length := 0 |}.

(** A call on [self.reader]. *)
Definition on_reader {A} (m : M bytes A) : M AsyncHTTPStreamReader A :=
  fun self =>
    let '(r, buf) := m (reader self) in
    (r, {| reader := buf; _body_reader_type := _body_reader_type self;
           _content_length := _content_length self |}).

Definition set_body_reader_type (t : BodyReaderType)
  : M AsyncHTTPStreamReader unit :=
  fun self =>
    (Ok tt, {| reader := reader self; _body_reader_type := t;
               _content_length := _content_length self |}).

Definition set_content_length (n : Z) : M AsyncHTTPStreamReader unit :=
  fun self =>
    (Ok tt, {| reader := reader self;
               _body_reader_type := _body_reader_type self;
               _content_length := n |}).

Definition read_headers : M AsyncHTTPStreamReader bytes :=
  on_reader (readuntil (CRLF ++ CRLF)).

(** [int(size_line.strip().split(b";")[0], 16)] *)
Definition chunk_size (size_line : bytes) : result Z :=
  int16_of_bytes
    (hd [] (split_by (Byte.eqb (byte_of 59)) (bytes_strip size_line))).

(** The loop of [_read_chunked].  Every round reads a line, so the number of
    bytes still to arrive bounds the number of rounds; [fuel] counts them. *)
Fixpoint _read_chunked_loop (fuel : nat) (body : bytes) : M bytes bytes :=
  match fuel with
  | O => lift Beyond
  | S fuel' =>
      size_line <- readuntil CRLF ;;
      size <- lift (chunk_size size_line) ;;
      if (size =? 0)%Z then
        readuntil CRLF ;;; ret body
      else
        chunk <- readexactly size ;;
        readuntil CRLF ;;;
        _read_chunked_loop fuel' (body ++ chunk)
  end.

Definition _read_chunked : M AsyncHTTPStreamReader bytes :=
  fun self =>
    on_reader (_read_chunked_loop (S (length (reader self))) []) self.

Definition _read_exactly : M AsyncHTTPStreamReader bytes :=
  fun self => on_reader (readexactly (_content_length self)) self.

Definition read_body : M AsyncHTTPStreamReader bytes :=
  fun self =>
    match _body_reader_type self with
    | NOREAD => (Ok [], self)
    | CHUNKED => _read_chunked self
    | CONTENT_LENGTH => _read_exactly self
    end.

(** *** The message builders *)

Definition _build_headers : M AsyncHTTPStreamReader HTTPHeaders :=
  raw_headers <- read_headers ;;
  lift (HTTPHeaders_init raw_headers).

Definition _expected_body_size (headers : HTTPHeaders) : result Z :=
  match get_header headers (lit "content_length") with
  | None => Ok 0%Z
  | Some [] => Raise IndexError
  | Some (first :: _) => int_of_str first
  end.

Definition _expect_chunked_body (headers : HTTPHeaders) : result bool :=
  match get_header headers (lit "transfer_encoding") with
  | None => Ok false
  | Some [] => Raise IndexError
  | Some (first :: _) => Ok (str_eqb first (lit "chunked"))
  end.

(** The two header names the builder looks up. *)
Definition TE : str := lit "transfer_encoding".
Definition CL : str := lit "content_length".

(** A list is true when it is not empty. *)
Definition truthy (v : option (list str)) : bool :=
  match v with Some (_ :: _) => true | _ => false end.

Definition _dechunk_body (headers : HTTPHeaders) (body : HTTPBody)
  : result HTTPHeaders :=
  let body_size := str_of_N (size body) in
  if truthy (get_header headers (lit "transfer_encoding")) then
    match delete headers (lit "transfer_encoding") with
    | Ok (headers1, _) =>
        if truthy (get_header headers1 (lit "content_length")) then
          match replace headers1 (lit "content_length") [body_size] with
          | Ok (headers2, _) => Ok headers2
          | Raise e => Raise e
          | Beyond => Beyond
          end
        else insert headers1 (lit "content_length") [body_size]
    | Raise e => Raise e
    | Beyond => Beyond
    end
  else Ok headers.

(** [_build_body] changes the header set it is given; the changed header
    set is returned with the body. *)
Definition _build_body (headers : HTTPHeaders)
  : M AsyncHTTPStreamReader (HTTPHeaders * HTTPBody) :=
  chunked <- lift (_expect_chunked_body headers) ;;
  if (chunked : bool) then
    set_body_reader_type CHUNKED ;;;
    body_raw <- read_body ;;
    let body := {| body_raw := body_raw |} in
    headers' <- lift (_dechunk_body headers body) ;;
    ret (headers', body)
  else
    content_length <- lift (_expected_body_size headers) ;;
    if (content_length =? 0)%Z then ret (headers, {| body_raw := [] |})
    else
      set_body_reader_type CONTENT_LENGTH ;;;
      set_content_length content_length ;;;
      body_raw <- read_body ;;
      ret (headers, {| body_raw := body_raw |}).

(** [DechunkedAsyncStreamMessageBuilder(reader).build_request()] and
    [.build_response()] *)
Definition build_message : M AsyncHTTPStreamReader HTTPMessage :=
  headers <- _build_headers ;;
  hb <- _build_body headers ;;
  ret {| msg_headers := fst hb; msg_body := snd hb |}.

(** The headers read from [stream] select chunked framing. *)
Definition selects_chunked (stream : bytes) : Prop :=
  exists raw_headers rest headers,
    read_headers (AsyncHTTPStreamReader_init stream) = (Ok raw_headers, rest) /\
    HTTPHeaders_init raw_headers = Ok headers /\
    _expect_chunked_body headers = Ok true.

Definition build_request := build_message.
Definition build_response := build_message.

(** [RawMessageBuilder().build_response(raw_headers, raw_body)] *)
Definition raw_build_response (raw_headers raw_body : bytes)
  : result HTTPMessage :=
  match HTTPHeaders_init raw_headers with
  | Ok headers =>
      Ok {| msg_headers := headers; msg_body := {| body_raw := raw_body |} |}
  | Raise e => Raise e
  | Beyond => Beyond
  end.

(** [_normalize_header] and [_format_header] character by character: a
    hyphen becomes an underscore and the rest is lowered; an underscore
    becomes a hyphen, the first character of a word gets its title case and
    the others are lowered. *)
Definition norm_char (c : codepoint) : codepoint :=
  if 45 =? c then 95 else lower_char c.

Fixpoint format_from (start : bool) (s : str) : str :=
  match s with
  | [] => []
  | c :: r =>
      if 95 =? c then 45 :: format_from true r
      else (if start then title_char c else [lower_char c])
           ++ format_from false r
  end.

(** *** Shapes of text

    [encodable]: made of the characters the embedding covers.
    [one_line]: without a line feed.  [stripped]: unchanged by [strip]. *)
Definition encodable (s : str) : Prop :=
  Forall (fun c => in_repertoire c = true) s.

Definition one_line (s : str) : Prop := Forall (fun c => c <> LF) s.

Definition stripped (s : str) : Prop := strip s = s.

Definition ascii (s : str) : Prop := Forall (fun c => c < 128) s.

(** A line that [_unfold_lines] keeps as a line of its own. *)
Definition own_line (s : str) : Prop :=
  strip s <> [] /\ starts_with [32] s || starts_with [9] s = false.

(** A name as [_normalize_header] leaves it after a match of the pattern. *)
Definition normal_name (k : str) : Prop :=
  k <> [] /\
  Forall (fun c => is_name_char c = true /\ c <> 45 /\
                   is_upper_ascii c = false) k.

Definition good_value (v : str) : Prop :=
  one_line v /\ stripped v /\ encodable v.

Definition good_item (item : str * list str) : Prop :=
  normal_name (fst item) /\ encodable (fst item) /\
  snd item <> [] /\ Forall good_value (snd item).

(** What parsing guarantees about a header set. *)
Definition parsed_shape (h : HTTPHeaders) : Prop :=
  one_line (start_line h) /\ own_line (start_line h) /\
  encodable (start_line h) /\
  Dict.wf (headers h) /\ Forall good_item (headers h).

(** What serialization needs. *)
Definition encodable_headers (h : HTTPHeaders) : Prop :=
  encodable (start_line h) /\
  Forall (fun item : str * list str =>
            encodable (fst item) /\ Forall encodable (snd item))
    (headers h).

(** The line that serializes one value of a name, without its CR LF. *)
Definition header_line (k v : str) : str := _format_header k ++ lit ": " ++ v.

(** The lines of the serialized header block, without their CR LF: the
    start line, a line for each value of each name, and the empty line. *)
Definition text_lines (self : HTTPHeaders) : list str :=
  start_line self ::
  flat_map
    (fun item =>
       map (fun value => _format_header (fst item) ++ lit ": " ++ value)
         (snd item))
    (headers self)
  ++ [[]].

(** A header block or a message given by its lines, each ended by CR LF. *)
Definition wire (lines : list string) : bytes :=
  flat_map (fun l => blit l ++ CRLF) lines.

End Http.

(** ** The proxy handler (caching_proxy/server.py) *)

Module Server.
Import Text Http.
Local Open Scope N_scope.
Local Open Scope py_scope.

(** The cached value [{"header": ..., "body": ...}]. *)
Record cachable : Type := { header : bytes; body : bytes }.

Definition Storage := Cache.InMemoryResponseCache cachable.

Record CachingProxyServer : Type := {
  host : str;
  port : N;
  origin_url : str
}.

(** [asyncio.open_connection(host, port, ssl=ssl)]: no connection, or an
    origin that answers the bytes written to it with a stream of bytes and
    then closes. *)
Definition Network := str -> N -> bool -> option (bytes -> bytes).

(** What a handler leaves behind: the cache, the writes to the origin and to
    the client, whether the client connection was closed, and the calls made
    on the cache, in order. *)
Record World : Type := {
  storage : Storage;
  to_origin : list bytes;
  to_client : list bytes;
  client_closed : bool;
  cache_calls : list (Cache.op cachable)
}.

Definition start (c : Storage) : World :=
  {| storage := c; to_origin := []; to_client := [];
     client_closed := false; cache_calls := [] |}.

Definition _parse_origin_host_port (self : CachingProxyServer)
  : result (str * N) :=
  let address := split_str (lit "//") (origin_url self) in
  match nth_error address 1 with
  | None => Raise IndexError
  | Some a1 =>
      let host := if ends_with (lit "/") a1 then removelast a1 else a1 in
      let port := if starts_with (lit "https") (hd [] address)
                  then 443 else 80 in
      Ok (host, port)
  end.

Definition _open_connection_to_origin (net : Network) (origin_host : str)
    (origin_port : N) : result (bytes -> bytes) :=
  let ssl := if origin_port =? 443 then true else false in
  match net origin_host origin_port ssl with
  | Some origin => Ok origin
  | None => Raise OSError
  end.

Definition on_storage {A} (call : Cache.op cachable) (m : M Storage A)
  : M World A :=
  fun w =>
    let '(r, c) := m (storage w) in
    (r, {| storage := c; to_origin := to_origin w; to_client := to_client w;
           client_closed := client_closed w;
           cache_calls := cache_calls w ++ [call] |}).

(** Writing to a connection is taken to succeed. *)
Definition _write_request_to_origin (request : HTTPMessage) : M World unit :=
  fun w =>
    (Ok tt, {| storage := storage w;
               to_origin := to_origin w ++ [message_raw request];
               to_client := to_client w; client_closed := client_closed w;
               cache_calls := cache_calls w |}).

Definition _write_response_to_client_and_close (response : HTTPMessage)
  : M World unit :=
  fun w =>
    (Ok tt, {| storage := storage w; to_origin := to_origin w;
               to_client := to_client w ++ [message_raw response];
               client_closed := true; cache_calls := cache_calls w |}).

Definition close_client (w : World) : World :=
  {| storage := storage w; to_origin := to_origin w; to_client := to_client w;
     client_closed := true; cache_calls := cache_calls w |}.

(** Building a message from a fresh reader on [stream]. *)
Definition build_from (stream : bytes) : result HTTPMessage :=
  fst (build_message (AsyncHTTPStreamReader_init stream)).

(** The body of the [try] block, from the request on. *)
Definition serve (net : Network) (origin_host : str) (origin_port : N)
    (request : HTTPMessage) : M World unit :=
  request <- lift (replace_header request (lit "host")
                     [origin_host ++ lit ":" ++ str_of_N origin_port]) ;;
  origin <- lift (_open_connection_to_origin net origin_host origin_port) ;;
  if negb (str_eqb (method request) GET) then
    _write_request_to_origin request ;;;
    response <- lift (build_from (origin (message_raw request))) ;;
    response <- lift (set_header response (lit "x_cached_by_proxy")
                        [lit "MISS"]) ;;
    _write_response_to_client_and_close response
  else
    let cache_key := request_line request in
    hit <- on_storage (Cache.HasCachedResponse cache_key)
             (Cache.has_cached_response cache_key) ;;
    if (hit : bool) then
      cached_response <- on_storage (Cache.GetCachedResponse cache_key)
                           (Cache.get_cached_response cache_key) ;;
      response <- lift (raw_build_response (header cached_response)
                          (body cached_response)) ;;
      response <- lift (set_header response (lit "x_cached_by_proxy")
                          [lit "HIT"]) ;;
      _write_response_to_client_and_close response
    else
      _write_request_to_origin request ;;;
      response <- lift (build_from (origin (message_raw request))) ;;
      let cachable_response :=
        {| header := raw (msg_headers response);
           body := body_raw (msg_body response) |} in
      on_storage (Cache.CacheResponse cache_key cachable_response)
        (Cache.cache_response cache_key cachable_response) ;;;
      response <- lift (set_header response (lit "x_cached_by_proxy")
                          [lit "MISS"]) ;;
      _write_response_to_client_and_close response.

Definition try_block (self : CachingProxyServer) (client_stream : bytes)
    (net : Network) : M World unit :=
  origin <- lift (_parse_origin_host_port self) ;;
  request <- lift (build_from client_stream) ;;
  serve net (fst origin) (snd origin) request.

(** [_handle_request]: any exception closes the client connection without a
    reply.  [None] when the input is beyond the embedding. *)
Definition _handle_request (self : CachingProxyServer) (client_stream : bytes)
    (net : Network) (w : World) : option World :=
  match try_block self client_stream net w with
  | (Ok _, w') => Some w'
  | (Raise _, w') => Some (close_client w')
  | (Beyond, _) => None
  end.

End Server.

(** ** Inputs for the scenarios of the specification *)

Module Examples.
Import Text Http Server.
Local Open Scope N_scope.
Local Open Scope string_scope.

(** Scenario 5. *)
Definition two_values : bytes :=
  wire ["GET /x HTTP/1.1"; "Host: a"; "X-A: 1"; "X-A: 2"; ""].

Definition two_values_headers : HTTPHeaders :=
  Eval vm_compute in
    match HTTPHeaders_init two_values with
    | Ok h => h
    | _ => {| raw := []; start_line := []; headers := [] |}
    end.

(** A header whose name is the letter U+00DF. *)
Definition sharp_s_block : bytes :=
  (wire ["GET / HTTP/1.1"] ++ [byte_of 195; byte_of 159] ++ wire [": 1"; ""])%list.

(** Scenario 6. *)
Definition wikipedia : bytes :=
  wire ["HTTP/1.1 200 OK"; "Transfer-Encoding: chunked"; "";
        "4"; "Wiki"; "5"; "pedia"; "0"; ""].

Definition wikipedia_message : HTTPMessage :=
  Eval vm_compute in
    match build_from wikipedia with
    | Ok m => m
    | _ => {| msg_headers := {| raw := []; start_line := []; headers := [] |};
              msg_body := {| body_raw := [] |} |}
    end.

(** Scenario 7: an origin that always answers with [wikipedia]. *)
Definition proxy : CachingProxyServer :=
  {| host := lit "127.0.0.1"; port := 8888;
     origin_url := lit "https://dummyjson.com/" |}.

Definition net : Network := fun _ _ _ => Some (fun _ => wikipedia).

Definition get_x : bytes := wire ["GET /x HTTP/1.1"; "Host: localhost"; ""].

Definition get_x_mixed_case : bytes :=
  wire ["gEt /x HTTP/1.1"; "Host: localhost"; ""].

Definition post_x : bytes :=
  (wire ["POST /x HTTP/1.1"; "Host: localhost"; "Content-Length: 3"; ""]
   ++ blit "abc")%list.

Definition no_message : HTTPMessage :=
  {| msg_headers := {| raw := []; start_line := []; headers := [] |};
     msg_body := {| body_raw := [] |} |}.

Definition post_request : HTTPMessage :=
  Eval vm_compute in
    match build_from post_x with Ok m => m | _ => no_message end.

Definition mixed_case_request : HTTPMessage :=
  Eval vm_compute in
    match build_from get_x_mixed_case with Ok m => m | _ => no_message end.

Definition empty_world : World :=
  start (Cache.new cachable 10 (lit "lru") 10).

End Examples.

(** ** Command-line options (caching_proxy/argument_parser.py) and the cache
    that main.py builds from them *)

Module Args.
Import Text.

(** What a [type=] callable does with the text of an option: it returns a
    value, raises [argparse.ArgumentTypeError], or raises what [int] raised. *)
Inductive outcome (A : Type) : Type :=
| Returns (a : A)
| RaisesArgumentTypeError
| Raises (e : exn)
| Unanswered.

Arguments Returns {A} a.
Arguments RaisesArgumentTypeError {A}.
Arguments Raises {A} e.
Arguments Unanswered {A}.

Definition discard_negative_int (argument : str) : outcome Z :=
  match int_of_str argument with
  | Ok ivalue =>
      if (ivalue <? 0)%Z then RaisesArgumentTypeError else Returns ivalue
  | Raise e => Raises e
  | Beyond => Unanswered
  end.

Definition discard_zero (argument : str) : outcome Z :=
  match int_of_str argument with
  | Ok ivalue =>
      if (ivalue =? 0)%Z then RaisesArgumentTypeError else Returns ivalue
  | Raise e => Raises e
  | Beyond => Unanswered
  end.

(** [type=int] *)
Definition int_type (argument : str) : outcome Z :=
  match int_of_str argument with
  | Ok ivalue => Returns ivalue
  | Raise e => Raises e
  | Beyond => Unanswered
  end.

(** The result of [parser.parse_args()]. *)
Record Namespace : Type := {
  host : str;
  port : Z;
  origin : str;
  cache_size_limit : Z;
  cache_clean_interval : Z;
  eviction_policy : str;
  hit_ttl : Z
}.

(** [argparse] hands the text of an option that is given to its [type] and
    takes a [default] that is not a string as it is; when the conversion
    raises, or the text is not among the [choices], the program ends with an
    error message ([None]).  The embedding starts from the texts of the
    options, after the command line was split into them. *)
Definition convert {A} (type : str -> outcome A) (default : A)
    (text : option str) : option A :=
  match text with
  | None => Some default
  | Some t => match type t with Returns a => Some a | _ => None end
  end.

Definition choose (choices : list str) (default : str) (text : option str)
  : option str :=
  match text with
  | None => Some default
  | Some t => if existsb (str_eqb t) choices then Some t else None
  end.

Definition set_up_arguments (host port origin : str)
    (cache_size_limit cache_clean_interval eviction_policy hit_ttl : option str)
  : option Namespace :=
  match convert int_type 0%Z (Some port),
        convert discard_negative_int 10%Z cache_size_limit,
        convert discard_negative_int 0%Z cache_clean_interval,
        choose [lit "entire"; lit "lru"; lit "none"] (lit "lru") eviction_policy,
        convert discard_zero 10%Z hit_ttl with
  | Some p, Some s, Some i, Some e, Some t =>
      Some {| host := host; port := p; origin := origin;
              cache_size_limit := s; cache_clean_interval := i;
              eviction_policy := e; hit_ttl := t |}
  | _, _, _, _, _ => None
  end.

(** [cache = InMemoryResponseCache(cache_size_limit, eviction_policy, hit_ttl)]
    in [main]. *)
Definition main_cache (V : Type) (args : Namespace)
  : Cache.InMemoryResponseCache V :=
  Cache.new V (cache_size_limit args) (eviction_policy args) (hit_ttl args).

(** [main] starts the periodic cleaner unless the interval is 0. *)
Definition cleaner_started (args : Namespace) : bool :=
  negb (cache_clean_interval args =? 0)%Z.

End Args.

(** ** Shapes of lines, addresses and streams *)

Module Shapes.
Import Text Http.
Local Open Scope N_scope.

(** The two tests of [_unfold_lines] on a line. *)
Definition is_blank (line : str) : bool :=
  match strip line with [] => true | _ :: _ => false end.

Definition is_continuation (line : str) : bool :=
  starts_with [32] line || starts_with [9] line.

(** The text holds two slashes in a row. *)
Fixpoint adjacent_slashes (s : str) : bool :=
  match s with
  | [] => false
  | c :: r =>
      match r with
      | d :: _ => ((c =? 47) && (d =? 47)) || adjacent_slashes r
      | [] => false
      end
  end.

(** A body in chunked transfer coding: each chunk is a size line, CR LF, the
    data and CR LF; then come the last size line, CR LF, one more line
    (empty when there are no trailers) and CR LF. *)
Definition chunked_stream (chunks : list (bytes * bytes))
    (last_line trailer rest : bytes) : bytes :=
  flat_map (fun chunk => fst chunk ++ CRLF ++ snd chunk ++ CRLF) chunks
  ++ last_line ++ CRLF ++ trailer ++ CRLF ++ rest.

(** A line of bytes that [readuntil(CRLF)] reads up to its end: without a
    line feed and within the limit of the stream. *)
Definition size_line_shape (line : bytes) : Prop :=
  Forall (fun b => b <> byte_of 10) line /\
  (N.of_nat (length line) <= DEFAULT_LIMIT).

End Shapes.

(** * Properties *)

Unset Implicit Arguments.

(** ** Strings and dictionaries *)

Lemma str_eqb_eq (a b : str) : str_eqb a b = true <-> a = b.
Proof.
  revert b; induction a as [|x a IH]; intros [|y b]; simpl; split;
    try congruence; try reflexivity.
  - intros H. apply andb_true_iff in H as [H1 H2].
    apply N.eqb_eq in H1. apply IH in H2. congruence.
  - intros H. injection H as -> ->.
    rewrite N.eqb_refl. simpl. now apply IH.
Qed.

Lemma str_eqb_refl (a : str) : str_eqb a a = true.
Proof. now apply str_eqb_eq. Qed.

Lemma str_eqb_neq (a b : str) : str_eqb a b = false <-> a <> b.
Proof.
  destruct (str_eqb a b) eqn:E; split; intros H; try congruence.
  - apply str_eqb_eq in E. contradiction.
  - intros ->. rewrite str_eqb_refl in E. discriminate.
Qed.

Lemma str_eqb_sym (a b : str) : str_eqb a b = str_eqb b a.
Proof.
  destruct (str_eqb b a) eqn:E.
  - apply str_eqb_eq in E. subst. apply str_eqb_refl.
  - apply str_eqb_neq. apply str_eqb_neq in E. congruence.
Qed.

Ltac str_cases k k' :=
  let E := fresh "E" in
  destruct (str_eqb k k') eqn:E;
  [apply str_eqb_eq in E; try subst | pose proof (proj1 (str_eqb_neq _ _) E)].

Section DictFacts.
Context {E : Type}.
Implicit Types (d : Dict.t E) (k : str) (e : E).

Lemma get_none_keys k d : Dict.get k d = None <-> ~ In k (Dict.keys d).
Proof.
  induction d as [|[k' e'] d IH]; simpl.
  - tauto.
  - str_cases k k'.
    + split; [discriminate | intros H; exfalso; apply H; now left].
    + rewrite IH. split; [intros Hn [Hk|Hk]; congruence | tauto].
Qed.

Lemma get_some_keys k d e : Dict.get k d = Some e -> In k (Dict.keys d).
Proof.
  intros H. destruct (in_dec (list_eq_dec N.eq_dec) k (Dict.keys d)) as [|n];
    [assumption|].
  apply get_none_keys in n. congruence.
Qed.

Lemma mem_true_keys k d : Dict.mem k d = true <-> In k (Dict.keys d).
Proof.
  unfold Dict.mem. destruct (Dict.get k d) eqn:G.
  - split; [intros _; eauto using get_some_keys | reflexivity].
  - split; [discriminate|]. intros H. apply get_none_keys in G. contradiction.
Qed.

Lemma mem_false_keys k d : Dict.mem k d = false <-> ~ In k (Dict.keys d).
Proof.
  rewrite <- mem_true_keys. destruct (Dict.mem k d); split; congruence.
Qed.

Lemma get_set_same k e d : Dict.get k (Dict.set k e d) = Some e.
Proof.
  induction d as [|[k' e'] d IH]; simpl.
  - now rewrite str_eqb_refl.
  - destruct (str_eqb k k') eqn:Ek; simpl; rewrite Ek; auto.
Qed.

Lemma get_set_other k k' e d :
  k' <> k -> Dict.get k' (Dict.set k e d) = Dict.get k' d.
Proof.
  intros Hn. induction d as [|[k0 e0] d IH]; simpl.
  - apply str_eqb_neq in Hn. now rewrite Hn.
  - destruct (str_eqb k k0) eqn:Ek; simpl.
    + apply str_eqb_eq in Ek. subst k0.
      apply str_eqb_neq in Hn. now rewrite Hn.
    + now rewrite IH.
Qed.

Lemma keys_set k e d :
  Dict.keys (Dict.set k e d) =
  if Dict.mem k d then Dict.keys d else Dict.keys d ++ [k].
Proof.
  unfold Dict.mem. induction d as [|[k' e'] d IH]; simpl; [reflexivity|].
  destruct (str_eqb k k') eqn:Ek; simpl; [reflexivity|].
  rewrite IH. now destruct (Dict.get k d).
Qed.

Lemma length_set k e d :
  length (Dict.set k e d) =
  if Dict.mem k d then length d else S (length d).
Proof.
  unfold Dict.mem. induction d as [|[k' e'] d IH]; simpl; [reflexivity|].
  destruct (str_eqb k k') eqn:Ek; simpl; [reflexivity|].
  rewrite IH. now destruct (Dict.get k d).
Qed.

Lemma keys_remove k d :
  Dict.wf d ->
  Dict.keys (Dict.remove k d) =
  filter (fun x => negb (str_eqb x k)) (Dict.keys d).
Proof.
  unfold Dict.wf. induction d as [|[k' e'] d IH]; simpl; intros Hnd;
    [reflexivity|].
  inversion Hnd as [|? ? Hni Hnd']; subst.
  rewrite (str_eqb_sym k' k).
  destruct (str_eqb k k') eqn:Ek; simpl.
  - apply str_eqb_eq in Ek. subst k'.
    symmetry. apply forallb_filter_id. apply forallb_forall.
    intros x Hx. apply negb_true_iff, str_eqb_neq. intros ->. contradiction.
  - now rewrite IH.
Qed.

Lemma length_remove k d :
  length (Dict.remove k d) =
  if Dict.mem k d then pred (length d) else length d.
Proof.
  unfold Dict.mem. induction d as [|[k' e'] d IH]; simpl; [reflexivity|].
  destruct (str_eqb k k') eqn:Ek; simpl; [reflexivity|].
  rewrite IH. destruct (Dict.get k d) eqn:G; [|reflexivity].
  destruct d; simpl in *; [discriminate | reflexivity].
Qed.

Lemma get_remove_other k k' d :
  k' <> k -> Dict.get k' (Dict.remove k d) = Dict.get k' d.
Proof.
  intros Hn. induction d as [|[k0 e0] d IH]; simpl; [reflexivity|].
  destruct (str_eqb k k0) eqn:Ek; simpl.
  - apply str_eqb_eq in Ek. subst k0.
    apply str_eqb_neq in Hn. now rewrite Hn.
  - now rewrite IH.
Qed.

Lemma get_remove_same k d :
  Dict.wf d -> Dict.get k (Dict.remove k d) = None.
Proof.
  intros Hwf. apply get_none_keys. rewrite keys_remove by assumption.
  rewrite filter_In, str_eqb_refl. simpl. intros [_ H]; discriminate.
Qed.

Lemma get_app k d d' :
  Dict.get k (d ++ d') =
  match Dict.get k d with Some e => Some e | None => Dict.get k d' end.
Proof.
  induction d as [|[k' e'] d IH]; simpl; [reflexivity|].
  now destruct (str_eqb k k').
Qed.

Lemma wf_remove k d : Dict.wf d -> Dict.wf (Dict.remove k d).
Proof.
  intros H. unfold Dict.wf. rewrite keys_remove by assumption.
  now apply NoDup_filter.
Qed.

Lemma wf_set k e d : Dict.wf d -> Dict.wf (Dict.set k e d).
Proof.
  intros H. unfold Dict.wf. rewrite keys_set.
  destruct (Dict.mem k d) eqn:Hm; [assumption|].
  apply mem_false_keys in Hm.
  apply NoDup_app; [assumption | repeat constructor; intros [] |].
  intros x Hx [<-|[]]. contradiction.
Qed.

Lemma wf_snoc k e d :
  Dict.wf d -> ~ In k (Dict.keys d) -> Dict.wf (d ++ [(k, e)]).
Proof.
  intros H Hn. unfold Dict.wf, Dict.keys. rewrite map_app. simpl.
  apply NoDup_app; [assumption | repeat constructor; intros [] |].
  intros x Hx [<-|[]]. contradiction.
Qed.

Lemma wf_tail x d : Dict.wf (x :: d) -> Dict.wf d.
Proof. unfold Dict.wf. simpl. now inversion 1. Qed.
End DictFacts.

(** ** The response cache *)

Section CacheFacts.
Import Cache.
Variable V : Type.
Implicit Types (c : InMemoryResponseCache V) (k key : str) (v : V).

Lemma remove_from_cache_present key c :
  Dict.mem key (_cache c) = true ->
  remove_from_cache key c =
  (Ok tt, with_cache c (Dict.remove key (_cache c))).
Proof.
  unfold remove_from_cache, Dict.pop, Dict.mem.
  destruct (Dict.get key (_cache c)); [reflexivity | discriminate].
Qed.

Lemma remove_from_cache_absent key c :
  Dict.mem key (_cache c) = false ->
  remove_from_cache key c = (Raise KeyError, c).
Proof.
  unfold remove_from_cache, Dict.pop, Dict.mem.
  destruct (Dict.get key (_cache c)); [discriminate | reflexivity].
Qed.

Lemma has_cached_response_live key c e :
  Dict.get key (_cache c) = Some e -> HIT_TTL e <> 0%Z ->
  has_cached_response key c = (Ok true, c).
Proof.
  intros G Hn. unfold has_cached_response. rewrite G.
  apply Z.eqb_neq in Hn. now rewrite Hn.
Qed.

Lemma has_cached_response_expired key c e :
  Dict.get key (_cache c) = Some e -> HIT_TTL e = 0%Z ->
  has_cached_response key c =
  (Ok false, with_cache c (Dict.remove key (_cache c))).
Proof.
  intros G Hz. unfold has_cached_response. rewrite G, Hz. simpl.
  unfold bind. rewrite remove_from_cache_present; [reflexivity|].
  unfold Dict.mem. now rewrite G.
Qed.

Lemma has_cached_response_absent key c :
  Dict.get key (_cache c) = None ->
  has_cached_response key c = (Ok false, c).
Proof. intros G. unfold has_cached_response. now rewrite G. Qed.

Lemma get_cached_response_present key c e :
  Dict.get key (_cache c) = Some e ->
  let e' := {| response := response e; HIT_TTL := HIT_TTL e - 1 |} in
  get_cached_response key c =
  (Ok (response e),
   with_cache c (Dict.remove key (Dict.set key e' (_cache c)) ++ [(key, e')])).
Proof.
  intros G. unfold get_cached_response. rewrite G. simpl.
  unfold Dict.move_to_end. now rewrite get_set_same.
Qed.

Lemma get_cached_response_absent key c :
  Dict.get key (_cache c) = None ->
  get_cached_response key c = (Raise KeyError, c).
Proof. intros G. unfold get_cached_response. now rewrite G. Qed.

(** What [get_cached_response] leaves in the store. *)
Lemma get_after_get_cached_response key c e k :
  Dict.wf (_cache c) ->
  Dict.get key (_cache c) = Some e ->
  Dict.get k (_cache (snd (get_cached_response key c))) =
  if str_eqb k key
  then Some {| response := response e; HIT_TTL := HIT_TTL e - 1 |}
  else Dict.get k (_cache c).
Proof.
  intros Hwf G. rewrite (get_cached_response_present _ _ _ G). simpl.
  rewrite get_app. str_cases k key.
  - rewrite get_remove_same by now apply wf_set.
    simpl. now rewrite str_eqb_refl.
  - rewrite get_remove_other, get_set_other by assumption.
    destruct (Dict.get k (_cache c)); [reflexivity|].
    simpl. now rewrite E.
Qed.

Lemma keys_after_get_cached_response key c e :
  Dict.wf (_cache c) ->
  Dict.get key (_cache c) = Some e ->
  keys_of (snd (get_cached_response key c)) =
  filter (fun x => negb (str_eqb x key)) (keys_of c) ++ [key].
Proof.
  intros Hwf G. rewrite (get_cached_response_present _ _ _ G). simpl.
  unfold keys_of, Dict.keys. simpl. rewrite map_app. simpl. f_equal.
  fold (Dict.keys (Dict.remove key
    (Dict.set key {| response := response e; HIT_TTL := HIT_TTL e - 1 |}
       (_cache c)))).
  rewrite keys_remove by now apply wf_set.
  rewrite keys_set. unfold Dict.mem. now rewrite G.
Qed.

Lemma wf_after_get_cached_response key c :
  Dict.wf (_cache c) -> Dict.wf (_cache (snd (get_cached_response key c))).
Proof.
  intros Hwf. destruct (Dict.get key (_cache c)) as [e|] eqn:G.
  - rewrite (get_cached_response_present _ _ _ G). simpl.
    apply wf_snoc; [now apply wf_remove, wf_set|].
    apply get_none_keys, get_remove_same. now apply wf_set.
  - now rewrite get_cached_response_absent.
Qed.

(** *** Eviction *)

Lemma evict_entire c :
  eviction_policy c = lit "entire" -> evict c = (Ok tt, with_cache c []).
Proof. intros H. unfold evict. now rewrite H. Qed.

Lemma evict_lru_empty c :
  eviction_policy c = lit "lru" -> _cache c = [] ->
  evict c = (Raise KeyError, c).
Proof. intros H H0. unfold evict. now rewrite H, H0. Qed.

Lemma evict_lru_cons c x d :
  eviction_policy c = lit "lru" -> _cache c = x :: d ->
  evict c = (Ok tt, with_cache c d).
Proof. intros H H0. unfold evict. rewrite H, H0. simpl. now destruct x. Qed.

Lemma evict_none c :
  eviction_policy c = lit "none" -> evict c = (Ok tt, c).
Proof. intros H. unfold evict. now rewrite H. Qed.

(** Eviction only ever raises on an empty store. *)
Lemma evict_nonempty c :
  _cache c <> [] -> exists c', evict c = (Ok tt, c') /\
    eviction_policy c' = eviction_policy c /\
    cache_size_limit c' = cache_size_limit c /\ hit_ttl c' = hit_ttl c /\
    (length (_cache c') <= length (_cache c))%nat.
Proof.
  intros Hne. unfold evict.
  destruct (str_eqb (eviction_policy c) (lit "entire")).
  { eexists; repeat split; simpl; lia. }
  destruct (str_eqb (eviction_policy c) (lit "lru")).
  { destruct (_cache c) as [|[k e] d] eqn:Hc; [congruence|]. simpl.
    eexists; repeat split; simpl; lia. }
  destruct (str_eqb (eviction_policy c) (lit "none"));
    eexists; repeat split; lia.
Qed.

Lemma cache_response_disabled key v c :
  cache_size_limit c = 0%Z -> cache_response key v c = (Ok tt, c).
Proof. intros H. unfold cache_response. now rewrite H. Qed.

Lemma cache_response_room key v c :
  cache_size_limit c <> 0%Z ->
  (get_cache_size c < cache_size_limit c)%Z ->
  cache_response key v c =
  (Ok tt, with_cache c
     (Dict.set key {| response := v; HIT_TTL := hit_ttl c |} (_cache c))).
Proof.
  intros H0 Hlt. unfold cache_response.
  apply Z.eqb_neq in H0. rewrite H0.
  assert ((get_cache_size c >=? cache_size_limit c)%Z = false) as ->
    by (rewrite Z.geb_leb; apply Z.leb_gt; lia).
  reflexivity.
Qed.

Lemma cache_response_full key v c c' :
  cache_size_limit c <> 0%Z ->
  (get_cache_size c >= cache_size_limit c)%Z ->
  evict c = (Ok tt, c') ->
  cache_response key v c =
  (Ok tt, with_cache c'
     (Dict.set key {| response := v; HIT_TTL := hit_ttl c' |} (_cache c'))).
Proof.
  intros H0 Hge He. unfold cache_response.
  apply Z.eqb_neq in H0. rewrite H0.
  assert ((get_cache_size c >=? cache_size_limit c)%Z = true) as ->
    by (rewrite Z.geb_leb; apply Z.leb_le; lia).
  unfold bind. now rewrite He.
Qed.

Lemma cache_response_full_raise key v c e c' :
  cache_size_limit c <> 0%Z ->
  (get_cache_size c >= cache_size_limit c)%Z ->
  evict c = (Raise e, c') ->
  cache_response key v c = (Raise e, c').
Proof.
  intros H0 Hge He. unfold cache_response.
  apply Z.eqb_neq in H0. rewrite H0.
  assert ((get_cache_size c >=? cache_size_limit c)%Z = true) as ->
    by (rewrite Z.geb_leb; apply Z.leb_le; lia).
  unfold bind. now rewrite He.
Qed.

(** With a size limit that passed validation, [cache_response] returns. *)
Lemma cache_response_returns key v c :
  (0 <= cache_size_limit c)%Z ->
  exists c', cache_response key v c = (Ok tt, c').
Proof.
  intros Hpos.
  destruct (Z.eq_dec (cache_size_limit c) 0) as [H0|H0].
  { eexists. now apply cache_response_disabled. }
  destruct (Z_lt_ge_dec (get_cache_size c) (cache_size_limit c)) as [Hlt|Hge].
  { eexists. now apply cache_response_room. }
  destruct (evict_nonempty c) as (c' & He & _).
  { unfold get_cache_size in Hge. destruct (_cache c); simpl in *;
      [lia | discriminate]. }
  eexists. eapply cache_response_full; eassumption.
Qed.

(** C1 (as the code has it): for every key present in the cache,
    [get_cached_response] returns the stored response and lowers the
    entry's remaining hit count by exactly 1, whatever its sign; a negative
    count stays negative, so [has_cached_response] keeps answering [True]
    for it.  The other entries and the configuration are untouched. *)
Theorem get_cached_response_decrements key c e :
  Dict.wf (_cache c) ->
  Dict.get key (_cache c) = Some e ->
  exists c',
    get_cached_response key c = (Ok (response e), c') /\
    Dict.get key (_cache c') =
      Some {| response := response e; HIT_TTL := HIT_TTL e - 1 |} /\
    (forall k, k <> key -> Dict.get k (_cache c') = Dict.get k (_cache c)) /\
    ((HIT_TTL e < 0)%Z -> has_cached_response key c' = (Ok true, c')) /\
    cache_size_limit c' = cache_size_limit c /\
    eviction_policy c' = eviction_policy c /\
    hit_ttl c' = hit_ttl c.
Proof.
  intros Hwf G.
  pose proof (get_after_get_cached_response key c e key Hwf G) as Hsame.
  rewrite str_eqb_refl in Hsame.
  exists (snd (get_cached_response key c)). split; [|split; [|split; [|split]]].
  - now rewrite (get_cached_response_present _ _ _ G).
  - exact Hsame.
  - intros k Hk. rewrite (get_after_get_cached_response key c e k Hwf G).
    apply str_eqb_neq in Hk. now rewrite Hk.
  - intros Hneg. eapply has_cached_response_live; [exact Hsame|]. simpl. lia.
  - rewrite (get_cached_response_present _ _ _ G). simpl. auto.
Qed.

(** C3: after [cache_response(k, v)] on a cache with [hit_ttl = n > 0] and
    a positive size limit, [n] rounds of a hit from [has_cached_response]
    followed by [get_cached_response] all succeed and return [v]; the next
    [has_cached_response(k)] answers [False], and it is that call which
    removes the entry from the store. *)
Theorem hit_ttl_exhaustion key v (n : nat) c :
  Dict.wf (_cache c) ->
  (0 < cache_size_limit c)%Z ->
  (0 < n)%nat ->
  hit_ttl c = Z.of_nat n ->
  exists c1 c2 c3,
    cache_response key v c = (Ok tt, c1) /\
    hits n key c1 = (Ok (repeat v n), c2) /\
    Dict.mem key (_cache c2) = true /\
    has_cached_response key c2 = (Ok false, c3) /\
    Dict.mem key (_cache c3) = false.
Proof.
  intros Hwf Hlim Hn Httl.
  assert (Hput : exists c1, cache_response key v c = (Ok tt, c1) /\
            Dict.wf (_cache c1) /\
            Dict.get key (_cache c1) =
              Some {| response := v; HIT_TTL := Z.of_nat n |}).
  { destruct (Z_lt_ge_dec (get_cache_size c) (cache_size_limit c)) as [Hlt|Hge].
    - eexists. split; [apply cache_response_room; lia|]. simpl.
      split; [now apply wf_set | now rewrite get_set_same, Httl].
    - assert (Hne : _cache c <> []).
      { unfold get_cache_size in Hge. destruct (_cache c); simpl in *;
          [lia | discriminate]. }
      assert (Hwf' : Dict.wf (_cache (snd (evict c)))).
      { unfold evict.
        destruct (str_eqb (eviction_policy c) (lit "entire"));
          [simpl; constructor|].
        destruct (str_eqb (eviction_policy c) (lit "lru")).
        - destruct (_cache c) as [|[k0 e0] d] eqn:Hc; [congruence|]. simpl.
          now apply wf_tail in Hwf.
        - now destruct (str_eqb (eviction_policy c) (lit "none")). }
      destruct (evict_nonempty c Hne) as (c' & He & _ & _ & Ht & _).
      rewrite He in Hwf'. simpl in Hwf'.
      eexists. split; [eapply cache_response_full; [lia | lia | exact He]|].
      simpl. split; [now apply wf_set | now rewrite get_set_same, Ht, Httl]. }
  destruct Hput as (c1 & Hc1 & Hwf1 & G1).
  assert (Hrun : forall m c', Dict.wf (_cache c') ->
            Dict.get key (_cache c') =
              Some {| response := v; HIT_TTL := Z.of_nat m |} ->
            exists c2, hits m key c' = (Ok (repeat v m), c2) /\
              Dict.wf (_cache c2) /\
              Dict.get key (_cache c2) =
                Some {| response := v; HIT_TTL := 0 |}).
  { induction m as [|m IH]; intros c' Hw G.
    - exists c'. simpl. auto.
    - pose proof (has_cached_response_live _ _ _ G) as Hhas.
      pose proof (get_cached_response_present _ _ _ G) as Hget.
      pose proof (get_after_get_cached_response key c' _ key Hw G) as Hafter.
      pose proof (wf_after_get_cached_response key c' Hw) as Hw'.
      rewrite str_eqb_refl in Hafter.
      cbn [response HIT_TTL] in Hafter, Hget.
      replace (Z.of_nat (S m) - 1)%Z with (Z.of_nat m) in Hafter by lia.
      destruct (IH _ Hw' Hafter) as (c2 & Hh & Hw2 & G2).
      exists c2. split; [|auto].
      cbn [hits repeat]. unfold bind at 1.
      rewrite Hhas by (cbn [HIT_TTL]; lia).
      unfold bind at 1.
      destruct (get_cached_response key c') as [r s] eqn:Hg.
      injection Hget as -> Hs. cbn [snd] in Hh.
      unfold bind at 1. rewrite Hh. reflexivity. }
  destruct (Hrun n c1 Hwf1 G1) as (c2 & Hh & Hw2 & G2).
  exists c1, c2, (with_cache c2 (Dict.remove key (_cache c2))).
  repeat split; try assumption.
  - unfold Dict.mem. now rewrite G2.
  - now apply (has_cached_response_expired _ _ _ G2).
  - simpl. unfold Dict.mem. now rewrite get_remove_same.
Qed.

(** C10: under policy "lru", [evict] removes the first item of the ordered
    map and raises [KeyError] on an empty store; that branch is not reached
    from the program: with a size limit accepted by the argument parser
    (not negative) [cache_response] returns for every store, and a round of
    the periodic cleaner returns for every store. *)
Theorem lru_evict_never_fails_in_program c :
  eviction_policy c = lit "lru" ->
  (_cache c = [] -> evict c = (Raise KeyError, c)) /\
  (forall x d, _cache c = x :: d -> evict c = (Ok tt, with_cache c d)) /\
  ((0 <= cache_size_limit c)%Z ->
     forall key v, exists c', cache_response key v c = (Ok tt, c')) /\
  (exists c', periodic_cache_cleaner_round c = (Ok tt, c')).
Proof.
  intros Hp. repeat split.
  - now apply evict_lru_empty.
  - intros x d. now apply evict_lru_cons.
  - intros Hpos key v. now apply cache_response_returns.
  - unfold periodic_cache_cleaner_round.
    destruct (get_cache_size c =? 0)%Z eqn:Hz; [eauto|].
    destruct (evict_nonempty c) as (c' & He & _); [|eauto].
    unfold get_cache_size in Hz. destruct (_cache c); [discriminate|congruence].
Qed.


(** *** The size of the store *)

Lemma step_config o c :
  cache_size_limit (step o c) = cache_size_limit c /\
  eviction_policy (step o c) = eviction_policy c /\
  hit_ttl (step o c) = hit_ttl c.
Proof.
  destruct o as [k v|k|k|k|]; cbn [step].
  - unfold cache_response.
    destruct (cache_size_limit c =? 0)%Z; [auto|].
    unfold bind.
    destruct (get_cache_size c >=? cache_size_limit c)%Z; [|simpl; auto].
    unfold evict.
    destruct (str_eqb (eviction_policy c) (lit "entire")); [simpl; auto|].
    destruct (str_eqb (eviction_policy c) (lit "lru")).
    + destruct (_cache c) as [|[k0 e0] d]; simpl; auto.
    + destruct (str_eqb (eviction_policy c) (lit "none")); simpl; auto.
  - destruct (Dict.get k (_cache c)) as [e|] eqn:G.
    + rewrite (get_cached_response_present _ _ _ G). simpl. auto.
    + rewrite get_cached_response_absent by assumption. auto.
  - destruct (Dict.get k (_cache c)) as [e|] eqn:G.
    + destruct (Z.eq_dec (HIT_TTL e) 0) as [Hz|Hz].
      * rewrite (has_cached_response_expired _ _ _ G Hz). simpl. auto.
      * rewrite (has_cached_response_live _ _ _ G Hz). auto.
    + rewrite has_cached_response_absent by assumption. auto.
  - destruct (Dict.mem k (_cache c)) eqn:Hm.
    + rewrite remove_from_cache_present by assumption. simpl. auto.
    + rewrite remove_from_cache_absent by assumption. auto.
  - unfold evict.
    destruct (str_eqb (eviction_policy c) (lit "entire")); [simpl; auto|].
    destruct (str_eqb (eviction_policy c) (lit "lru")).
    + destruct (_cache c) as [|[k0 e0] d]; simpl; auto.
    + destruct (str_eqb (eviction_policy c) (lit "none")); simpl; auto.
Qed.

Lemma run_config ops c :
  cache_size_limit (run ops c) = cache_size_limit c /\
  eviction_policy (run ops c) = eviction_policy c /\
  hit_ttl (run ops c) = hit_ttl c.
Proof.
  revert c. induction ops as [|o ops IH]; intros c; [simpl; auto|].
  cbn [run fold_left]. fold (run ops (step o c)).
  destruct (IH (step o c)) as (-> & -> & ->). apply step_config.
Qed.

Lemma run_snoc ops o c : run (ops ++ [o]) c = step o (run ops c).
Proof. unfold run. now rewrite fold_left_app. Qed.

Lemma evict_size c :
  (length (_cache (snd (evict c))) <= length (_cache c))%nat.
Proof.
  unfold evict.
  destruct (str_eqb (eviction_policy c) (lit "entire")); [simpl; lia|].
  destruct (str_eqb (eviction_policy c) (lit "lru")).
  - destruct (_cache c) as [|[k0 e0] d] eqn:Hc; simpl; rewrite ?Hc; simpl; lia.
  - destruct (str_eqb (eviction_policy c) (lit "none")); simpl; lia.
Qed.

(** Only [cache_response] can make the store grow. *)
Lemma step_size o c :
  (forall k v, o <> CacheResponse k v) ->
  (length (_cache (step o c)) <= length (_cache c))%nat.
Proof.
  intros Hno. destruct o as [k v|k|k|k|]; cbn [step].
  - now elim (Hno k v).
  - destruct (Dict.get k (_cache c)) as [e|] eqn:G.
    + rewrite (get_cached_response_present _ _ _ G). simpl.
      rewrite length_app, length_remove, length_set. simpl.
      assert (Hm : Dict.mem k (_cache c) = true)
        by (unfold Dict.mem; now rewrite G).
      assert (Hm' : Dict.mem k (Dict.set k
                 {| response := response e; HIT_TTL := HIT_TTL e - 1 |}
                 (_cache c)) = true)
        by (unfold Dict.mem; now rewrite get_set_same).
      rewrite Hm'. rewrite Hm.
      destruct (_cache c) as [|x d]; [discriminate|].
      cbn [length Nat.pred]. lia.
    + rewrite get_cached_response_absent by assumption. simpl. lia.
  - destruct (Dict.get k (_cache c)) as [e|] eqn:G.
    + destruct (Z.eq_dec (HIT_TTL e) 0) as [Hz|Hz].
      * rewrite (has_cached_response_expired _ _ _ G Hz). simpl.
        rewrite length_remove. destruct (Dict.mem k (_cache c)); lia.
      * rewrite (has_cached_response_live _ _ _ G Hz). simpl. lia.
    + rewrite has_cached_response_absent by assumption. simpl. lia.
  - destruct (Dict.mem k (_cache c)) eqn:Hm.
    + rewrite remove_from_cache_present by assumption. simpl.
      rewrite length_remove, Hm. lia.
    + rewrite remove_from_cache_absent by assumption. simpl. lia.
  - apply evict_size.
Qed.

Lemma cache_response_size_bounded key v c :
  eviction_policy c = lit "entire" \/ eviction_policy c = lit "lru" ->
  (0 <= cache_size_limit c)%Z ->
  (get_cache_size c <= cache_size_limit c)%Z ->
  (get_cache_size (snd (cache_response key v c)) <= cache_size_limit c)%Z.
Proof.
  intros Hp Hpos Hinv.
  destruct (Z.eq_dec (cache_size_limit c) 0) as [H0|H0].
  { now rewrite cache_response_disabled. }
  destruct (Z_lt_ge_dec (get_cache_size c) (cache_size_limit c)) as [Hlt|Hge].
  { rewrite cache_response_room by assumption. unfold get_cache_size in *.
    simpl. rewrite length_set. destruct (Dict.mem key (_cache c)); lia. }
  destruct Hp as [Hp|Hp].
  - rewrite (cache_response_full key v c _ H0 Hge (evict_entire c Hp)).
    unfold get_cache_size. simpl. lia.
  - destruct (_cache c) as [|x d] eqn:Hc.
    { unfold get_cache_size in Hge. rewrite Hc in Hge. simpl in Hge. lia. }
    rewrite (cache_response_full key v c _ H0 Hge (evict_lru_cons c x d Hp Hc)).
    unfold get_cache_size in *. rewrite Hc in *. simpl in *.
    rewrite length_set. destruct (Dict.mem key d); lia.
Qed.

Lemma run_size_bounded ops c :
  eviction_policy c = lit "entire" \/ eviction_policy c = lit "lru" ->
  (0 <= cache_size_limit c)%Z ->
  (get_cache_size c <= cache_size_limit c)%Z ->
  (get_cache_size (run ops c) <= cache_size_limit c)%Z.
Proof.
  revert c. induction ops as [|o ops IH]; intros c Hp Hpos Hinv;
    [assumption|].
  cbn [run fold_left]. fold (run ops (step o c)).
  destruct (step_config o c) as (Hl & Hpol & _).
  rewrite <- Hl. apply IH; rewrite ?Hl, ?Hpol; try assumption.
  destruct o as [k v|k|k|k|];
    [now apply cache_response_size_bounded | | | |];
    match goal with
    | |- (get_cache_size (step ?o c) <= _)%Z =>
        pose proof (step_size o c ltac:(discriminate)) as Hs;
        unfold get_cache_size in *; lia
    end.
Qed.

Lemma run_size_disabled ops c :
  cache_size_limit c = 0%Z -> _cache c = [] -> _cache (run ops c) = [].
Proof.
  revert c. induction ops as [|o ops IH]; intros c H0 He; [assumption|].
  cbn [run fold_left]. fold (run ops (step o c)).
  destruct (step_config o c) as (Hl & _).
  apply IH; [congruence|].
  destruct o as [k v|k|k|k|].
  - cbn [step]. now rewrite cache_response_disabled.
  - pose proof (step_size (GetCachedResponse k) c ltac:(discriminate)) as Hs.
    rewrite He in Hs. now destruct (_cache (step (GetCachedResponse k) c)).
  - pose proof (step_size (HasCachedResponse k) c ltac:(discriminate)) as Hs.
    rewrite He in Hs. now destruct (_cache (step (HasCachedResponse k) c)).
  - pose proof (step_size (RemoveFromCache k) c ltac:(discriminate)) as Hs.
    rewrite He in Hs. now destruct (_cache (step (RemoveFromCache k) c)).
  - pose proof (step_size Evict c ltac:(discriminate)) as Hs.
    rewrite He in Hs. now destruct (_cache (step Evict c)).
Qed.

Lemma cache_response_none key v c :
  eviction_policy c = lit "none" -> cache_size_limit c <> 0%Z ->
  cache_response key v c =
  (Ok tt, with_cache c
     (Dict.set key {| response := v; HIT_TTL := hit_ttl c |} (_cache c))).
Proof.
  intros Hp H0.
  destruct (Z_lt_ge_dec (get_cache_size c) (cache_size_limit c)) as [Hlt|Hge].
  - now apply cache_response_room.
  - now rewrite (cache_response_full key v c _ H0 Hge (evict_none c Hp)).
Qed.

Lemma fresh_key_inj i j : fresh_key i = fresh_key j -> i = j.
Proof.
  intros H. apply (f_equal (@length _)) in H.
  unfold fresh_key in H. now rewrite !repeat_length in H.
Qed.

Lemma fill_none_keys v n size_limit ttl :
  size_limit <> 0%Z ->
  keys_of (run (fill v n) (new V size_limit (lit "none") ttl)) =
  map fresh_key (seq 0 n).
Proof.
  intros H0. induction n as [|n IH]; [reflexivity|].
  unfold fill in *. rewrite seq_S, !map_app. simpl map.
  rewrite run_snoc. cbn [step].
  set (c := run _ _) in *.
  destruct (run_config (map (fun i => CacheResponse (fresh_key i) v) (seq 0 n))
              (new V size_limit (lit "none") ttl)) as (Hl & Hp & _).
  fold c in Hl, Hp. simpl in Hl, Hp.
  rewrite cache_response_none by congruence.
  unfold keys_of in *. simpl. rewrite keys_set.
  assert (Hm : Dict.mem (fresh_key n) (_cache c) = false).
  { apply mem_false_keys. rewrite IH. rewrite in_map_iff.
    intros (i & Hi & Hin). apply fresh_key_inj in Hi. subst i.
    apply in_seq in Hin. lia. }
  now rewrite Hm, IH.
Qed.

(** C2 (as the code has it): with a size limit that is not negative, every
    sequence of calls from the empty cache keeps the number of entries at
    most [size_limit] under "entire" and "lru".  Under "none" with a
    positive size limit [cache_response] of a key that is not stored adds
    an entry whatever the size, and every size is reached.  With
    [size_limit = 0] nothing is ever stored, under any policy. *)
Theorem store_size_bound (size_limit ttl : Z) (policy : str) :
  (0 <= size_limit)%Z ->
  (policy = lit "entire" \/ policy = lit "lru" ->
     forall ops,
       (get_cache_size (run ops (new V size_limit policy ttl)) <= size_limit)%Z)
  /\ (policy = lit "none" -> (0 < size_limit)%Z ->
        (forall c key v,
           eviction_policy c = policy -> cache_size_limit c = size_limit ->
           Dict.mem key (_cache c) = false ->
           get_cache_size (snd (cache_response key v c)) =
           (get_cache_size c + 1)%Z)
        /\ (forall v n,
              get_cache_size (run (fill v n) (new V size_limit policy ttl)) =
              Z.of_nat n))
  /\ (size_limit = 0%Z ->
        forall ops, get_cache_size (run ops (new V size_limit policy ttl)) = 0%Z).
Proof.
  intros Hpos. split; [|split].
  - intros Hp ops.
    apply (run_size_bounded ops (new V size_limit policy ttl)); simpl;
      [assumption | assumption | unfold get_cache_size; simpl; lia].
  - intros -> Hlim. split.
    + intros c key v Hp Hl Hm.
      rewrite cache_response_none by (try assumption; lia).
      unfold get_cache_size. simpl. rewrite length_set, Hm. lia.
    + intros v n.
      pose proof (fill_none_keys v n size_limit ttl ltac:(lia)) as Hk.
      apply (f_equal (@length _)) in Hk.
      unfold keys_of, Dict.keys in Hk.
      rewrite !length_map, length_seq in Hk.
      unfold get_cache_size. now rewrite Hk.
  - intros -> ops. unfold get_cache_size.
    now rewrite run_size_disabled.
Qed.

(** *** The order of the store *)

Lemma filter_both {A} (f g : A -> bool) l :
  filter f (filter g l) = filter (fun x => g x && f x) l.
Proof.
  induction l as [|x l IH]; [reflexivity|]. simpl.
  destruct (g x); simpl; [destruct (f x)|]; now rewrite IH.
Qed.

Lemma filter_absent (k : str) l :
  ~ In k l -> filter (fun x => negb (str_eqb x k)) l = l.
Proof.
  intros Hn. apply forallb_filter_id, forallb_forall.
  intros x Hx. apply negb_true_iff, str_eqb_neq. intros ->. contradiction.
Qed.

Lemma NoDup_touch k r : NoDup r -> NoDup (touch k r).
Proof.
  intros H. unfold touch.
  apply NoDup_app; [now apply NoDup_filter | repeat constructor; intros [] |].
  intros x Hx [<-|[]]. apply filter_In in Hx as [_ Hx].
  now rewrite str_eqb_refl in Hx.
Qed.

Lemma mem_remove {E} k x (d : Dict.t E) :
  Dict.wf d ->
  Dict.mem x (Dict.remove k d) = Dict.mem x d && negb (str_eqb x k).
Proof.
  intros Hwf. unfold Dict.mem. str_cases x k.
  - rewrite get_remove_same by assumption. now rewrite andb_false_r.
  - rewrite get_remove_other by assumption. now rewrite andb_true_r.
Qed.

Lemma mem_set {E} k (e : E) x d :
  Dict.mem x (Dict.set k e d) = Dict.mem x d || str_eqb x k.
Proof.
  unfold Dict.mem. str_cases x k.
  - rewrite get_set_same. now rewrite orb_true_r.
  - rewrite get_set_other by assumption. now rewrite orb_false_r.
Qed.

Lemma mem_snoc {E} k (e : E) x d :
  Dict.mem x (d ++ [(k, e)]) = Dict.mem x d || str_eqb x k.
Proof.
  unfold Dict.mem. rewrite get_app. destruct (Dict.get x d); [reflexivity|].
  simpl. now destruct (str_eqb x k).
Qed.

Lemma mem_tail {E} k (e : E) x d :
  Dict.wf ((k, e) :: d) ->
  Dict.mem x d = Dict.mem x ((k, e) :: d) && negb (str_eqb x k).
Proof.
  intros Hwf. unfold Dict.mem. simpl. str_cases x k.
  - inversion Hwf as [|? ? Hni _]; subst.
    apply get_none_keys in Hni. now rewrite Hni.
  - now rewrite andb_true_r.
Qed.

Lemma ordered_by_drop k r c c' :
  ordered_by r c -> Dict.wf (_cache c') ->
  keys_of c' = filter (fun x => negb (str_eqb x k)) (keys_of c) ->
  (forall x, Dict.mem x (_cache c') =
             Dict.mem x (_cache c) && negb (str_eqb x k)) ->
  ordered_by r c'.
Proof.
  intros (Hwf & Hnd & Hk) Hwf' Hk' Hm. repeat split; try assumption.
  rewrite Hk', Hk, filter_both. apply filter_ext. intros x. now rewrite Hm.
Qed.

Lemma ordered_by_touch k r c c' :
  ordered_by r c -> Dict.wf (_cache c') ->
  keys_of c' = filter (fun x => negb (str_eqb x k)) (keys_of c) ++ [k] ->
  (forall x, Dict.mem x (_cache c') = Dict.mem x (_cache c) || str_eqb x k) ->
  ordered_by (touch k r) c'.
Proof.
  intros (Hwf & Hnd & Hk) Hwf' Hk' Hm.
  repeat split; [assumption | now apply NoDup_touch |].
  rewrite Hk', Hk. unfold touch. rewrite filter_app, !filter_both. simpl.
  rewrite Hm, str_eqb_refl, orb_true_r. f_equal.
  apply filter_ext_in. intros x _. rewrite Hm.
  destruct (str_eqb x k); simpl;
    [now rewrite andb_false_r | now rewrite orb_false_r, andb_true_r].
Qed.

Lemma ordered_by_same r c c' :
  ordered_by r c -> keys_of c' = keys_of c ->
  (forall x, Dict.mem x (_cache c') = Dict.mem x (_cache c)) ->
  ordered_by r c'.
Proof.
  intros (Hwf & Hnd & Hk) Hk' Hm. repeat split; [|assumption|].
  - unfold Dict.wf. fold (keys_of c'). now rewrite Hk'.
  - rewrite Hk', Hk. apply filter_ext. intros x. now rewrite Hm.
Qed.

Lemma ordered_by_remove k r c :
  ordered_by r c ->
  ordered_by r (with_cache c (Dict.remove k (_cache c))).
Proof.
  intros H. pose proof H as (Hwf & _).
  apply (ordered_by_drop k r c); [assumption | now apply wf_remove | |].
  - unfold keys_of. simpl. now apply keys_remove.
  - intros x. simpl. now apply mem_remove.
Qed.

Lemma ordered_by_evict r c :
  ordered_by r c -> ordered_by r (snd (evict c)).
Proof.
  intros H. pose proof H as (Hwf & Hnd & Hk). unfold evict.
  destruct (str_eqb (eviction_policy c) (lit "entire")).
  { simpl. repeat split; [constructor | assumption |].
    unfold keys_of. simpl. symmetry.
    generalize r. intros l. induction l; simpl; auto. }
  destruct (str_eqb (eviction_policy c) (lit "lru")).
  - destruct (_cache c) as [|[k0 e0] d] eqn:Hc; simpl; [assumption|].
    apply (ordered_by_drop k0 r c); simpl; try assumption.
    + now apply wf_tail in Hwf.
    + unfold keys_of. rewrite Hc. simpl. rewrite str_eqb_refl. simpl.
      symmetry. apply filter_absent. now inversion Hwf.
    + intros x. rewrite Hc. now apply mem_tail.
  - now destruct (str_eqb (eviction_policy c) (lit "none")).
Qed.

Lemma ordered_by_store k v r c :
  ordered_by r c ->
  ordered_by (if Dict.mem k (_cache c) then r else touch k r)
    (with_cache c
       (Dict.set k {| response := v; HIT_TTL := hit_ttl c |} (_cache c))).
Proof.
  intros H. pose proof H as (Hwf & Hnd & Hk).
  destruct (Dict.mem k (_cache c)) eqn:Hm.
  - apply (ordered_by_same r c); [assumption | |].
    + unfold keys_of. simpl. now rewrite keys_set, Hm.
    + intros x. simpl. rewrite mem_set. str_cases x k.
      * now rewrite Hm.
      * now rewrite orb_false_r.
  - apply (ordered_by_touch k r c); [assumption | now apply wf_set | |].
    + unfold keys_of. simpl. rewrite keys_set, Hm.
      rewrite filter_absent; [reflexivity | now apply mem_false_keys].
    + intros x. simpl. apply mem_set.
Qed.

Lemma ordered_by_step o r c :
  ordered_by r c ->
  ordered_by (match use_read_insert o c with Some k => touch k r | None => r end)
    (step o c).
Proof.
  intros H. pose proof H as (Hwf & Hnd & Hk).
  destruct o as [k v|k|k|k|]; cbn [step use_read_insert].
  - unfold cache_response.
    destruct (cache_size_limit c =? 0)%Z; [assumption|].
    unfold bind.
    destruct (get_cache_size c >=? cache_size_limit c)%Z.
    + pose proof (ordered_by_evict r c H) as He.
      destruct (evict c) as [[[]|e|] c1]; cbn [snd] in *; try assumption.
      pose proof (ordered_by_store k v r c1 He) as Hs.
      now destruct (Dict.mem k (_cache c1)).
    + unfold ret.
      pose proof (ordered_by_store k v r c H) as Hs.
      now destruct (Dict.mem k (_cache c)).
  - unfold Dict.mem. destruct (Dict.get k (_cache c)) as [e|] eqn:G.
    + apply (ordered_by_touch k r c); try assumption.
      * now apply wf_after_get_cached_response.
      * now apply (keys_after_get_cached_response k c e).
      * intros x. unfold Dict.mem.
        rewrite (get_after_get_cached_response k c e x Hwf G).
        str_cases x k; [now rewrite orb_true_r | now rewrite orb_false_r].
    + now rewrite get_cached_response_absent.
  - destruct (Dict.get k (_cache c)) as [e|] eqn:G.
    + destruct (Z.eq_dec (HIT_TTL e) 0) as [Hz|Hz].
      * rewrite (has_cached_response_expired _ _ _ G Hz). simpl.
        now apply ordered_by_remove.
      * now rewrite (has_cached_response_live _ _ _ G Hz).
    + now rewrite has_cached_response_absent.
  - destruct (Dict.mem k (_cache c)) eqn:Hm.
    + rewrite remove_from_cache_present by assumption. simpl.
      now apply ordered_by_remove.
    + now rewrite remove_from_cache_absent.
  - now apply ordered_by_evict.
Qed.

Lemma ordered_by_run ops r c :
  ordered_by r c -> ordered_by (recency use_read_insert ops c r) (run ops c).
Proof.
  revert r c. induction ops as [|o ops IH]; intros r c H; [assumption|].
  cbn [run fold_left recency]. fold (run ops (step o c)).
  apply IH. now apply ordered_by_step.
Qed.

Lemma keys_stored ttl (kvs : list (str * V)) :
  Dict.keys (map (stored ttl) kvs) = map fst kvs.
Proof. unfold Dict.keys. rewrite map_map. reflexivity. Qed.

(** Storing pairwise different keys into an empty cache that has room for
    them lists them in the order of the calls. *)
Lemma puts_fill kvs size_limit policy ttl :
  NoDup (map fst kvs) ->
  (Z.of_nat (length kvs) <= size_limit)%Z ->
  _cache (run (puts kvs) (new V size_limit policy ttl)) = map (stored ttl) kvs.
Proof.
  induction kvs as [|[k v] kvs IH] using rev_ind; intros Hnd Hlen;
    [reflexivity|].
  rewrite map_app in Hnd. simpl in Hnd.
  rewrite length_app in Hlen. simpl in Hlen.
  apply NoDup_remove in Hnd as [Hnd Hni]. rewrite app_nil_r in Hnd, Hni.
  unfold puts. rewrite map_app. simpl map. rewrite run_snoc.
  fold (puts kvs). cbn [step].
  destruct (run_config (puts kvs) (new V size_limit policy ttl))
    as (Hl & Hp & Ht).
  specialize (IH Hnd ltac:(lia)).
  set (c := run (puts kvs) (new V size_limit policy ttl)) in *.
  simpl in Hl, Hp, Ht.
  rewrite cache_response_room.
  - simpl. rewrite IH, Ht. clear - Hni.
    induction kvs as [|[k' v'] kvs IHk]; simpl; [reflexivity|].
    simpl in Hni. str_cases k k'; [tauto|].
    unfold stored at 1. simpl. f_equal. apply IHk. tauto.
  - lia.
  - unfold get_cache_size. rewrite IH, length_map. lia.
Qed.

(** C4 (as the code has it), first the recency law: fill an "lru" cache of
    size N >= 2 with N pairwise different keys, read [k1], then store a new
    key: [k2] is evicted, [k1] stays.  Then the order in general: after every
    sequence of calls from the empty cache the store lists its keys from the
    least recently used to the most recently used, where a use of a key is a
    [get_cached_response] that finds it or a [cache_response] that stores it
    while it is not in the store ([cache_response] on a key that is stored
    keeps its place). *)
Theorem lru_order (ttl : Z) :
  (forall k1 v1 k2 v2 rest k_new v_new,
     NoDup (k1 :: k2 :: map fst rest) ->
     ~ In k_new (k1 :: k2 :: map fst rest) ->
     let kvs := (k1, v1) :: (k2, v2) :: rest in
     let c1 := run (puts kvs)
                 (new V (Z.of_nat (length kvs)) (lit "lru") ttl) in
     exists c2 c3,
       keys_of c1 = k1 :: k2 :: map fst rest /\
       get_cached_response k1 c1 = (Ok v1, c2) /\
       keys_of c2 = k2 :: map fst rest ++ [k1] /\
       cache_response k_new v_new c2 = (Ok tt, c3) /\
       keys_of c3 = map fst rest ++ [k1; k_new])
  /\ (forall size_limit ops,
        let c0 := new V size_limit (lit "lru") ttl in
        keys_of (run ops c0) = by_recency use_read_insert ops c0).
Proof.
  split.
  - intros k1 v1 k2 v2 rest k_new v_new Hnd Hnew kvs c1.
    assert (Hc1 : _cache c1 = map (stored ttl) kvs).
    { apply puts_fill; [exact Hnd | lia]. }
    destruct (run_config (puts kvs)
                (new V (Z.of_nat (length kvs)) (lit "lru") ttl))
      as (Hl & Hp & Ht).
    fold c1 in Hl, Hp, Ht. simpl in Hl, Hp, Ht.
    pose proof (proj1 (proj1 (NoDup_cons_iff _ _) Hnd)) as Hni.
    assert (Hk12 : k2 <> k1).
    { intros ->. apply Hni. now left. }
    assert (G : Dict.get k1 (_cache c1) =
                Some {| response := v1; HIT_TTL := ttl |}).
    { rewrite Hc1. simpl. now rewrite str_eqb_refl. }
    pose proof (get_cached_response_present k1 c1 _ G) as Hget.
    cbn [response HIT_TTL] in Hget.
    set (e1 := {| response := v1; HIT_TTL := ttl - 1 |}) in *.
    assert (Hd2 : Dict.remove k1 (Dict.set k1 e1 (_cache c1)) ++ [(k1, e1)] =
                  stored ttl (k2, v2) :: map (stored ttl) rest ++ [(k1, e1)]).
    { rewrite Hc1. simpl. rewrite str_eqb_refl. simpl.
      now rewrite str_eqb_refl. }
    rewrite Hd2 in Hget.
    set (c2 := with_cache c1 _) in Hget.
    assert (He : evict c2 =
                 (Ok tt, with_cache c2 (map (stored ttl) rest ++ [(k1, e1)]))).
    { apply (evict_lru_cons c2 (stored ttl (k2, v2))); [exact Hp | reflexivity]. }
    pose proof (cache_response_full k_new v_new c2 _
                  ltac:(simpl; rewrite Hl; simpl; lia)
                  ltac:(unfold get_cache_size; simpl;
                        rewrite Hl, length_app, length_map; simpl; lia)
                  He) as Hput.
    eexists c2, _. repeat split.
    + unfold keys_of. rewrite Hc1. now rewrite keys_stored.
    + exact Hget.
    + unfold keys_of. simpl. unfold Dict.keys.
      rewrite map_app, map_map. reflexivity.
    + exact Hput.
    + unfold keys_of. simpl. rewrite keys_set.
      assert (Hm : Dict.mem k_new (map (stored ttl) rest ++ [(k1, e1)]) = false).
      { apply mem_false_keys. unfold Dict.keys.
        rewrite map_app, map_map. simpl. rewrite in_app_iff.
        intros [Hin|[Hin|[]]]; apply Hnew; simpl; auto. }
      rewrite Hm. unfold Dict.keys. rewrite map_app, map_map. simpl.
      now rewrite <- app_assoc.
  - intros size_limit ops c0.
    assert (H0 : ordered_by [] c0).
    { repeat split; constructor. }
    destruct (ordered_by_run ops [] c0 H0) as (_ & _ & Hk).
    exact Hk.
Qed.
End CacheFacts.

(** *** The cache on concrete inputs *)

Ltac distinct_keys :=
  repeat (apply NoDup_cons;
          [ let H := fresh in
            intros H; vm_compute in H;
            repeat (destruct H as [H|H]; [discriminate H|]); exact H
          | ]);
  apply NoDup_nil.

Ltac not_among :=
  let H := fresh in
  intros H; vm_compute in H;
  repeat (destruct H as [H|H]; [discriminate H|]); exact H.

(** Scenario 1 of the specification. *)
Example scenario_lru :
  let c := Cache.run
             [Cache.CacheResponse (lit "A") 1; Cache.CacheResponse (lit "B") 2;
              Cache.CacheResponse (lit "C") 3; Cache.CacheResponse (lit "D") 4]
             (Cache.new nat 3 (lit "lru") 10) in
  Cache.keys_of c = [lit "B"; lit "C"; lit "D"] /\
  Cache.keys_of (Cache.step (Cache.GetCachedResponse (lit "B")) c) =
    [lit "C"; lit "D"; lit "B"] /\
  Cache.keys_of
    (Cache.run [Cache.GetCachedResponse (lit "B");
                Cache.CacheResponse (lit "E") 5] c) =
    [lit "D"; lit "B"; lit "E"].
Proof. vm_compute. auto. Qed.

(** Scenario 2. *)
Example scenario_entire :
  Cache.keys_of
    (Cache.run
       [Cache.CacheResponse (lit "A") 1; Cache.CacheResponse (lit "B") 2;
        Cache.CacheResponse (lit "C") 3]
       (Cache.new nat 2 (lit "entire") 10)) = [lit "C"].
Proof. reflexivity. Qed.

(** Scenario 3. *)
Example scenario_disabled :
  let c := Cache.step (Cache.CacheResponse (lit "A") 1)
             (Cache.new nat 0 (lit "lru") 10) in
  fst (Cache.has_cached_response (lit "A") c) = Ok false /\
  Cache.get_cache_size c = 0%Z.
Proof. vm_compute. auto. Qed.

(** Scenario 4. *)
Example scenario_ttl :
  let c := Cache.step (Cache.CacheResponse (lit "K") 7)
             (Cache.new nat 10 (lit "lru") 2) in
  exists c', Cache.hits 2 (lit "K") c = (Ok [7; 7], c') /\
             fst (Cache.has_cached_response (lit "K") c') = Ok false.
Proof. eexists. vm_compute. auto. Qed.

Lemma get_cached_response_decrements_witness :
  let c := Cache.step (Cache.CacheResponse (lit "K") 7)
             (Cache.new nat 10 (lit "lru") 3) in
  exists c',
    Cache.get_cached_response (lit "K") c = (Ok 7, c') /\
    Dict.get (lit "K") (Cache._cache c') =
      Some {| Cache.response := 7; Cache.HIT_TTL := 3 - 1 |}.
Proof.
  intros c.
  destruct (get_cached_response_decrements nat (lit "K") c
              {| Cache.response := 7; Cache.HIT_TTL := 3 |})
    as (c' & H1 & H2 & _).
  - distinct_keys.
  - reflexivity.
  - exists c'. split; [exact H1 | exact H2].
Defined.

(** C1 as stated fails: with the unlimited sentinel as hit count, the count
    is decremented all the same (from -1 to -2). *)
Lemma get_cached_response_decrements_sentinel :
  let c := Cache.step (Cache.CacheResponse (lit "K") 7)
             (Cache.new nat 10 (lit "lru") (-1)) in
  Dict.get (lit "K") (Cache._cache c) =
    Some {| Cache.response := 7; Cache.HIT_TTL := -1 |} /\
  Dict.get (lit "K")
    (Cache._cache (snd (Cache.get_cached_response (lit "K") c))) =
    Some {| Cache.response := 7; Cache.HIT_TTL := -2 |} /\
  Dict.get (lit "K")
    (Cache._cache (snd (Cache.get_cached_response (lit "K") c))) <>
    Some {| Cache.response := 7; Cache.HIT_TTL := -1 |}.
Proof. vm_compute. repeat split; discriminate. Qed.

Lemma store_size_bound_witness :
  Z.le
    (Cache.get_cache_size
       (Cache.run
          [Cache.CacheResponse (lit "A") 1; Cache.CacheResponse (lit "B") 2;
           Cache.CacheResponse (lit "C") 3; Cache.GetCachedResponse (lit "B")]
          (Cache.new nat 2 (lit "lru") 10))) 2 /\
  Cache.get_cache_size
    (Cache.run (Cache.fill 1 5) (Cache.new nat 2 (lit "none") 10)) = 5%Z.
Proof.
  destruct (store_size_bound nat 2 10 (lit "lru") ltac:(lia)) as (H1 & _).
  destruct (store_size_bound nat 2 10 (lit "none") ltac:(lia)) as (_ & H2 & _).
  split.
  - apply H1. right. reflexivity.
  - apply (proj2 (H2 eq_refl ltac:(lia)) 1 5%nat).
Defined.

(** C2 as stated fails for policy "none" with [size_limit = 0]: the empty
    cache is at capacity, and [cache_response] does not insert. *)
Lemma none_policy_bounded_when_disabled :
  let c := Cache.new nat 0 (lit "none") 10 in
  (Cache.get_cache_size c >=? Cache.cache_size_limit c)%Z = true /\
  Cache.cache_response (lit "A") 1 c = (Ok tt, c) /\
  Cache.get_cache_size
    (Cache.run [Cache.CacheResponse (lit "A") 1;
                Cache.CacheResponse (lit "B") 2] c) = 0%Z.
Proof. vm_compute. auto. Qed.

Lemma hit_ttl_exhaustion_witness :
  exists c1 c2 c3,
    Cache.cache_response (lit "K") 7 (Cache.new nat 10 (lit "lru") 2) =
      (Ok tt, c1) /\
    Cache.hits 2 (lit "K") c1 = (Ok [7; 7], c2) /\
    Dict.mem (lit "K") (Cache._cache c2) = true /\
    Cache.has_cached_response (lit "K") c2 = (Ok false, c3) /\
    Dict.mem (lit "K") (Cache._cache c3) = false.
Proof.
  apply (hit_ttl_exhaustion nat (lit "K") 7 2 (Cache.new nat 10 (lit "lru") 2)).
  - apply NoDup_nil.
  - simpl. lia.
  - lia.
  - reflexivity.
Defined.

Lemma lru_order_witness :
  let c1 := Cache.run
              (Cache.puts [(lit "A", 1); (lit "B", 2); (lit "C", 3)])
              (Cache.new nat 3 (lit "lru") 10) in
  exists c2 c3,
    Cache.keys_of c1 = [lit "A"; lit "B"; lit "C"] /\
    Cache.get_cached_response (lit "A") c1 = (Ok 1, c2) /\
    Cache.keys_of c2 = [lit "B"; lit "C"; lit "A"] /\
    Cache.cache_response (lit "D") 4 c2 = (Ok tt, c3) /\
    Cache.keys_of c3 = [lit "C"; lit "A"; lit "D"].
Proof.
  apply (proj1 (lru_order nat 10)
           (lit "A") 1 (lit "B") 2 [(lit "C", 3)] (lit "D") 4).
  - distinct_keys.
  - not_among.
Defined.

(** C4 as stated fails.  Reading "use" as a read: after put A, get A, put B
    the only key ever read is A, and it is listed first, not last.  Reading
    it as any read or write: after put A, put B, put A the key used last is
    A, and it is listed first. *)
Lemma lru_order_not_by_last_read :
  let c0 := Cache.new nat 3 (lit "lru") 10 in
  let ops1 := [Cache.CacheResponse (lit "A") 1; Cache.GetCachedResponse (lit "A");
               Cache.CacheResponse (lit "B") 2] in
  let ops2 := [Cache.CacheResponse (lit "A") 1; Cache.CacheResponse (lit "B") 2;
               Cache.CacheResponse (lit "A") 3] in
  (Cache.recency Cache.use_read ops1 c0 [] = [lit "A"] /\
   Cache.keys_of (Cache.run ops1 c0) = [lit "A"; lit "B"]) /\
  (Cache.recency Cache.use_read_write ops2 c0 [] = [lit "B"; lit "A"] /\
   Cache.keys_of (Cache.run ops2 c0) = [lit "A"; lit "B"] /\
   Cache.keys_of (Cache.run ops2 c0) <>
     Cache.by_recency Cache.use_read_write ops2 c0).
Proof. vm_compute. repeat split; discriminate. Qed.

Lemma lru_evict_never_fails_in_program_witness :
  let c := Cache.new nat 1 (lit "lru") 10 in
  Cache.evict c = (Raise KeyError, c) /\
  (exists c', Cache.cache_response (lit "A") 1 c = (Ok tt, c')) /\
  (exists c', Cache.periodic_cache_cleaner_round c = (Ok tt, c')).
Proof.
  intros c.
  destruct (lru_evict_never_fails_in_program nat c eq_refl)
    as (H1 & _ & H3 & H4).
  split; [apply H1; reflexivity|].
  split; [apply H3; simpl; lia | exact H4].
Defined.

(** ** The header set and the message builder *)

Section HeaderFacts.
Import Text Http.
Local Open Scope N_scope.

Lemma normalize_TE : _normalize_header TE = TE.
Proof. reflexivity. Qed.

Lemma normalize_CL : _normalize_header CL = CL.
Proof. reflexivity. Qed.

Lemma TE_neq_CL : TE <> CL.
Proof. discriminate. Qed.

Lemma update_raw_bytes_ok h h' :
  _update_raw_bytes h = Ok h' ->
  headers h' = headers h /\ start_line h' = start_line h /\
  encode_all (header_lines h') = Some (raw h').
Proof.
  unfold _update_raw_bytes.
  destruct (encode_all (header_lines h)) as [b|] eqn:Hb; [|discriminate].
  intros H. injection H as <-. simpl. unfold header_lines in *. simpl. auto.
Qed.

Lemma update_raw_bytes_no_raise h e : _update_raw_bytes h <> Raise e.
Proof.
  unfold _update_raw_bytes. destruct (encode_all _); discriminate.
Qed.

Lemma delete_ok h name h' b :
  delete h name = Ok (h', b) ->
  (b = true /\ headers h' = Dict.remove (_normalize_header name) (headers h) /\
   start_line h' = start_line h /\
   encode_all (header_lines h') = Some (raw h'))
  \/ (b = false /\ h' = h /\
      Dict.get (_normalize_header name) (headers h) = None).
Proof.
  unfold delete, Dict.pop.
  destruct (Dict.get (_normalize_header name) (headers h)) eqn:G.
  - destruct (_update_raw_bytes _) as [h1| |] eqn:U; try discriminate.
    intros H. injection H as <- <-. left.
    apply update_raw_bytes_ok in U as (U1 & U2 & U3). simpl in *. auto.
  - intros H. injection H as <- <-. right. auto.
Qed.

Lemma replace_ok h name values h' b :
  replace h name values = Ok (h', b) ->
  (b = true /\
   headers h' = Dict.set (_normalize_header name) values (headers h) /\
   Dict.mem (_normalize_header name) (headers h) = true /\
   start_line h' = start_line h /\
   encode_all (header_lines h') = Some (raw h'))
  \/ (b = false /\ h' = h /\
      Dict.get (_normalize_header name) (headers h) = None).
Proof.
  unfold replace, Dict.mem.
  destruct (Dict.get (_normalize_header name) (headers h)) eqn:G.
  - destruct (_update_raw_bytes _) as [h1| |] eqn:U; try discriminate.
    intros H. injection H as <- <-. left.
    apply update_raw_bytes_ok in U as (U1 & U2 & U3). simpl in *. auto.
  - intros H. injection H as <- <-. right. auto.
Qed.

Lemma insert_ok h name values h' :
  insert h name values = Ok h' ->
  headers h' =
    Dict.set (_normalize_header name)
      (match Dict.get (_normalize_header name) (headers h) with
       | Some old => old ++ values
       | None => values
       end) (headers h) /\
  start_line h' = start_line h /\
  encode_all (header_lines h') = Some (raw h').
Proof.
  unfold insert.
  destruct (Dict.get (_normalize_header name) (headers h)) eqn:G; intros U;
    apply update_raw_bytes_ok in U as (U1 & U2 & U3); simpl in *; auto.
Qed.

(** What [_dechunk_body] does to a header set that has a Transfer-Encoding
    header: that header goes, and Content-Length is set to the size of the
    body, in its old place when it was present and at the end otherwise. *)
Lemma dechunk_body_ok h body h' :
  Dict.wf (headers h) ->
  truthy (get_header h TE) = true ->
  _dechunk_body h body = Ok h' ->
  headers h' =
    Dict.set CL [str_of_N (size body)] (Dict.remove TE (headers h)) /\
  start_line h' = start_line h /\
  encode_all (header_lines h') = Some (raw h').
Proof.
  intros Hwf Ht. unfold _dechunk_body. fold TE CL. rewrite Ht.
  destruct (delete h TE) as [[h1 b]| |] eqn:D; try discriminate.
  apply delete_ok in D. rewrite normalize_TE in D.
  destruct D as [(-> & D1 & D2 & D3)|(-> & -> & G)].
  2:{ unfold get_header in Ht. rewrite normalize_TE, G in Ht. discriminate. }
  unfold get_header. rewrite normalize_CL, D1.
  destruct (truthy (Dict.get CL (Dict.remove TE (headers h)))) eqn:Hc.
  - destruct (replace h1 CL _) as [[h2 b]| |] eqn:R; try discriminate.
    intros H. injection H as <-.
    apply replace_ok in R. rewrite normalize_CL in R.
    destruct R as [(-> & R1 & _ & R2 & R3)|(-> & -> & G)].
    + rewrite R1, D1, R2, D2. auto.
    + rewrite D1 in G. rewrite G in Hc. discriminate.
  - intros I. apply insert_ok in I. rewrite normalize_CL, D1 in I.
    destruct I as (I1 & I2 & I3). rewrite I1, I2, D2.
    repeat split; try assumption.
    destruct (Dict.get CL (Dict.remove TE (headers h))) as [[|v vs]|];
      [reflexivity | discriminate | reflexivity].
Qed.

Lemma dechunked_headers d (v : list str) :
  Dict.wf d ->
  Dict.get TE (Dict.set CL v (Dict.remove TE d)) = None /\
  Dict.get CL (Dict.set CL v (Dict.remove TE d)) = Some v /\
  Dict.keys (Dict.set CL v (Dict.remove TE d)) =
    (if Dict.mem CL d
     then filter (fun x => negb (str_eqb x TE)) (Dict.keys d)
     else filter (fun x => negb (str_eqb x TE)) (Dict.keys d) ++ [CL]).
Proof.
  intros Hwf. split; [|split].
  - rewrite get_set_other by exact TE_neq_CL. now apply get_remove_same.
  - apply get_set_same.
  - rewrite keys_set, mem_remove, keys_remove by assumption.
    assert (str_eqb CL TE = false) as -> by reflexivity.
    now rewrite andb_true_r.
Qed.

(** *** Parsed header sets have pairwise different names *)

Lemma wf_setdefault_append name value (d : Dict.t (list str)) :
  Dict.wf d -> Dict.wf (setdefault_append name value d).
Proof.
  intros H. unfold setdefault_append.
  destruct (Dict.get name d); now apply wf_set.
Qed.

Lemma wf_parse_line d line : Dict.wf d -> Dict.wf (parse_line d line).
Proof.
  intros H. unfold parse_line.
  destruct (header_match line) as [[name value]|]; [|assumption].
  now apply wf_setdefault_append.
Qed.

Lemma wf_fold_parse_line lines d :
  Dict.wf d -> Dict.wf (fold_left parse_line lines d).
Proof.
  revert d. induction lines as [|l lines IH]; intros d H; [assumption|].
  simpl. apply IH. now apply wf_parse_line.
Qed.

Lemma HTTPHeaders_init_ok raw_header h :
  HTTPHeaders_init raw_header = Ok h ->
  raw h = raw_header /\ _parse_raw_headers raw_header = Ok (start_line h, headers h).
Proof.
  unfold HTTPHeaders_init.
  destruct (_parse_raw_headers raw_header) as [[s d]| |]; try discriminate.
  intros H. injection H as <-. auto.
Qed.

Lemma HTTPHeaders_init_wf raw_header h :
  HTTPHeaders_init raw_header = Ok h -> Dict.wf (headers h).
Proof.
  intros H. apply HTTPHeaders_init_ok in H as (_ & H).
  unfold _parse_raw_headers in H.
  destruct (_decode_header_bytes raw_header) as [decoded| |]; try discriminate.
  destruct (_unfold_lines _) as [[|l unfolded]| |]; try discriminate.
  simpl in H. injection H as _ <-.
  apply wf_fold_parse_line. constructor.
Qed.

(** *** Dechunking *)

Lemma bind_ok {S A B} (m : M S A) (f : A -> M S B) s b s' :
  bind m f s = (Ok b, s') ->
  exists a s1, m s = (Ok a, s1) /\ f a s1 = (Ok b, s').
Proof.
  unfold bind. destruct (m s) as [[a|e|] s1]; try discriminate.
  intros H. eauto.
Qed.

Lemma lift_ok {S A} (r : result A) (s s' : S) a :
  lift r s = (Ok a, s') -> r = Ok a /\ s' = s.
Proof. unfold lift. intros H. injection H as -> ->. auto. Qed.

Lemma expect_chunked_truthy h :
  _expect_chunked_body h = Ok true -> truthy (get_header h TE) = true.
Proof.
  unfold _expect_chunked_body. fold TE.
  destruct (get_header h TE) as [[|v vs]|]; try discriminate. reflexivity.
Qed.

End HeaderFacts.

(** ** Text *)

Section TextFacts.
Import Text.
Local Open Scope N_scope.
Context {A : Type}.
Variable blank : A -> bool.

Lemma dropwhile_all (s : list A) :
  Forall (fun c => blank c = true) s -> dropwhile blank s = [].
Proof.
  induction 1 as [|c s Hc _ IH]; [reflexivity|]. simpl. now rewrite Hc.
Qed.

Lemma dropwhile_nil_all (s : list A) :
  dropwhile blank s = [] -> Forall (fun c => blank c = true) s.
Proof.
  induction s as [|c s IH]; [constructor|]. simpl.
  destruct (blank c) eqn:Hc; [|discriminate]. intros H. constructor; auto.
Qed.

Lemma dropwhile_no_lead (s : list A) : no_lead blank (dropwhile blank s).
Proof.
  induction s as [|c s IH]; [exact I|]. simpl.
  destruct (blank c) eqn:Hc; [assumption | exact Hc].
Qed.

Lemma no_lead_dropwhile (s : list A) : no_lead blank s -> dropwhile blank s = s.
Proof. destruct s as [|c s]; simpl; [reflexivity|]. now intros ->. Qed.

Lemma dropwhile_fixed_no_lead (s : list A) : dropwhile blank s = s -> no_lead blank s.
Proof. intros <-. apply dropwhile_no_lead. Qed.

Lemma no_lead_app (s t : list A) : s <> [] -> no_lead blank s -> no_lead blank (s ++ t).
Proof. destruct s; [congruence | auto]. Qed.

Lemma no_lead_prefix (p q : list A) : no_lead blank (p ++ q) -> p <> [] -> no_lead blank p.
Proof. destruct p; [congruence | auto]. Qed.

(** Dropping blanks at the end leaves a prefix. *)
Lemma dropwhile_rev_prefix (t : list A) :
  exists p q, t = p ++ q /\ dropwhile blank (rev t) = rev p /\
              Forall (fun c => blank c = true) q.
Proof.
  induction t as [|x t IH] using rev_ind.
  - exists [], []. simpl. auto.
  - rewrite rev_app_distr. simpl. destruct (blank x) eqn:Hx.
    + destruct IH as (p & q & -> & Hd & Hq).
      exists p, (q ++ [x]). rewrite app_assoc. repeat split; auto.
      apply Forall_app. auto.
    + exists (t ++ [x]), []. rewrite app_nil_r, rev_app_distr. simpl. auto.
Qed.

Lemma strip_by_parts (s : list A) :
  exists l p q, s = l ++ p ++ q /\ strip_by blank s = p /\
    Forall (fun c => blank c = true) l /\
    Forall (fun c => blank c = true) q /\
    no_lead blank p /\ no_lead blank (rev p).
Proof.
  unfold strip_by.
  assert (Hl : exists l, s = l ++ dropwhile blank s /\
                         Forall (fun c => blank c = true) l).
  { induction s as [|c s IH]; [exists []; auto|]. simpl.
    destruct (blank c) eqn:Hc.
    - destruct IH as (l & Hs & Hl). exists (c :: l). simpl.
      split; [now f_equal | now constructor].
    - exists []. auto. }
  destruct Hl as (l & Hs & Hl).
  pose proof (dropwhile_no_lead s) as Hn.
  destruct (dropwhile_rev_prefix (dropwhile blank s)) as (p & q & Ht & Hd & Hq).
  exists l, p, q. rewrite Hd, rev_involutive.
  repeat split; try assumption.
  - now rewrite <- Ht.
  - destruct p as [|c p]; [exact I|]. rewrite Ht in Hn. exact Hn.
  - rewrite <- Hd. apply dropwhile_no_lead.
Qed.

Lemma strip_by_clean (s : list A) :
  no_lead blank s -> no_lead blank (rev s) -> strip_by blank s = s.
Proof.
  intros H1 H2. unfold strip_by.
  rewrite (no_lead_dropwhile s H1), (no_lead_dropwhile (rev s) H2).
  apply rev_involutive.
Qed.

Lemma strip_by_idem (s : list A) :
  strip_by blank (strip_by blank s) = strip_by blank s.
Proof.
  destruct (strip_by_parts s) as (l & p & q & _ & -> & _ & _ & H1 & H2).
  now apply strip_by_clean.
Qed.

Lemma strip_by_fixed (s : list A) :
  strip_by blank s = s -> no_lead blank s /\ no_lead blank (rev s).
Proof.
  intros H.
  destruct (strip_by_parts s) as (l & p & q & _ & Hp & _ & _ & H1 & H2).
  rewrite H in Hp. subst p. auto.
Qed.

Lemma strip_by_no_blank (s : list A) :
  Forall (fun c => blank c = false) s -> strip_by blank s = s.
Proof.
  intros H. apply strip_by_clean.
  - destruct H; [exact I | assumption].
  - apply Forall_rev in H. destruct H; [exact I | assumption].
Qed.

Lemma strip_by_nil_iff (s : list A) :
  strip_by blank s = [] <-> Forall (fun c => blank c = true) s.
Proof.
  split.
  - intros H.
    destruct (strip_by_parts s) as (l & p & q & -> & Hp & Hl & Hq & _).
    rewrite H in Hp. subst p. apply Forall_app. auto.
  - intros H. unfold strip_by. now rewrite (dropwhile_all s H).
Qed.

Lemma strip_by_not_nil (s : list A) c :
  In c s -> blank c = false -> strip_by blank s <> [].
Proof.
  intros Hin Hc H. apply strip_by_nil_iff in H.
  rewrite Forall_forall in H. apply H in Hin. congruence.
Qed.

Lemma Forall_dropwhile (P : A -> Prop) f (s : list A) :
  Forall P s -> Forall P (dropwhile f s).
Proof.
  induction 1 as [|c s Hc Hs IH]; simpl; [constructor|].
  destruct (f c); [assumption | now constructor].
Qed.

Lemma Forall_takewhile (P : A -> Prop) f (s : list A) :
  Forall P s -> Forall P (takewhile f s).
Proof.
  induction 1 as [|c s Hc Hs IH]; simpl; [constructor|].
  destruct (f c); [now constructor | constructor].
Qed.

Lemma takewhile_all f (s : list A) :
  Forall (fun c => f c = true) s -> takewhile f s = s.
Proof.
  induction 1 as [|c s Hc _ IH]; [reflexivity|]. simpl.
  now rewrite Hc, IH.
Qed.

Lemma Forall_strip_by (P : A -> Prop) (s : list A) :
  Forall P s -> Forall P (strip_by blank s).
Proof.
  intros H. unfold strip_by.
  apply Forall_rev, Forall_dropwhile, Forall_rev, Forall_dropwhile, H.
Qed.

(** *** Splitting *)

Variable is_sep : A -> bool.

Lemma split_by_cons (s : list A) :
  exists h t, split_by is_sep s = h :: t.
Proof.
  induction s as [|c s (h & t & IH)]; simpl; [eauto|].
  destruct (is_sep c); [eauto|]. rewrite IH. eauto.
Qed.

Lemma Forall_split_by (P : A -> Prop) (s : list A) :
  Forall P s -> Forall (Forall P) (split_by is_sep s).
Proof.
  induction 1 as [|c s Hc Hs IH]; simpl; [repeat constructor|].
  destruct (is_sep c); [now constructor|].
  destruct (split_by is_sep s) as [|h t]; [repeat constructor; assumption|].
  inversion IH; subst. constructor; [now constructor | assumption].
Qed.

Lemma split_by_no_sep (s : list A) :
  Forall (fun c => is_sep c = false) s -> split_by is_sep s = [s].
Proof.
  induction 1 as [|c s Hc _ IH]; [reflexivity|]. simpl. now rewrite Hc, IH.
Qed.

(** Pieces that hold no separator, each followed by a separator. *)
Lemma split_by_pieces (sep : A) (pieces : list (list A)) (rest : list A) :
  is_sep sep = true ->
  Forall (Forall (fun c => is_sep c = false)) pieces ->
  split_by is_sep (flat_map (fun l => l ++ [sep]) pieces ++ rest) =
  pieces ++ split_by is_sep rest.
Proof.
  intros Hsep. induction 1 as [|l pieces Hl _ IH]; [reflexivity|].
  simpl. rewrite <- !app_assoc. simpl.
  induction Hl as [|c l Hc _ IHl]; simpl.
  - now rewrite Hsep, IH.
  - rewrite Hc, IHl. reflexivity.
Qed.
End TextFacts.

Ltac bool_to_prop :=
  repeat (rewrite ?orb_true_iff, ?andb_true_iff, ?orb_false_iff,
            ?andb_false_iff, ?N.leb_le, ?N.ltb_lt, ?N.eqb_eq, ?N.leb_gt,
            ?N.ltb_ge, ?N.eqb_neq in *).

Ltac char_cases :=
  unfold Http.norm_char, Text.lower_char, Text.title_char, Text.upper_char in *;
  repeat match goal with
    | |- context [if ?b then _ else _] => destruct b eqn:?
    | H : context [if ?b then _ else _] |- _ => destruct b eqn:?
    end;
  unfold Text.in_repertoire, Http.is_name_char, Text.isword, Text.isspace,
    Text.c_isspace, Text.is_upper_ascii, Text.is_lower_ascii,
    Text.is_digit_ascii, Text.sharp_s, Text.LF, Text.CR in *;
  bool_to_prop; try lia.

Section CharFacts.
Import Text Http.
Local Open Scope N_scope.

Lemma name_char_not_space c : is_name_char c = true -> isspace c = false.
Proof. char_cases. Qed.

Lemma name_char_not_colon c : is_name_char c = true -> c <> 58.
Proof. char_cases. Qed.

Lemma norm_char_normal c :
  is_name_char c = true ->
  is_name_char (norm_char c) = true /\ norm_char c <> 45 /\
  is_upper_ascii (norm_char c) = false.
Proof. intros H. repeat split; char_cases. Qed.

Lemma norm_char_encodable c :
  in_repertoire c = true -> in_repertoire (norm_char c) = true.
Proof. char_cases. Qed.

Lemma norm_char_ascii c : c < 128 -> norm_char c < 128.
Proof. char_cases. Qed.

Lemma to_N_byte_of n : n < 256 -> Byte.to_N (byte_of n) = n.
Proof.
  intros H. unfold byte_of. destruct (Byte.of_N n) as [b|] eqn:E.
  - now apply Byte.to_of_N.
  - apply Byte.of_N_None_iff in E. lia.
Qed.

(** *** Joining and splitting, character by character *)

Lemma join_cons_head sep c (h : str) t :
  join sep ((c :: h) :: t) = c :: join sep (h :: t).
Proof. destruct t; reflexivity. Qed.

Lemma join_app_head sep (a h : str) t :
  join sep ((a ++ h) :: t) = a ++ join sep (h :: t).
Proof. destruct t; cbn [join]; [reflexivity | now rewrite <- app_assoc]. Qed.

Lemma join_nil_head sep (h : str) t :
  join sep ([] :: h :: t) = sep ++ join sep (h :: t).
Proof. reflexivity. Qed.

Lemma join_map_split (a b : codepoint) (f : codepoint -> codepoint) s :
  join [a] (map (map f) (split b s)) =
  map (fun c => if b =? c then a else f c) s.
Proof.
  unfold split. induction s as [|c s IH]; [reflexivity|].
  cbn [split_by map].
  destruct (split_by_cons (N.eqb b) s) as (h & t & Hs).
  rewrite Hs in *. destruct (b =? c).
  - cbn [map]. cbn [map] in IH. rewrite join_nil_head.
    cbn [app]. f_equal. exact IH.
  - cbn [map]. cbn [map] in IH. rewrite join_cons_head.
    f_equal. exact IH.
Qed.

Lemma normalize_header_eq s :
  _normalize_header s = map norm_char (strip s).
Proof. unfold _normalize_header, lower. apply join_map_split. Qed.

Lemma format_header_parts s h t :
  split 95 s = h :: t ->
  join [45] (lower h :: map capitalize t) = format_from false s /\
  join [45] (capitalize h :: map capitalize t) = format_from true s.
Proof.
  unfold split. revert h t. induction s as [|c s IH]; intros h t Hs.
  - injection Hs as <- <-. auto.
  - cbn [split_by] in Hs. cbn [format_from].
    destruct (split_by_cons (N.eqb 95) s) as (h' & t' & Hs').
    rewrite Hs' in Hs. destruct (IH h' t' Hs') as (IH1 & IH2).
    destruct (95 =? c).
    + injection Hs as <- <-. cbn [map lower capitalize].
      rewrite join_nil_head, IH2. auto.
    + injection Hs as <- <-. split.
      * unfold lower. cbn [map]. rewrite join_cons_head.
        fold (lower h'). now rewrite IH1.
      * cbn [capitalize]. rewrite join_app_head. now rewrite IH1.
Qed.

Lemma format_header_eq s : _format_header s = format_from true s.
Proof.
  unfold _format_header.
  destruct (split_by_cons (N.eqb 95) s) as (h & t & Hs).
  fold (split 95 s) in Hs. rewrite Hs. cbn [map].
  now apply format_header_parts.
Qed.

(** On an ASCII name in normal form, formatting then normalizing gives the
    name back. *)
Lemma norm_format_from b k :
  Forall (fun c => is_name_char c = true /\ c <> 45 /\
                   is_upper_ascii c = false) k ->
  ascii k ->
  map norm_char (format_from b k) = k.
Proof.
  intros Hk Ha. revert b.
  induction Hk as [|c k (H1 & H2 & H3) _ IH]; intros b; [reflexivity|].
  inversion Ha as [|? ? Hc Ha']; subst. specialize (IH Ha').
  cbn [format_from]. destruct (N.eqb_spec 95 c) as [<-|Hn].
  - cbn [map]. rewrite IH. reflexivity.
  - rewrite map_app, IH. clear IH.
    assert (Hone : map norm_char (if b then title_char c else [lower_char c])
                   = [c]).
    { destruct b.
      - unfold title_char. destruct (is_lower_ascii c) eqn:E.
        + cbn [map]. f_equal. char_cases.
        + destruct (c =? sharp_s) eqn:E'; [char_cases|].
          cbn [map]. f_equal. char_cases.
      - cbn [map]. f_equal. char_cases. }
    now rewrite Hone.
Qed.

Lemma format_from_name_chars b k :
  Forall (fun c => is_name_char c = true /\ c <> 45 /\
                   is_upper_ascii c = false) k ->
  Forall (fun c => is_name_char c = true) (format_from b k).
Proof.
  intros Hk. revert b.
  induction Hk as [|c k (H1 & H2 & H3) _ IH]; intros b; [constructor|].
  cbn [format_from]. destruct (N.eqb_spec 95 c) as [<-|Hn].
  - constructor; [reflexivity | apply IH].
  - apply Forall_app. split; [|apply IH].
    destruct b; clear IH.
    + unfold title_char. destruct (is_lower_ascii c) eqn:E;
        [repeat constructor; char_cases|].
      destruct (c =? sharp_s) eqn:E'; repeat constructor; char_cases.
    + repeat constructor. char_cases.
Qed.

Lemma format_from_not_nil b k : k <> [] -> format_from b k <> [].
Proof.
  destruct k as [|c k]; [congruence|]. intros _. cbn [format_from].
  destruct (95 =? c); [discriminate|].
  destruct b.
  - unfold title_char. destruct (is_lower_ascii c); [discriminate|].
    destruct (c =? sharp_s); discriminate.
  - discriminate.
Qed.

Lemma format_from_encodable b k : encodable k -> encodable (format_from b k).
Proof.
  unfold encodable. intros Hk. revert b.
  induction Hk as [|c k Hc _ IH]; intros b; [constructor|].
  cbn [format_from]. destruct (N.eqb_spec 95 c) as [<-|Hn].
  - constructor; [reflexivity | apply IH].
  - apply Forall_app. split; [|apply IH].
    destruct b; clear IH.
    + unfold title_char. destruct (is_lower_ascii c) eqn:E;
        [repeat constructor; char_cases|].
      destruct (c =? sharp_s) eqn:E'; repeat constructor; char_cases.
    + repeat constructor. char_cases.
Qed.

(** *** Encoding and decoding *)

Lemma encode_decode s :
  encodable s ->
  exists b, encode s = Some b /\
    forall rest srest, decode rest = Some srest ->
                       decode (b ++ rest) = Some (s ++ srest).
Proof.
  induction 1 as [|c s Hc _ (b & Hb & IH)].
  - exists []. split; [reflexivity | auto].
  - cbn [encode]. rewrite Hb. unfold encode_char.
    destruct (N.ltb_spec c 128) as [Hlt|Hge].
    + eexists. split; [reflexivity|]. intros rest srest Hr.
      cbn [app decode]. rewrite to_N_byte_of by lia.
      apply N.ltb_lt in Hlt. rewrite Hlt.
      now rewrite (IH rest srest Hr).
    + assert (c = sharp_s) as -> by char_cases.
      rewrite N.eqb_refl.
      eexists. split; [reflexivity|]. intros rest srest Hr.
      cbn [app decode]. rewrite !to_N_byte_of by lia. simpl.
      now rewrite (IH rest srest Hr).
Qed.

Lemma encode_all_decode pieces :
  Forall encodable pieces ->
  exists b, encode_all pieces = Some b /\ decode b = Some (concat pieces).
Proof.
  induction 1 as [|p pieces Hp _ (b & Hb & IH)].
  - exists []. auto.
  - destruct (encode_decode p Hp) as (bp & Hbp & Hd).
    cbn [encode_all concat]. rewrite Hbp, Hb.
    eexists. split; [reflexivity | now apply Hd].
Qed.

Lemma decode_encodable raw s : decode raw = Some s -> encodable s.
Proof.
  remember (length raw) as n eqn:Hn.
  assert (Hle : (length raw <= n)%nat) by lia. clear Hn.
  revert raw s Hle. induction n as [|n IH]; intros raw s Hle.
  - destruct raw; [|simpl in Hle; lia]. simpl. intros H. injection H as <-.
    constructor.
  - destruct raw as [|b r]; [simpl; intros H; injection H as <-; constructor|].
    cbn [decode]. simpl in Hle.
    destruct (N.ltb_spec (Byte.to_N b) 128) as [Hlt|Hge].
    + destruct (decode r) as [s'|] eqn:Hr; [|discriminate].
      simpl. intros H. injection H as <-.
      constructor; [char_cases | apply (IH r); [lia | assumption]].
    + destruct r as [|b2 r2]; [discriminate|].
      destruct ((Byte.to_N b =? 195) && (Byte.to_N b2 =? 159));
        [|discriminate].
      destruct (decode r2) as [s'|] eqn:Hr; [|discriminate].
      simpl. intros H. injection H as <-. simpl in Hle.
      constructor; [reflexivity | apply (IH r2); [lia | assumption]].
Qed.
End CharFacts.

Section LineFacts.
Import Text Http.
Local Open Scope N_scope.

Lemma replace_crlf_step c d r :
  replace_crlf (c :: d :: r) =
  if (c =? CR) && (d =? LF) then LF :: replace_crlf r
  else c :: replace_crlf (d :: r).
Proof. reflexivity. Qed.

Lemma Forall_replace_crlf (P : codepoint -> Prop) s :
  Forall P s -> Forall P (replace_crlf s).
Proof.
  remember (length s) as n eqn:Hn.
  assert (Hle : (length s <= n)%nat) by lia. clear Hn.
  revert s Hle. induction n as [|n IH]; intros s Hle Hs.
  - destruct s; [constructor | simpl in Hle; lia].
  - destruct s as [|c [|d r]]; [simpl; constructor | exact Hs |].
    rewrite replace_crlf_step. simpl in Hle.
    inversion Hs as [|? ? Hc Hs']; subst.
    inversion Hs' as [|? ? Hd Hr]; subst.
    destruct ((c =? CR) && (d =? LF)) eqn:E.
    + apply andb_true_iff in E as [_ E]. apply N.eqb_eq in E. rewrite <- E.
      constructor; [assumption | apply IH; [lia | assumption]].
    + constructor; [assumption | apply IH; [simpl; lia | assumption]].
Qed.

Lemma replace_crlf_line l rest :
  one_line l ->
  replace_crlf (l ++ CR :: LF :: rest) = l ++ LF :: replace_crlf rest.
Proof.
  induction 1 as [|c l Hc Hl IH]; [reflexivity|].
  destruct l as [|d l]; cbn [app] in *.
  - rewrite replace_crlf_step, IH.
    replace ((c =? CR) && (CR =? LF)) with false
      by (now rewrite andb_false_r).
    reflexivity.
  - rewrite replace_crlf_step, IH.
    inversion Hl as [|? ? Hd _]; subst.
    apply N.eqb_neq in Hd. now rewrite Hd, andb_false_r.
Qed.

Lemma replace_crlf_lines ls :
  Forall one_line ls ->
  replace_crlf (flat_map (fun l => l ++ [CR; LF]) ls) =
  flat_map (fun l => l ++ [LF]) ls.
Proof.
  induction 1 as [|l ls Hl _ IH]; [reflexivity|].
  cbn [flat_map]. rewrite <- !app_assoc. cbn [app].
  now rewrite replace_crlf_line, IH.
Qed.

Lemma split_pieces_one_line s : Forall one_line (split LF s).
Proof.
  unfold split, one_line. induction s as [|c s IH]; [repeat constructor|].
  cbn [split_by]. destruct (N.eqb_spec LF c) as [He|Hn].
  - constructor; [constructor | assumption].
  - destruct (split_by (N.eqb LF) s) as [|h t]; [repeat constructor; congruence|].
    inversion IH; subst. constructor; [constructor; [congruence|] |]; assumption.
Qed.

Lemma split_lines ls :
  Forall one_line ls ->
  split LF (flat_map (fun l => l ++ [LF]) ls) = ls ++ [[]].
Proof.
  intros H. unfold split.
  assert (Hp : Forall (Forall (fun c => N.eqb LF c = false)) ls).
  { eapply Forall_impl; [|exact H]. intros l Hl.
    eapply Forall_impl; [|exact Hl]. intros c Hc. simpl in Hc.
    apply N.eqb_neq. congruence. }
  pose proof (split_by_pieces (N.eqb LF) LF ls [] (N.eqb_refl _) Hp) as E.
  rewrite app_nil_r in E. exact E.
Qed.

Lemma split_header_lines_serialized ls :
  Forall one_line ls ->
  _split_header_lines (flat_map (fun l => l ++ [CR; LF]) ls) = ls ++ [[]].
Proof.
  intros H. unfold _split_header_lines.
  now rewrite replace_crlf_lines, split_lines.
Qed.

Lemma split_header_lines_shape (P : codepoint -> Prop) decoded :
  Forall P decoded ->
  Forall (fun l => one_line l /\ Forall P l) (_split_header_lines decoded).
Proof.
  intros H. unfold _split_header_lines.
  pose proof (split_pieces_one_line (replace_crlf decoded)) as H1.
  pose proof (Forall_split_by (N.eqb LF) P (replace_crlf decoded)
                (Forall_replace_crlf P decoded H)) as H2.
  fold (split LF (replace_crlf decoded)) in H2.
  revert H1 H2. generalize (split LF (replace_crlf decoded)).
  induction l as [|x l IH]; intros H1 H2; [constructor|].
  inversion H1; inversion H2; subst. constructor; auto.
Qed.

(** *** Unfolding *)

Lemma not_all_blank s :
  strip s <> [] -> exists c, In c s /\ isspace c = false.
Proof.
  intros H. unfold strip in H.
  destruct (Forall_Exists_dec (fun c => isspace c = true)
              (fun c => bool_dec (isspace c) true) s) as [Ha|He].
  - apply strip_by_nil_iff in Ha. contradiction.
  - apply Exists_exists in He as (c & Hin & Hc).
    exists c. split; [assumption|]. now destruct (isspace c).
Qed.

Lemma own_line_continued last line :
  own_line last -> own_line (last ++ [32] ++ strip line).
Proof.
  intros (Hs & Hst). split.
  - destruct (not_all_blank last Hs) as (c & Hin & Hc).
    apply (strip_by_not_nil isspace _ c); [|assumption].
    apply in_or_app. now left.
  - destruct last as [|c last]; [|exact Hst].
    exfalso. apply Hs. reflexivity.
Qed.

Lemma unfold_own_lines ls blanks acc :
  Forall own_line ls ->
  Forall (fun l => strip l = []) blanks ->
  _unfold_lines_loop (ls ++ blanks) acc = Ok (rev acc ++ ls).
Proof.
  intros Hls Hb. revert acc.
  induction Hls as [|l ls (Hs & Hst) _ IH]; intros acc.
  - cbn [app]. rewrite app_nil_r.
    induction Hb as [|b blanks Hb0 _ IHb]; [reflexivity|].
    cbn [_unfold_lines_loop]. now rewrite Hb0.
  - cbn [app _unfold_lines_loop].
    destruct (strip l) eqn:El; [congruence|].
    rewrite Hst, IH. cbn [rev]. now rewrite <- app_assoc.
Qed.

Lemma unfold_lines_shape (P : codepoint -> Prop) lines acc out :
  P 32 ->
  Forall (fun l => one_line l /\ Forall P l) lines ->
  Forall (fun l => one_line l /\ Forall P l /\ own_line l) acc ->
  _unfold_lines_loop lines acc = Ok out ->
  Forall (fun l => one_line l /\ Forall P l /\ own_line l) out.
Proof.
  intros Hsp Hl. revert acc.
  induction Hl as [|l lines (Hl1 & Hl2) _ IH]; intros acc Hacc.
  - cbn [_unfold_lines_loop]. intros H. injection H as <-.
    now apply Forall_rev.
  - cbn [_unfold_lines_loop].
    destruct (strip l) as [|c0 s0] eqn:El; [now apply IH|].
    destruct (starts_with [32] l || starts_with [9] l) eqn:Est.
    + destruct acc as [|last others]; [discriminate|].
      apply IH. inversion Hacc as [|? ? (Ha1 & Ha2 & Ha3) Hothers]; subst.
      constructor; [|assumption]. rewrite <- El. split; [|split].
      * apply Forall_app. split; [assumption|].
        apply Forall_app. split; [repeat constructor; discriminate|].
        now apply Forall_strip_by.
      * apply Forall_app. split; [assumption|].
        apply Forall_app. split; [now repeat constructor|].
        now apply Forall_strip_by.
      * now apply own_line_continued.
    + apply IH. constructor; [|assumption].
      split; [assumption|]. split; [assumption|].
      split; [congruence | assumption].
Qed.
End LineFacts.

Section ParseFacts.
Import Text Http.
Local Open Scope N_scope.

(** *** The pattern *)

Lemma search_name_found n r acc :
  Forall (fun c => is_name_char c = true) n ->
  acc <> [] \/ n <> [] ->
  search_name (n ++ 58 :: r) acc = Some (rev acc ++ n, r).
Proof.
  intros Hn. revert acc. induction Hn as [|c n Hc _ IH]; intros acc Hne.
  - cbn [app search_name].
    replace (is_name_char 58) with false by reflexivity.
    destruct acc as [|a acc]; [destruct Hne; congruence|].
    simpl. now rewrite app_nil_r.
  - cbn [app search_name]. rewrite Hc.
    rewrite IH by (left; discriminate).
    cbn [rev]. now rewrite <- app_assoc.
Qed.

Lemma search_name_shape (P : codepoint -> Prop) line acc name r :
  search_name line acc = Some (name, r) ->
  Forall (fun c => is_name_char c = true) acc ->
  Forall P line -> Forall P acc ->
  name <> [] /\ Forall (fun c => is_name_char c = true) name /\
  Forall P name /\ Forall P r.
Proof.
  revert acc. induction line as [|c line IH]; intros acc; [discriminate|].
  cbn [search_name]. intros H Hacc Hl Hp.
  inversion Hl as [|? ? Hc Hl']; subst.
  destruct (is_name_char c) eqn:Ec.
  - apply (IH (c :: acc)); auto.
  - destruct acc as [|a acc]; [apply (IH []); auto|].
    destruct (c =? 58).
    + injection H as <- <-.
      change (rev acc ++ [a]) with (rev (a :: acc)).
      repeat split.
      * simpl. intros E. apply app_eq_nil in E as [_ E]. discriminate.
      * now apply Forall_rev.
      * now apply Forall_rev.
      * assumption.
    + apply (IH []); auto.
Qed.

Lemma header_match_shape (P : codepoint -> Prop) line name value :
  header_match line = Some (name, value) ->
  Forall P line ->
  name <> [] /\ Forall (fun c => is_name_char c = true) name /\
  Forall P name /\ Forall P value.
Proof.
  unfold header_match.
  destruct (search_name line []) as [[n r]|] eqn:E; [|discriminate].
  intros H Hl. injection H as <- <-.
  destruct (search_name_shape P line [] n r E) as (H1 & H2 & H3 & H4);
    try constructor; try assumption.
  repeat split; try assumption.
  now apply Forall_takewhile, Forall_dropwhile.
Qed.

Lemma strip_name n :
  Forall (fun c => is_name_char c = true) n -> strip n = n.
Proof.
  intros H. apply strip_by_no_blank.
  eapply Forall_impl; [|exact H]. intros c. apply name_char_not_space.
Qed.

Lemma normalize_matched_name n :
  n <> [] -> Forall (fun c => is_name_char c = true) n ->
  normal_name (_normalize_header n).
Proof.
  intros Hne Hn. rewrite normalize_header_eq, strip_name by assumption.
  split.
  - destruct n; [congruence | discriminate].
  - apply Forall_map. eapply Forall_impl; [|exact Hn].
    intros c. apply norm_char_normal.
Qed.

Lemma normalize_encodable n : encodable n -> encodable (_normalize_header n).
Proof.
  intros H. rewrite normalize_header_eq. apply Forall_map.
  apply (Forall_strip_by isspace) in H.
  eapply Forall_impl; [|exact H]. intros c. apply norm_char_encodable.
Qed.

Lemma strip_good_value v :
  one_line v -> encodable v -> good_value (strip v).
Proof.
  intros H1 H2. split; [|split].
  - now apply Forall_strip_by.
  - apply strip_by_idem.
  - now apply Forall_strip_by.
Qed.

(** *** Items of a dictionary *)

Lemma get_In {E} k (d : Dict.t E) e : Dict.get k d = Some e -> In (k, e) d.
Proof.
  induction d as [|[k' e'] d IH]; simpl; [discriminate|].
  str_cases k k'.
  - intros G. injection G as <-. now left.
  - intros G. right. now apply IH.
Qed.

Lemma Forall_set {E} (Q : str * E -> Prop) k e (d : Dict.t E) :
  Forall Q d -> Q (k, e) -> Forall Q (Dict.set k e d).
Proof.
  intros Hd Hq. induction Hd as [|[k' e'] d Hx Hd IH]; simpl.
  - now repeat constructor.
  - str_cases k k'; constructor; auto.
Qed.

Lemma Forall_remove {E} (Q : str * E -> Prop) k (d : Dict.t E) :
  Forall Q d -> Forall Q (Dict.remove k d).
Proof.
  induction 1 as [|[k' e'] d Hx Hd IH]; simpl; [constructor|].
  destruct (str_eqb k k'); [assumption | now constructor].
Qed.

Lemma good_items_setdefault_append name value d :
  normal_name name -> encodable name -> good_value value ->
  Forall good_item d -> Forall good_item (setdefault_append name value d).
Proof.
  intros Hn He Hv Hd. unfold setdefault_append.
  destruct (Dict.get name d) as [vs|] eqn:G.
  - apply Forall_set; [assumption|].
    apply get_In in G. rewrite Forall_forall in Hd. apply Hd in G.
    destruct G as (_ & _ & _ & Hvs).
    split; [assumption|]. split; [assumption|]. split; simpl.
    + intros E. apply app_eq_nil in E as [_ E]. discriminate.
    + apply Forall_app. split; [assumption | repeat constructor; apply Hv].
  - apply Forall_set; [assumption|].
    split; [assumption|]. split; [assumption|]. split; simpl.
    + discriminate.
    + repeat constructor; apply Hv.
Qed.

Lemma good_items_parse_line d line :
  one_line line -> encodable line ->
  Forall good_item d -> Forall good_item (parse_line d line).
Proof.
  intros H1 H2 Hd. unfold parse_line.
  destruct (header_match line) as [[name value]|] eqn:E; [|assumption].
  destruct (header_match_shape _ line name value E H1) as (Hne & Hn & _ & Hv1).
  destruct (header_match_shape _ line name value E H2) as (_ & _ & Hn2 & Hv2).
  apply good_items_setdefault_append; try assumption.
  - now apply normalize_matched_name.
  - now apply normalize_encodable.
  - now apply strip_good_value.
Qed.

Lemma good_items_fold lines d :
  Forall (fun l => one_line l /\ encodable l) lines ->
  Forall good_item d -> Forall good_item (fold_left parse_line lines d).
Proof.
  intros Hl. revert d. induction Hl as [|l lines (H1 & H2) _ IH]; intros d Hd;
    [assumption|].
  simpl. apply IH. now apply good_items_parse_line.
Qed.

(** Whatever a header set is built from, it has the shape the serializer
    and the parser agree on. *)
Lemma HTTPHeaders_init_shape raw_header h :
  HTTPHeaders_init raw_header = Ok h -> parsed_shape h.
Proof.
  intros H. pose proof (HTTPHeaders_init_wf _ _ H) as Hwf.
  apply HTTPHeaders_init_ok in H as (_ & H).
  unfold _parse_raw_headers, _decode_header_bytes in H.
  destruct (decode raw_header) as [decoded|] eqn:Hd; [|discriminate].
  apply decode_encodable in Hd.
  destruct (_unfold_lines (_split_header_lines decoded)) as [unfolded| |] eqn:Hu;
    try discriminate.
  pose proof (split_header_lines_shape _ decoded Hd) as Hs.
  apply (unfold_lines_shape (fun c => in_repertoire c = true) _ [] unfolded
           eq_refl Hs (Forall_nil _)) in Hu.
  destruct unfolded as [|first rest]; [discriminate|].
  destruct h as [hr hs hd]. simpl in H, Hwf. injection H as H1 H2.
  inversion Hu as [|? ? (Hf1 & Hf2 & Hf3) Hrest]; subst.
  unfold parsed_shape. simpl.
  split; [assumption|]. split; [assumption|]. split; [assumption|].
  split; [assumption|].
  apply good_items_fold; [|constructor].
  eapply Forall_impl; [|exact Hrest]. intros l (L1 & L2 & _). auto.
Qed.
End ParseFacts.

Section RoundTrip.
Import Text Http.
Local Open Scope N_scope.

Lemma header_lines_text h :
  header_lines h = map (fun l => l ++ [CR; LF]) (text_lines h).
Proof.
  unfold header_lines, text_lines. cbn [map]. f_equal.
  rewrite map_app. cbn [map app]. f_equal.
  induction (headers h) as [|[k vs] d IH]; [reflexivity|].
  cbn [flat_map]. rewrite map_app, <- IH. f_equal.
  rewrite map_map. apply map_ext. intros v. cbn [fst].
  now rewrite <- !app_assoc.
Qed.

Lemma text_lines_body h :
  text_lines h =
  (start_line h ::
   flat_map (fun item => map (header_line (fst item)) (snd item)) (headers h))
  ++ [[]].
Proof. reflexivity. Qed.

Lemma format_header_name_chars k :
  normal_name k ->
  _format_header k <> [] /\
  Forall (fun c => is_name_char c = true) (_format_header k).
Proof.
  intros (Hne & Hk). rewrite format_header_eq. split.
  - now apply format_from_not_nil.
  - now apply format_from_name_chars.
Qed.

Lemma header_line_shape k v :
  normal_name k -> encodable k -> good_value v ->
  one_line (header_line k v) /\ own_line (header_line k v) /\
  encodable (header_line k v).
Proof.
  intros Hk He (Hv1 & Hv2 & Hv3).
  destruct (format_header_name_chars k Hk) as (Hne & Hf).
  unfold header_line. split; [|split].
  - apply Forall_app. split.
    + eapply Forall_impl; [|exact Hf]. intros c Hc. char_cases.
    + apply Forall_app. split; [repeat constructor; discriminate | assumption].
  - split.
    + apply (strip_by_not_nil isspace _ 58); [|reflexivity].
      apply in_or_app. right. now left.
    + destruct (_format_header k) as [|c f]; [congruence|].
      inversion Hf as [|? ? Hc _]; subst. cbn [app starts_with].
      rewrite !andb_true_r. clear - Hc. char_cases.
  - apply Forall_app. split.
    + rewrite format_header_eq. now apply format_from_encodable.
    + apply Forall_app. split; [now repeat constructor | assumption].
Qed.

Lemma body_lines_shape (d : Dict.t (list str)) :
  Forall good_item d ->
  Forall (fun l => one_line l /\ own_line l /\ encodable l)
    (flat_map (fun item => map (header_line (fst item)) (snd item)) d).
Proof.
  induction 1 as [|[k vs] d (Hk & He & _ & Hvs) _ IH]; [constructor|].
  cbn [flat_map fst snd] in *. apply Forall_app. split; [|assumption].
  apply Forall_map. eapply Forall_impl; [|exact Hvs].
  intros v Hv. now apply header_line_shape.
Qed.

(** A parsed header set can be serialized, and the bytes decode to its
    lines. *)
Lemma serialize_parsed h :
  parsed_shape h ->
  exists h1, _update_raw_bytes h = Ok h1 /\
    headers h1 = headers h /\ start_line h1 = start_line h /\
    decode (raw h1) =
      Some (flat_map (fun l => l ++ [CR; LF]) (text_lines h)).
Proof.
  intros (H1 & H2 & H3 & Hwf & Hd).
  pose proof (body_lines_shape _ Hd) as Hb.
  assert (He : Forall encodable (header_lines h)).
  { rewrite header_lines_text, text_lines_body. apply Forall_map.
    apply Forall_app. split; [constructor|].
    - apply Forall_app. split; [assumption | now repeat constructor].
    - eapply Forall_impl; [|exact Hb]. intros l (_ & _ & Hl).
      apply Forall_app. split; [assumption | now repeat constructor].
    - repeat constructor. }
  destruct (encode_all_decode _ He) as (b & Hb1 & Hb2).
  unfold _update_raw_bytes. rewrite Hb1. eexists. split; [reflexivity|].
  cbn [raw headers start_line]. split; [reflexivity|]. split; [reflexivity|].
  rewrite Hb2, header_lines_text. f_equal.
  symmetry. apply flat_map_concat_map.
Qed.

Lemma set_absent {E} k (e : E) d :
  Dict.get k d = None -> Dict.set k e d = d ++ [(k, e)].
Proof.
  induction d as [|[k' e'] d IH]; simpl; [reflexivity|].
  destruct (str_eqb k k'); [discriminate|]. intros G. now rewrite IH.
Qed.

Lemma set_last {E} k (e e' : E) d :
  Dict.get k d = None -> Dict.set k e (d ++ [(k, e')]) = d ++ [(k, e)].
Proof.
  induction d as [|[k0 e0] d IH]; simpl.
  - now rewrite str_eqb_refl.
  - destruct (str_eqb k k0); [discriminate|]. intros G. now rewrite IH.
Qed.

(** Parsing a serialized line gives its name and value back. *)
Lemma parse_header_line d k v :
  normal_name k -> ascii k -> good_value v ->
  parse_line d (header_line k v) = setdefault_append k v d.
Proof.
  intros Hk Ha (Hv1 & Hv2 & Hv3).
  destruct (format_header_name_chars k Hk) as (Hne & Hf).
  unfold parse_line, header_match, header_line.
  change (lit ": " ++ v) with (58 :: 32 :: v).
  rewrite (search_name_found (_format_header k) (32 :: v) []) by auto.
  cbn [rev app dropwhile].
  replace (isspace 32) with true by reflexivity.
  destruct (strip_by_fixed isspace v Hv2) as (Hlead & _).
  rewrite (no_lead_dropwhile isspace v Hlead).
  rewrite takewhile_all.
  2:{ eapply Forall_impl; [|exact Hv1]. intros c Hc. simpl in Hc.
      apply negb_true_iff, N.eqb_neq. exact Hc. }
  rewrite Hv2. f_equal.
  rewrite normalize_header_eq, strip_name by assumption.
  rewrite format_header_eq. apply norm_format_from; [apply Hk | assumption].
Qed.

Lemma parse_more_values k vs2 vs1 d :
  normal_name k -> ascii k -> Forall good_value vs2 ->
  Dict.get k d = None ->
  fold_left parse_line (map (header_line k) vs2) (d ++ [(k, vs1)]) =
  d ++ [(k, vs1 ++ vs2)].
Proof.
  intros Hk Ha Hvs G. revert vs1.
  induction Hvs as [|v vs2 Hv _ IH]; intros vs1.
  - now rewrite app_nil_r.
  - cbn [map fold_left]. rewrite parse_header_line by assumption.
    unfold setdefault_append. rewrite get_app, G. simpl.
    rewrite str_eqb_refl, set_last by assumption.
    rewrite IH. now rewrite <- app_assoc.
Qed.

Lemma parse_serialized_items items d :
  Dict.wf (d ++ items) ->
  Forall good_item items -> Forall (fun item => ascii (fst item)) items ->
  fold_left parse_line
    (flat_map (fun item => map (header_line (fst item)) (snd item)) items) d =
  d ++ items.
Proof.
  intros Hwf Hi. revert d Hwf.
  induction Hi as [|[k vs] items (Hk & He & Hne & Hvs) _ IH];
    intros d Hwf Ha.
  - now rewrite app_nil_r.
  - inversion Ha as [|? ? Hak Ha']; subst. cbn [fst snd] in *.
    cbn [flat_map fst snd]. rewrite fold_left_app.
    assert (G : Dict.get k d = None).
    { apply get_none_keys. unfold Dict.wf, Dict.keys in Hwf.
      rewrite map_app in Hwf. simpl in Hwf.
      apply NoDup_remove_2 in Hwf. intros Hin. apply Hwf.
      apply in_or_app. now left. }
    destruct vs as [|v vs]; [congruence|].
    inversion Hvs as [|? ? Hv Hvs']; subst.
    cbn [map fold_left]. rewrite parse_header_line by assumption.
    unfold setdefault_append. rewrite G, set_absent by assumption.
    rewrite parse_more_values by assumption. cbn [app].
    rewrite IH; [now rewrite <- app_assoc | | assumption].
    now rewrite <- app_assoc.
Qed.

End RoundTrip.

(** ** The handler *)

Section ServerFacts.
Import Text Http Server.
Local Open Scope N_scope.

Lemma parsed_shape_encodable h : parsed_shape h -> encodable_headers h.
Proof.
  intros (_ & _ & H3 & _ & Hd). split; [assumption|].
  eapply Forall_impl; [|exact Hd].
  intros [k vs] (_ & He & _ & Hvs). split; [assumption|].
  eapply Forall_impl; [|exact Hvs]. intros v (_ & _ & Hv). exact Hv.
Qed.

Lemma update_raw_bytes_encodable h :
  encodable_headers h -> exists h', _update_raw_bytes h = Ok h'.
Proof.
  intros (Hs & Hd).
  assert (He : Forall encodable (header_lines h)).
  { unfold header_lines. constructor.
    - apply Forall_app. split; [assumption | now repeat constructor].
    - apply Forall_app. split; [|repeat constructor].
      apply Forall_flat_map. eapply Forall_impl; [|exact Hd].
      intros [k vs] (Hk & Hvs). cbn [fst snd] in *.
      apply Forall_map. eapply Forall_impl; [|exact Hvs]. intros v Hv.
      apply Forall_app. split.
      + rewrite format_header_eq. now apply format_from_encodable.
      + apply Forall_app. split; [now repeat constructor|].
        apply Forall_app. split; [assumption | now repeat constructor]. }
  destruct (encode_all_decode _ He) as (b & Hb & _).
  unfold _update_raw_bytes. rewrite Hb. eauto.
Qed.

Lemma encodable_headers_same h h' :
  headers h' = headers h -> start_line h' = start_line h ->
  encodable_headers h -> encodable_headers h'.
Proof. unfold encodable_headers. now intros -> ->. Qed.

Lemma insert_encodable h name values :
  encodable_headers h -> encodable name -> Forall encodable values ->
  exists h', insert h name values = Ok h' /\ encodable_headers h'.
Proof.
  intros (Hs & Hd) Hn Hv.
  set (k := _normalize_header name).
  set (vs := match Dict.get k (headers h) with
             | Some old => old ++ values
             | None => values
             end).
  assert (He : encodable_headers (with_headers h (Dict.set k vs (headers h)))).
  { split; [exact Hs|]. cbn [headers with_headers].
    apply Forall_set; [assumption|]. cbn [fst snd].
    split; [now apply normalize_encodable|].
    unfold vs. destruct (Dict.get k (headers h)) as [old|] eqn:G;
      [|assumption].
    apply Forall_app. split; [|assumption].
    apply get_In in G. rewrite Forall_forall in Hd. now apply Hd in G. }
  destruct (update_raw_bytes_encodable _ He) as (h' & Hu).
  exists h'. split.
  - unfold insert. fold k. unfold vs in Hu.
    now destruct (Dict.get k (headers h)).
  - apply update_raw_bytes_ok in Hu as (U1 & U2 & _).
    now apply (encodable_headers_same _ _ U1 U2).
Qed.

Lemma digits_ascii d :
  Forall (fun c => c < 128) (lit (NilEmpty.string_of_uint d)).
Proof.
  induction d; cbn [NilEmpty.string_of_uint lit list_ascii_of_string map];
    try constructor; try assumption; try reflexivity.
Qed.

Lemma str_of_N_encodable n : encodable (str_of_N n).
Proof.
  unfold str_of_N, NilZero.string_of_uint.
  assert (H : forall d, encodable (lit (NilEmpty.string_of_uint d))).
  { intros d. eapply Forall_impl; [|apply digits_ascii].
    intros c Hc. clear - Hc. char_cases. }
  destruct (N.to_uint n); try apply H. repeat constructor.
Qed.

Lemma dechunk_body_encodable h body h' :
  Dict.wf (headers h) -> encodable_headers h ->
  truthy (get_header h TE) = true ->
  _dechunk_body h body = Ok h' -> encodable_headers h'.
Proof.
  intros Hwf (Hs & Hd) Ht H.
  apply dechunk_body_ok in H as (H1 & H2 & _); try assumption.
  unfold encodable_headers. rewrite H1, H2. split; [assumption|].
  apply Forall_set; [now apply Forall_remove|]. cbn [fst snd].
  split; [now repeat constructor|].
  repeat constructor. apply str_of_N_encodable.
Qed.

(** Every message that is built has a header set that can be serialized
    again. *)
Lemma build_message_encodable reader0 message rest :
  build_message reader0 = (Ok message, rest) ->
  encodable_headers (msg_headers message).
Proof.
  unfold build_message. intros H.
  apply bind_ok in H as (h & s1 & Hh & H).
  unfold _build_headers in Hh.
  apply bind_ok in Hh as (raw_headers & s0 & _ & Hh).
  apply lift_ok in Hh as (Hinit & _).
  pose proof (HTTPHeaders_init_wf _ _ Hinit) as Hwf.
  pose proof (parsed_shape_encodable _ (HTTPHeaders_init_shape _ _ Hinit)) as He.
  apply bind_ok in H as ([h' body] & s2 & Hb & Hret).
  unfold ret in Hret. injection Hret as <- _. cbn [msg_headers fst].
  unfold _build_body in Hb.
  apply bind_ok in Hb as (chunked & s3 & Hc & Hb).
  apply lift_ok in Hc as (Hc & _).
  destruct chunked.
  - apply bind_ok in Hb as ([] & s4 & _ & Hb).
    apply bind_ok in Hb as (body_raw & s5 & _ & Hb).
    apply bind_ok in Hb as (h1 & s6 & Hd & Hret).
    unfold ret in Hret. injection Hret as <- _ _.
    apply lift_ok in Hd as (Hd & _).
    eapply dechunk_body_encodable; try eassumption.
    now apply expect_chunked_truthy.
  - apply bind_ok in Hb as (n & s4 & _ & Hb).
    destruct (n =? 0)%Z.
    + unfold ret in Hb. now injection Hb as <- _ _.
    + apply bind_ok in Hb as ([] & s5 & _ & Hb).
      apply bind_ok in Hb as ([] & s6 & _ & Hb).
      apply bind_ok in Hb as (body_raw & s7 & _ & Hret).
      unfold ret in Hret. now injection Hret as <- _ _.
Qed.

Lemma stamp_succeeds stream response (value : str) :
  encodable value ->
  build_from stream = Ok response ->
  exists response',
    set_header response (lit "x_cached_by_proxy") [value] = Ok response' /\
    msg_body response' = msg_body response /\
    start_line (msg_headers response') = start_line (msg_headers response) /\
    exists old,
      get_header (msg_headers response') (lit "X-Cached-By-Proxy") =
        Some (old ++ [value]).
Proof.
  unfold build_from. intros Hv H.
  destruct (build_message (AsyncHTTPStreamReader_init stream)) as [r rest] eqn:B.
  simpl in H. subst r.
  apply build_message_encodable in B.
  destruct (insert_encodable (msg_headers response) (lit "x_cached_by_proxy")
              [value] B ltac:(now repeat constructor)
              ltac:(now repeat constructor)) as (h' & Hi & _).
  unfold set_header. rewrite Hi. eexists. split; [reflexivity|].
  cbn [msg_body msg_headers]. split; [reflexivity|].
  apply insert_ok in Hi as (Hh & Hs & _). split; [assumption|].
  unfold get_header.
  change (_normalize_header (lit "X-Cached-By-Proxy"))
    with (_normalize_header (lit "x_cached_by_proxy")).
  rewrite Hh, get_set_same.
  destruct (Dict.get _ (headers (msg_headers response))) as [old|].
  - now exists old.
  - now exists [].
Qed.

Lemma replace_header_same_line request name value request' :
  replace_header request name value = Ok request' ->
  request_line request' = request_line request /\
  msg_body request' = msg_body request.
Proof.
  unfold replace_header, request_line.
  destruct (replace (msg_headers request) name value) as [[h b]| |] eqn:R;
    try discriminate.
  intros H. injection H as <-. cbn [msg_headers msg_body].
  split; [|reflexivity].
  apply replace_ok in R as [(_ & _ & _ & Hs & _)|(_ & -> & _)]; auto.
Qed.

Lemma method_same_line r1 r2 :
  request_line r1 = request_line r2 -> method r1 = method r2.
Proof. unfold method. now intros ->. Qed.

(** Without GET the handler never touches the cache. *)
Lemma serve_non_get net origin_host origin_port request w r w' :
  method request <> GET ->
  serve net origin_host origin_port request w = (r, w') ->
  storage w' = storage w /\ cache_calls w' = cache_calls w.
Proof.
  intros Hm H. unfold serve in H. unfold bind at 1 in H. unfold lift at 1 in H.
  destruct (replace_header request (lit "host") _) as [request'| |] eqn:Hr;
    try (injection H as <- <-; auto).
  apply replace_header_same_line in Hr as (Hl & _).
  apply method_same_line in Hl.
  unfold bind at 1 in H. unfold lift at 1 in H.
  destruct (_open_connection_to_origin net origin_host origin_port)
    as [origin| |]; try (injection H as <- <-; auto).
  assert (Hn : str_eqb (method request') GET = false).
  { apply str_eqb_neq. congruence. }
  rewrite Hn in H. cbn [negb] in H.
  unfold bind, lift, _write_request_to_origin,
    _write_response_to_client_and_close in H.
  destruct (build_from _) as [response| |];
    try (injection H as <- <-; auto).
  destruct (set_header response _ _) as [response'| |];
    injection H as <- <-; auto.
Qed.


Lemma lower_get_upper token : lower token = lit "get" -> upper token = lit "GET".
Proof.
  destruct token as [|a [|b [|c [|d token]]]]; try discriminate.
  intros H. injection H as Ha Hb Hc.
  assert (Ua : upper_char a = [71]) by (clear - Ha; char_cases; f_equal; lia).
  assert (Ub : upper_char b = [69]) by (clear - Hb; char_cases; f_equal; lia).
  assert (Uc : upper_char c = [84]) by (clear - Hc; char_cases; f_equal; lia).
  unfold upper. cbn [flat_map]. now rewrite Ua, Ub, Uc.
Qed.

(** With GET as method the handler looks the key up, and either reads the
    cache or asks the origin and stores the answer. *)
Lemma serve_get net origin_host origin_port request w request' origin :
  method request = GET ->
  replace_header request (lit "host")
    [origin_host ++ lit ":" ++ str_of_N origin_port] = Ok request' ->
  _open_connection_to_origin net origin_host origin_port = Ok origin ->
  let key := request_line request in
  (forall c1 r w',
     Cache.has_cached_response key (storage w) = (Ok true, c1) ->
     serve net origin_host origin_port request w = (r, w') ->
     cache_calls w' =
       cache_calls w ++
       [Cache.HasCachedResponse key; Cache.GetCachedResponse key] /\
     storage w' = snd (Cache.get_cached_response key c1) /\
     to_origin w' = to_origin w) /\
  (forall c1 response r w',
     Cache.has_cached_response key (storage w) = (Ok false, c1) ->
     build_from (origin (message_raw request')) = Ok response ->
     serve net origin_host origin_port request w = (r, w') ->
     let cachable_response :=
       {| header := raw (msg_headers response);
          body := body_raw (msg_body response) |} in
     cache_calls w' =
       cache_calls w ++
       [Cache.HasCachedResponse key;
        Cache.CacheResponse key cachable_response] /\
     storage w' = snd (Cache.cache_response key cachable_response c1) /\
     to_origin w' = to_origin w ++ [message_raw request']).
Proof.
  intros Hm Hr Ho key.
  pose proof (replace_header_same_line _ _ _ _ Hr) as (Hl & _).
  pose proof (method_same_line _ _ Hl) as Hm'.
  assert (Hy : str_eqb (method request') GET = true).
  { apply str_eqb_eq. congruence. }
  assert (Hserve : forall r w',
            serve net origin_host origin_port request w = (r, w') ->
            bind (on_storage (Cache.HasCachedResponse key)
                    (Cache.has_cached_response key))
              (fun hit : bool =>
                 if hit then
                   bind (on_storage (Cache.GetCachedResponse key)
                           (Cache.get_cached_response key))
                     (fun cached_response =>
                        bind (lift (raw_build_response (header cached_response)
                                      (body cached_response)))
                          (fun response =>
                             bind (lift (set_header response
                                           (lit "x_cached_by_proxy")
                                           [lit "HIT"]))
                               _write_response_to_client_and_close))
                 else
                   bind (_write_request_to_origin request')
                     (fun _ =>
                        bind (lift (build_from (origin (message_raw request'))))
                          (fun response =>
                             bind (on_storage
                                     (Cache.CacheResponse key
                                        {| header := raw (msg_headers response);
                                           body := body_raw (msg_body response) |})
                                     (Cache.cache_response key
                                        {| header := raw (msg_headers response);
                                           body := body_raw (msg_body response) |}))
                               (fun _ =>
                                  bind (lift (set_header response
                                                (lit "x_cached_by_proxy")
                                                [lit "MISS"]))
                                    _write_response_to_client_and_close))))
              w = (r, w')).
  { intros r w' H. unfold serve in H.
    unfold bind at 1 in H. unfold lift at 1 in H. rewrite Hr in H.
    unfold bind at 1 in H. unfold lift at 1 in H. rewrite Ho in H.
    rewrite Hy in H. cbn [negb] in H. rewrite Hl in H. exact H. }
  split.
  - intros c1 r w' Hhas H. apply Hserve in H. clear Hserve.
    unfold bind at 1 in H. unfold on_storage at 1 in H. rewrite Hhas in H.
    unfold bind at 1 in H. unfold on_storage at 1 in H. cbn [storage] in H.
    destruct (Cache.get_cached_response key c1) as [[cached|e|] c2];
      cbn [snd]; cbn [cache_calls to_origin to_client client_closed] in H.
    + unfold bind, lift, _write_response_to_client_and_close in H.
      destruct (raw_build_response _ _) as [response| |];
        [destruct (set_header response _ _) as [response'| |]| |];
        injection H as <- <-; cbn [cache_calls storage to_origin];
        (rewrite <- app_assoc; repeat split; reflexivity).
    + injection H as <- <-. cbn [cache_calls storage to_origin].
      (rewrite <- app_assoc; repeat split; reflexivity).
    + injection H as <- <-. cbn [cache_calls storage to_origin].
      (rewrite <- app_assoc; repeat split; reflexivity).
  - intros c1 response r w' Hhas Hb H. apply Hserve in H. clear Hserve.
    unfold bind at 1 in H. unfold on_storage at 1 in H. rewrite Hhas in H.
    unfold bind at 1 in H. unfold _write_request_to_origin at 1 in H.
    unfold bind at 1 in H. unfold lift at 1 in H. rewrite Hb in H.
    unfold bind at 1 in H. unfold on_storage at 1 in H. cbn [storage] in H.
    cbv zeta.
    destruct (Cache.cache_response key
                {| header := raw (msg_headers response);
                   body := body_raw (msg_body response) |} c1)
      as [[[]|e|] c2];
      cbn [snd]; cbn [cache_calls to_origin to_client client_closed] in H.
    + unfold bind, lift, _write_response_to_client_and_close in H.
      destruct (set_header response _ _) as [response'| |];
        injection H as <- <-; cbn [cache_calls storage to_origin];
        (rewrite <- app_assoc; repeat split; reflexivity).
    + injection H as <- <-. cbn [cache_calls storage to_origin].
      (rewrite <- app_assoc; repeat split; reflexivity).
    + injection H as <- <-. cbn [cache_calls storage to_origin].
      (rewrite <- app_assoc; repeat split; reflexivity).
Qed.

End ServerFacts.

(** ** The scenarios of the specification, and the claims on concrete inputs *)

Section Scenarios.
Import Text Http Server Examples.
Local Open Scope N_scope.

(** C8: a header set cannot be built from an empty header block: with no
    line left after unfolding, taking the start line raises [IndexError]. *)
Theorem empty_header_block_raises :
  HTTPHeaders_init [] = Raise IndexError /\
  _parse_header_lines [] = Raise IndexError /\
  HTTPHeaders_init CRLF = Raise IndexError.
Proof. repeat split. Qed.

(** Scenario 5. *)
Example scenario_two_values :
  exists h h1,
    HTTPHeaders_init two_values = Ok h /\
    start_line h = lit "GET /x HTTP/1.1" /\
    get_header h (lit "x-a") = Some [lit "1"; lit "2"] /\
    _update_raw_bytes h = Ok h1 /\
    raw h1 = wire ["GET /x HTTP/1.1"; "Host: a"; "X-A: 1"; "X-A: 2"; ""]%string.
Proof.
  destruct (HTTPHeaders_init two_values) as [h| |] eqn:E;
    vm_compute in E; try discriminate.
  injection E as <-. eexists. eexists. repeat split.
Qed.






(** Scenario 7: two GET requests for the same request line, then a POST. *)
Example scenario_miss_hit_post :
  exists w1 w2 w3,
    _handle_request proxy get_x net empty_world = Some w1 /\
    to_client w1 =
      [(wire ["HTTP/1.1 200 OK"; "Content-Length: 9";
              "X-Cached-By-Proxy: MISS"; ""]%string ++ blit "Wikipedia")%list] /\
    _handle_request proxy get_x net (start (storage w1)) = Some w2 /\
    to_client w2 =
      [(wire ["HTTP/1.1 200 OK"; "Content-Length: 9";
              "X-Cached-By-Proxy: HIT"; ""]%string ++ blit "Wikipedia")%list] /\
    to_origin w2 = [] /\
    _handle_request proxy post_x net (start (storage w2)) = Some w3 /\
    to_client w3 =
      [(wire ["HTTP/1.1 200 OK"; "Content-Length: 9";
              "X-Cached-By-Proxy: MISS"; ""]%string ++ blit "Wikipedia")%list] /\
    storage w3 = storage w2.
Proof.
  do 3 eexists.
  split; [lazy; reflexivity|]. split; [lazy; reflexivity|].
  split; [lazy; reflexivity|]. split; [lazy; reflexivity|].
  split; [lazy; reflexivity|]. split; [lazy; reflexivity|].
  split; lazy; reflexivity.
Qed.

(** *** The chunked reader always has rounds to spare *)

Lemma find_separator_length sep buf before data rest :
  find_separator sep buf before = Some (data, rest) ->
  (length rest + length sep <= length buf)%nat.
Proof.
  revert before. induction buf as [|b buf IH]; intros before; [discriminate|].
  cbn [find_separator].
  destruct (starts_with_bytes sep (b :: buf)) eqn:Es.
  - intros H. injection H as _ <-.
    assert (Hl : forall p s, starts_with_bytes p s = true ->
                             (length p <= length s)%nat).
    { induction p as [|x p IHp]; intros [|y s0]; simpl; try lia;
        try discriminate.
      intros Hp. apply andb_true_iff in Hp as [_ Hp]. apply IHp in Hp. lia. }
    apply Hl in Es. rewrite length_skipn. lia.
  - intros H. apply IH in H. simpl. lia.
Qed.

Lemma readuntil_shrinks sep buf data rest :
  readuntil sep buf = (Ok data, rest) ->
  (length rest + length sep <= length buf)%nat.
Proof.
  unfold readuntil.
  destruct (find_separator sep buf []) as [[before r]|] eqn:F; [|discriminate].
  destruct (N.of_nat (length before) <=? DEFAULT_LIMIT); [|discriminate].
  intros H. injection H as _ <-. eapply find_separator_length, F.
Qed.

Lemma readexactly_shrinks n buf data rest :
  readexactly n buf = (Ok data, rest) -> (length rest <= length buf)%nat.
Proof.
  unfold readexactly. destruct (n <? 0)%Z; [discriminate|].
  destruct (Z.of_nat (length buf) <? n)%Z; [discriminate|].
  intros H. injection H as _ <-. rewrite length_skipn. lia.
Qed.

Lemma chunk_size_answers size_line : chunk_size size_line <> Beyond.
Proof.
  unfold chunk_size, int16_of_bytes. destruct (py_int 16 _); discriminate.
Qed.

Lemma read_chunked_loop_fuel fuel body buf :
  (length buf < fuel)%nat ->
  fst (_read_chunked_loop fuel body buf) <> Beyond.
Proof.
  revert body buf. induction fuel as [|fuel IH]; intros body buf Hf; [lia|].
  cbn [_read_chunked_loop]. unfold bind at 1.
  destruct (readuntil CRLF buf) as [[size_line| |] buf1] eqn:R1;
    try (simpl; discriminate).
  2:{ unfold readuntil in R1.
      destruct (find_separator CRLF buf []) as [[b r]|]; [|discriminate].
      destruct (N.of_nat (length b) <=? DEFAULT_LIMIT); discriminate. }
  apply readuntil_shrinks in R1. simpl in R1.
  unfold bind at 1. unfold lift at 1.
  destruct (chunk_size size_line) as [n| |] eqn:C; try (simpl; discriminate).
  2:{ now apply chunk_size_answers in C. }
  destruct (n =? 0)%Z.
  - unfold bind, ret, readuntil.
    destruct (find_separator CRLF buf1 []) as [[b r]|]; [|simpl; discriminate].
    destruct (N.of_nat (length b) <=? DEFAULT_LIMIT); simpl; discriminate.
  - unfold bind at 1.
    destruct (readexactly n buf1) as [[chunk| |] buf2] eqn:R2;
      try (simpl; discriminate).
    2:{ unfold readexactly in R2. destruct (n <? 0)%Z; [discriminate|].
        destruct (Z.of_nat (length buf1) <? n)%Z; discriminate. }
    apply readexactly_shrinks in R2.
    unfold bind at 1.
    destruct (readuntil CRLF buf2) as [[d| |] buf3] eqn:R3;
      try (simpl; discriminate).
    2:{ unfold readuntil in R3.
        destruct (find_separator CRLF buf2 []) as [[b r]|]; [|discriminate].
        destruct (N.of_nat (length b) <=? DEFAULT_LIMIT); discriminate. }
    apply readuntil_shrinks in R3. simpl in R3.
    apply IH. lia.
Qed.

(** Reading a chunked body returns or raises. *)
Lemma read_chunked_answers self : fst (_read_chunked self) <> Beyond.
Proof.
  unfold _read_chunked, on_reader.
  pose proof (read_chunked_loop_fuel (S (length (reader self))) []
                (reader self) ltac:(lia)) as H.
  destruct (_read_chunked_loop _ _ _) as [r buf]. exact H.
Qed.
End Scenarios.

(** * Further properties of the code *)

(** ** The response cache *)

Section CacheMore.
Import Cache.
Variable V : Type.

Lemma evict_keeps_wf (c : InMemoryResponseCache V) :
  Dict.wf (_cache c) -> Dict.wf (_cache (snd (evict c))).
Proof.
  intros Hwf. unfold evict.
  destruct (str_eqb (eviction_policy c) (lit "entire")); [simpl; constructor|].
  destruct (str_eqb (eviction_policy c) (lit "lru")).
  - destruct (_cache c) as [|[k0 e0] d] eqn:Hc; simpl; rewrite ?Hc; [exact Hwf|].
    now apply wf_tail in Hwf.
  - now destruct (str_eqb (eviction_policy c) (lit "none")).
Qed.

(** What [cache_response] leaves in the store when the size limit is
    positive. *)
Lemma cache_response_stores key (v : V) c :
  Dict.wf (_cache c) -> (0 < cache_size_limit c)%Z ->
  exists c1, cache_response key v c = (Ok tt, c1) /\
    Dict.wf (_cache c1) /\
    Dict.get key (_cache c1) = Some {| response := v; HIT_TTL := hit_ttl c |} /\
    cache_size_limit c1 = cache_size_limit c /\
    eviction_policy c1 = eviction_policy c /\
    hit_ttl c1 = hit_ttl c.
Proof.
  intros Hwf Hlim.
  destruct (Z_lt_ge_dec (get_cache_size c) (cache_size_limit c)) as [Hlt|Hge].
  - eexists. split; [apply cache_response_room; lia|]. simpl.
    split; [now apply wf_set|]. now rewrite get_set_same.
  - assert (Hne : _cache c <> []).
    { unfold get_cache_size in Hge. destruct (_cache c); simpl in *;
        [lia | discriminate]. }
    pose proof (evict_keeps_wf c Hwf) as Hwf'.
    destruct (evict_nonempty V c Hne) as (c' & He & Hp & Hl & Ht & _).
    rewrite He in Hwf'. simpl in Hwf'.
    eexists. split; [eapply cache_response_full; [lia | lia | exact He]|].
    simpl. split; [now apply wf_set|]. rewrite get_set_same, Ht. auto.
Qed.

(** Hits on a live entry: as long as the count does not pass through 0, each
    round returns the stored value and lowers the count by one. *)
Lemma hits_live key (n : nat) : forall (c : InMemoryResponseCache V) e,
  Dict.wf (_cache c) ->
  Dict.get key (_cache c) = Some e ->
  (forall i : nat, (i < n)%nat -> (HIT_TTL e - Z.of_nat i <> 0)%Z) ->
  exists c2, hits n key c = (Ok (repeat (response e) n), c2) /\
    Dict.wf (_cache c2) /\
    Dict.get key (_cache c2) =
      Some {| response := response e; HIT_TTL := HIT_TTL e - Z.of_nat n |}.
Proof.
  induction n as [|n IH]; intros c e Hw G Hlive.
  - exists c. simpl. split; [reflexivity|]. split; [exact Hw|].
    rewrite G. destruct e. simpl. f_equal. f_equal. lia.
  - assert (H0 : HIT_TTL e <> 0%Z).
    { specialize (Hlive O ltac:(lia)). simpl in Hlive. lia. }
    pose proof (has_cached_response_live V _ _ _ G H0) as Hhas.
    pose proof (get_cached_response_present V _ _ _ G) as Hget.
    pose proof (get_after_get_cached_response V key c _ key Hw G) as Hafter.
    pose proof (wf_after_get_cached_response V key c Hw) as Hw'.
    rewrite str_eqb_refl in Hafter.
    cbn [response HIT_TTL] in Hafter, Hget.
    destruct (IH _ _ Hw' Hafter) as (c2 & Hh & Hw2 & G2).
    { intros i Hi. cbn [HIT_TTL]. specialize (Hlive (S i) ltac:(lia)). lia. }
    exists c2. cbn [response HIT_TTL] in Hh, G2. split; [|split; [exact Hw2|]].
    + cbn [hits repeat]. unfold bind at 1. rewrite Hhas.
      unfold bind at 1.
      destruct (get_cached_response key c) as [r s] eqn:Hg.
      injection Hget as -> Hs. cbn [snd] in Hh.
      unfold bind at 1. rewrite Hh. reflexivity.
    + rewrite G2. f_equal. f_equal. lia.
Qed.

(** X1: [has_cached_response] never raises.  It answers [True] exactly when
    the key is stored with a hit count other than 0, and then leaves the
    cache as it is; when it answers [False] the key is not in the store
    afterwards (an expired entry is removed by this call) and every other
    entry is untouched. *)
Theorem has_cached_response_answer key (c : InMemoryResponseCache V) :
  Dict.wf (_cache c) ->
  exists b c',
    has_cached_response key c = (Ok b, c') /\
    (b = true <->
     exists e, Dict.get key (_cache c) = Some e /\ HIT_TTL e <> 0%Z) /\
    (b = true -> c' = c) /\
    (b = false ->
     Dict.get key (_cache c') = None /\
     forall k, k <> key -> Dict.get k (_cache c') = Dict.get k (_cache c)) /\
    cache_size_limit c' = cache_size_limit c /\
    eviction_policy c' = eviction_policy c /\
    hit_ttl c' = hit_ttl c.
Proof.
  intros Hwf.
  destruct (Dict.get key (_cache c)) as [e|] eqn:G.
  - destruct (Z.eq_dec (HIT_TTL e) 0) as [Hz|Hnz].
    + exists false, (with_cache c (Dict.remove key (_cache c))).
      split; [now apply (has_cached_response_expired V _ _ e)|].
      split; [|split; [discriminate|split; [|simpl; auto]]].
      * split; [discriminate|]. intros (e' & He' & Hne).
        injection He' as <-. contradiction.
      * intros _. simpl. split; [now apply get_remove_same|].
        intros k Hk. now apply get_remove_other.
    + exists true, c.
      split; [now apply (has_cached_response_live V _ _ e)|].
      split; [|split; [reflexivity|split; [discriminate|auto]]].
      split; [intros _; eauto | reflexivity].
  - exists false, c.
    split; [now apply has_cached_response_absent|].
    split; [|split; [discriminate|split; [|auto]]].
    + split; [discriminate|]. intros (e' & He' & _). discriminate.
    + intros _. split; [exact G | reflexivity].
Qed.

(** X2: [remove_from_cache] on a key that is not stored raises [KeyError]
    and leaves the cache as it is; on a stored key it removes that entry
    alone: the other entries keep their values and their order, and the
    size goes down by one. *)
Theorem remove_from_cache_effect key (c : InMemoryResponseCache V) :
  Dict.wf (_cache c) ->
  (Dict.get key (_cache c) = None ->
   remove_from_cache key c = (Raise KeyError, c)) /\
  (forall e, Dict.get key (_cache c) = Some e ->
   exists c',
     remove_from_cache key c = (Ok tt, c') /\
     Dict.get key (_cache c') = None /\
     (forall k, k <> key -> Dict.get k (_cache c') = Dict.get k (_cache c)) /\
     keys_of c' = filter (fun x => negb (str_eqb x key)) (keys_of c) /\
     get_cache_size c' = (get_cache_size c - 1)%Z).
Proof.
  intros Hwf. split.
  - intros G. apply remove_from_cache_absent. unfold Dict.mem. now rewrite G.
  - intros e G.
    assert (Hm : Dict.mem key (_cache c) = true) by (unfold Dict.mem; now rewrite G).
    exists (with_cache c (Dict.remove key (_cache c))).
    split; [now apply remove_from_cache_present|]. simpl.
    split; [now apply get_remove_same|].
    split; [intros k Hk; now apply get_remove_other|].
    split; [unfold keys_of; simpl; now apply keys_remove|].
    unfold get_cache_size. simpl. rewrite length_remove, Hm.
    destruct (_cache c); [discriminate|]. cbn [length Nat.pred]. lia.
Qed.

(** X3: [get_cached_response] on a key that is not stored raises [KeyError]
    and leaves the cache as it is; on a stored key it moves that key to the
    end of the store, keeps the order of the other keys and the size, and
    serves the entry whatever its hit count is: an entry whose count is 0 is
    returned too, and its count becomes -1. *)
Theorem get_cached_response_effect key (c : InMemoryResponseCache V) :
  Dict.wf (_cache c) ->
  (Dict.get key (_cache c) = None ->
   get_cached_response key c = (Raise KeyError, c)) /\
  (forall e, Dict.get key (_cache c) = Some e ->
   exists c',
     get_cached_response key c = (Ok (response e), c') /\
     keys_of c' = filter (fun x => negb (str_eqb x key)) (keys_of c) ++ [key] /\
     get_cache_size c' = get_cache_size c /\
     Dict.wf (_cache c') /\
     (HIT_TTL e = 0%Z -> has_cached_response key c' = (Ok true, c'))).
Proof.
  intros Hwf. split; [apply get_cached_response_absent|].
  intros e G.
  pose proof (get_cached_response_present V key c e G) as Hget.
  cbv zeta in Hget.
  pose proof (keys_after_get_cached_response V key c e Hwf G) as Hkeys.
  pose proof (wf_after_get_cached_response V key c Hwf) as Hwf'.
  pose proof (get_after_get_cached_response V key c e key Hwf G) as Hafter.
  rewrite str_eqb_refl in Hafter.
  rewrite Hget in Hkeys, Hwf', Hafter. cbn [snd] in Hkeys, Hwf', Hafter.
  eexists. split; [exact Hget|].
  split; [exact Hkeys|]. split; [|split; [exact Hwf'|]].
  - unfold get_cache_size. simpl. f_equal.
    rewrite length_app, length_remove, length_set.
    assert (Hm : Dict.mem key (_cache c) = true)
      by (unfold Dict.mem; now rewrite G).
    rewrite mem_set, !Hm. cbn [orb length].
    destruct (_cache c); [discriminate|]. cbn [length Nat.pred]. lia.
  - intros Hz. eapply has_cached_response_live; [exact Hafter|].
    cbn [HIT_TTL]. lia.
Qed.

(** X4: after [cache_response(k, v)] on a cache with a positive size limit
    the key is stored with the configured hit count.  When that count is
    not 0, [has_cached_response(k)] answers [True] and
    [get_cached_response(k)] returns [v]; when it is 0 (a value the argument
    parser refuses), the entry is never served: the next
    [has_cached_response(k)] answers [False] and removes it. *)
Theorem stored_response_is_served key (v : V) (c : InMemoryResponseCache V) :
  Dict.wf (_cache c) ->
  (0 < cache_size_limit c)%Z ->
  exists c1,
    cache_response key v c = (Ok tt, c1) /\
    Dict.get key (_cache c1) = Some {| response := v; HIT_TTL := hit_ttl c |} /\
    (hit_ttl c <> 0%Z ->
     has_cached_response key c1 = (Ok true, c1) /\
     exists c2,
       get_cached_response key c1 = (Ok v, c2) /\
       Dict.get key (_cache c2) =
         Some {| response := v; HIT_TTL := hit_ttl c - 1 |}) /\
    (hit_ttl c = 0%Z ->
     exists c2,
       has_cached_response key c1 = (Ok false, c2) /\
       Dict.get key (_cache c2) = None).
Proof.
  intros Hwf Hlim.
  destruct (cache_response_stores key v c Hwf Hlim)
    as (c1 & Hput & Hwf1 & G1 & _).
  exists c1. split; [exact Hput|]. split; [exact G1|]. split.
  - intros Hnz. split.
    + eapply has_cached_response_live; [exact G1|exact Hnz].
    + pose proof (get_cached_response_present V key c1 _ G1) as Hget.
      pose proof (get_after_get_cached_response V key c1 _ key Hwf1 G1) as Ha.
      rewrite str_eqb_refl in Ha. cbv zeta in Hget.
      cbn [response HIT_TTL] in Hget, Ha.
      rewrite Hget in Ha. cbn [snd] in Ha.
      eexists. split; [exact Hget | exact Ha].
  - intros Hz.
    exists (with_cache c1 (Dict.remove key (_cache c1))). split.
    + eapply has_cached_response_expired; [exact G1|exact Hz].
    + simpl. now apply get_remove_same.
Qed.

(** X5: storing under a key while the cache has room never evicts: a key
    that is already stored keeps its place in the order, its value is
    replaced and its hit count is set back to the configured one; a new key
    is appended at the end; every other entry is untouched. *)
Theorem cache_response_with_room key (v : V) (c : InMemoryResponseCache V) :
  cache_size_limit c <> 0%Z ->
  (get_cache_size c < cache_size_limit c)%Z ->
  exists c',
    cache_response key v c = (Ok tt, c') /\
    Dict.get key (_cache c') = Some {| response := v; HIT_TTL := hit_ttl c |} /\
    (forall k, k <> key -> Dict.get k (_cache c') = Dict.get k (_cache c)) /\
    keys_of c' =
      (if Dict.mem key (_cache c) then keys_of c else keys_of c ++ [key]) /\
    get_cache_size c' =
      (if Dict.mem key (_cache c) then get_cache_size c
       else get_cache_size c + 1)%Z.
Proof.
  intros Hnz Hroom. eexists.
  split; [now apply cache_response_room|]. simpl.
  split; [apply get_set_same|].
  split; [intros k Hk; now apply get_set_other|].
  split; [apply keys_set|].
  unfold get_cache_size. simpl. rewrite length_set.
  destruct (Dict.mem key (_cache c)); lia.
Qed.

(** X6: under policy "lru", storing while the cache is full drops the first
    entry of the store before the assignment, also when the key to store is
    already cached.  So storing again a key that is cached, and is not the
    oldest, makes the cache one entry smaller; storing a key that is not
    among the remaining entries appends it and keeps the size. *)
Theorem lru_store_at_capacity key (v : V) (c : InMemoryResponseCache V) x d :
  eviction_policy c = lit "lru" ->
  _cache c = x :: d ->
  cache_size_limit c <> 0%Z ->
  (get_cache_size c >= cache_size_limit c)%Z ->
  exists c',
    cache_response key v c = (Ok tt, c') /\
    _cache c' = Dict.set key {| response := v; HIT_TTL := hit_ttl c |} d /\
    (Dict.mem key d = true ->
     keys_of c' = Dict.keys d /\
     get_cache_size c' = (get_cache_size c - 1)%Z) /\
    (Dict.mem key d = false ->
     keys_of c' = Dict.keys d ++ [key] /\
     get_cache_size c' = get_cache_size c).
Proof.
  intros Hp Hc Hnz Hfull.
  pose proof (evict_lru_cons V c x d Hp Hc) as He.
  eexists. split; [eapply cache_response_full; [exact Hnz|exact Hfull|exact He]|].
  simpl. split; [reflexivity|].
  unfold keys_of, get_cache_size. simpl.
  rewrite keys_set, length_set, Hc. cbn [length].
  split; intros Hm; rewrite Hm; split; try reflexivity; lia.
Qed.

(** X7: under policy "entire", storing while the cache is full leaves the
    new entry as the only one. *)
Theorem entire_store_at_capacity key (v : V) (c : InMemoryResponseCache V) :
  eviction_policy c = lit "entire" ->
  cache_size_limit c <> 0%Z ->
  (get_cache_size c >= cache_size_limit c)%Z ->
  exists c',
    cache_response key v c = (Ok tt, c') /\
    _cache c' = [(key, {| response := v; HIT_TTL := hit_ttl c |})] /\
    get_cache_size c' = 1%Z.
Proof.
  intros Hp Hnz Hfull.
  pose proof (evict_entire V c Hp) as He.
  eexists. split; [eapply cache_response_full; [exact Hnz|exact Hfull|exact He]|].
  simpl. split; reflexivity.
Qed.

(** X8: with a negative [hit_ttl] an entry does not expire by being read:
    after [cache_response(k, v)], any number [n] of hits return [v], the
    count stands at [hit_ttl - n], and [has_cached_response(k)] still
    answers [True]. *)
Theorem negative_hit_ttl_never_expires key (v : V) (n : nat)
    (c : InMemoryResponseCache V) :
  Dict.wf (_cache c) ->
  (0 < cache_size_limit c)%Z ->
  (hit_ttl c < 0)%Z ->
  exists c1 c2,
    cache_response key v c = (Ok tt, c1) /\
    hits n key c1 = (Ok (repeat v n), c2) /\
    Dict.get key (_cache c2) =
      Some {| response := v; HIT_TTL := hit_ttl c - Z.of_nat n |} /\
    has_cached_response key c2 = (Ok true, c2).
Proof.
  intros Hwf Hlim Hneg.
  destruct (cache_response_stores key v c Hwf Hlim)
    as (c1 & Hput & Hwf1 & G1 & _).
  destruct (hits_live key n c1 _ Hwf1 G1) as (c2 & Hh & Hwf2 & G2).
  { intros i _. cbn [HIT_TTL]. lia. }
  cbn [response HIT_TTL] in Hh, G2.
  exists c1, c2. split; [exact Hput|]. split; [exact Hh|]. split; [exact G2|].
  eapply has_cached_response_live; [exact G2|]. cbn [HIT_TTL]. lia.
Qed.

(** X9: a round of the periodic cleaner never raises.  On an empty store it
    does nothing; on a store that is not empty it empties the store under
    policy "entire", drops the first entry alone under "lru", and changes
    nothing under any other policy. *)
Theorem periodic_cache_cleaner_round_effect (c : InMemoryResponseCache V) :
  exists c',
    periodic_cache_cleaner_round c = (Ok tt, c') /\
    (_cache c = [] -> c' = c) /\
    (eviction_policy c = lit "entire" -> _cache c' = []) /\
    (eviction_policy c = lit "lru" ->
     forall x d, _cache c = x :: d -> _cache c' = d) /\
    (eviction_policy c <> lit "entire" -> eviction_policy c <> lit "lru" ->
     c' = c) /\
    cache_size_limit c' = cache_size_limit c /\
    eviction_policy c' = eviction_policy c /\
    hit_ttl c' = hit_ttl c.
Proof.
  unfold periodic_cache_cleaner_round, get_cache_size.
  destruct (_cache c) as [|x d] eqn:Hc.
  - exists c. simpl. split; [reflexivity|]. split; [reflexivity|].
    split; [auto|]. split; [intros _; discriminate|auto].
  - cbn [length]. replace (Z.of_nat (S (length d)) =? 0)%Z with false
      by (symmetry; apply Z.eqb_neq; lia).
    unfold evict. str_cases (eviction_policy c) (lit "entire").
    + eexists. split; [reflexivity|]. simpl.
      split; [discriminate|]. split; [reflexivity|].
      split; [intros Hl; rewrite Hl in E; discriminate|].
      split; [congruence|auto].
    + str_cases (eviction_policy c) (lit "lru").
      * rewrite Hc. simpl. eexists. split; [reflexivity|]. simpl.
        split; [discriminate|]. split; [congruence|].
        split; [intros _ x' d' Hd; congruence|].
        split; [congruence|auto].
      * exists c. split; [now destruct (str_eqb _ (lit "none"))|].
        split; [reflexivity|]. split; [congruence|].
        split; [congruence|auto].
Qed.

End CacheMore.

Lemma has_cached_response_answer_witness :
  let c := Cache.step (Cache.CacheResponse (lit "K") 7)
             (Cache.new nat 10 (lit "lru") 3) in
  exists b c',
    Cache.has_cached_response (lit "K") c = (Ok b, c') /\
    (b = true <->
     exists e, Dict.get (lit "K") (Cache._cache c) = Some e /\
               Cache.HIT_TTL e <> 0%Z) /\
    (b = true -> c' = c).
Proof.
  intros c.
  destruct (has_cached_response_answer nat (lit "K") c)
    as (b & c' & H1 & H2 & H3 & _).
  - distinct_keys.
  - exists b, c'. split; [exact H1|]. split; [exact H2 | exact H3].
Defined.

Lemma remove_from_cache_effect_witness :
  let c := Cache.run [Cache.CacheResponse (lit "A") 1;
                      Cache.CacheResponse (lit "B") 2]
             (Cache.new nat 10 (lit "lru") 3) in
  Cache.remove_from_cache (lit "C") c = (Raise KeyError, c) /\
  exists c',
    Cache.remove_from_cache (lit "A") c = (Ok tt, c') /\
    Cache.keys_of c' =
      filter (fun x => negb (str_eqb x (lit "A"))) (Cache.keys_of c) /\
    Cache.get_cache_size c' = (Cache.get_cache_size c - 1)%Z.
Proof.
  intros c. split.
  - apply (proj1 (remove_from_cache_effect nat (lit "C") c ltac:(distinct_keys))).
    reflexivity.
  - destruct (proj2 (remove_from_cache_effect nat (lit "A") c
                       ltac:(distinct_keys))
                {| Cache.response := 1; Cache.HIT_TTL := 3 |} eq_refl)
      as (c' & H1 & _ & _ & H4 & H5).
    exists c'. split; [exact H1|]. split; [exact H4 | exact H5].
Defined.

Lemma get_cached_response_effect_witness :
  let c := Cache.run [Cache.CacheResponse (lit "A") 1;
                      Cache.CacheResponse (lit "B") 2]
             (Cache.new nat 10 (lit "lru") 3) in
  Cache.get_cached_response (lit "C") c = (Raise KeyError, c) /\
  exists c',
    Cache.get_cached_response (lit "A") c = (Ok 1, c') /\
    Cache.keys_of c' =
      filter (fun x => negb (str_eqb x (lit "A"))) (Cache.keys_of c)
      ++ [lit "A"] /\
    Cache.get_cache_size c' = Cache.get_cache_size c.
Proof.
  intros c. split.
  - apply (proj1 (get_cached_response_effect nat (lit "C") c
                    ltac:(distinct_keys))).
    reflexivity.
  - destruct (proj2 (get_cached_response_effect nat (lit "A") c
                       ltac:(distinct_keys))
                {| Cache.response := 1; Cache.HIT_TTL := 3 |} eq_refl)
      as (c' & H1 & H2 & H3 & _).
    exists c'. split; [exact H1|]. split; [exact H2 | exact H3].
Defined.

Lemma stored_response_is_served_witness :
  exists c1,
    Cache.cache_response (lit "K") 7 (Cache.new nat 10 (lit "lru") 3) =
      (Ok tt, c1) /\
    Cache.has_cached_response (lit "K") c1 = (Ok true, c1) /\
    exists c2, Cache.get_cached_response (lit "K") c1 = (Ok 7, c2).
Proof.
  destruct (stored_response_is_served nat (lit "K") 7
              (Cache.new nat 10 (lit "lru") 3))
    as (c1 & H1 & _ & H3 & _).
  - apply NoDup_nil.
  - simpl. lia.
  - destruct (H3 ltac:(simpl; lia)) as (Hhas & c2 & Hget & _).
    exists c1. split; [exact H1|]. split; [exact Hhas|].
    exists c2. exact Hget.
Defined.

Lemma cache_response_with_room_witness :
  let c := Cache.run [Cache.CacheResponse (lit "A") 1;
                      Cache.CacheResponse (lit "B") 2;
                      Cache.GetCachedResponse (lit "A")]
             (Cache.new nat 10 (lit "lru") 3) in
  exists c',
    Cache.cache_response (lit "B") 5 c = (Ok tt, c') /\
    Dict.get (lit "B") (Cache._cache c') =
      Some {| Cache.response := 5; Cache.HIT_TTL := 3 |} /\
    Cache.keys_of c' = [lit "B"; lit "A"].
Proof.
  intros c.
  destruct (cache_response_with_room nat (lit "B") 5 c)
    as (c' & H1 & H2 & _ & H4 & _).
  - simpl. lia.
  - vm_compute. reflexivity.
  - exists c'. split; [exact H1|]. split; [exact H2 | exact H4].
Defined.

Lemma lru_store_at_capacity_witness :
  let c := Cache.run [Cache.CacheResponse (lit "A") 1;
                      Cache.CacheResponse (lit "B") 2]
             (Cache.new nat 2 (lit "lru") 3) in
  exists c',
    Cache.cache_response (lit "B") 5 c = (Ok tt, c') /\
    Cache.keys_of c' = [lit "B"] /\
    Cache.get_cache_size c' = 1%Z.
Proof.
  intros c.
  destruct (lru_store_at_capacity nat (lit "B") 5 c
              (lit "A", {| Cache.response := 1; Cache.HIT_TTL := 3 |})
              [(lit "B", {| Cache.response := 2; Cache.HIT_TTL := 3 |})])
    as (c' & H1 & _ & H3 & _).
  - reflexivity.
  - reflexivity.
  - simpl. lia.
  - vm_compute. discriminate.
  - destruct (H3 eq_refl) as (Hk & Hs).
    exists c'. split; [exact H1|]. split; [exact Hk | exact Hs].
Defined.

Lemma entire_store_at_capacity_witness :
  let c := Cache.run [Cache.CacheResponse (lit "A") 1;
                      Cache.CacheResponse (lit "B") 2]
             (Cache.new nat 2 (lit "entire") 3) in
  exists c',
    Cache.cache_response (lit "C") 5 c = (Ok tt, c') /\
    Cache._cache c' =
      [(lit "C", {| Cache.response := 5; Cache.HIT_TTL := 3 |})].
Proof.
  intros c.
  destruct (entire_store_at_capacity nat (lit "C") 5 c)
    as (c' & H1 & H2 & _).
  - reflexivity.
  - simpl. lia.
  - vm_compute. discriminate.
  - exists c'. split; [exact H1 | exact H2].
Defined.

Lemma negative_hit_ttl_never_expires_witness :
  exists c1 c2,
    Cache.cache_response (lit "K") 7 (Cache.new nat 10 (lit "lru") (-1)) =
      (Ok tt, c1) /\
    Cache.hits 5 (lit "K") c1 = (Ok [7; 7; 7; 7; 7], c2) /\
    Cache.has_cached_response (lit "K") c2 = (Ok true, c2).
Proof.
  destruct (negative_hit_ttl_never_expires nat (lit "K") 7 5
              (Cache.new nat 10 (lit "lru") (-1)))
    as (c1 & c2 & H1 & H2 & _ & H4).
  - apply NoDup_nil.
  - simpl. lia.
  - simpl. lia.
  - exists c1, c2. split; [exact H1|]. split; [exact H2 | exact H4].
Defined.

(** ** The header set *)

Section HeaderMore.
Import Text Http.
Local Open Scope N_scope.

Lemma isspace_norm_char c : isspace (norm_char c) = isspace c.
Proof.
  destruct (isspace c) eqn:E; char_cases.
Qed.

Lemma norm_char_idem c : norm_char (norm_char c) = norm_char c.
Proof. char_cases. Qed.

Lemma dropwhile_map {A} (blank : A -> bool) (f : A -> A) s :
  (forall c, blank (f c) = blank c) ->
  dropwhile blank (map f s) = map f (dropwhile blank s).
Proof.
  intros Hf. induction s as [|c s IH]; [reflexivity|].
  cbn [map dropwhile]. rewrite Hf. now destruct (blank c).
Qed.

Lemma strip_by_map {A} (blank : A -> bool) (f : A -> A) s :
  (forall c, blank (f c) = blank c) ->
  strip_by blank (map f s) = map f (strip_by blank s).
Proof.
  intros Hf. unfold strip_by.
  rewrite dropwhile_map, <- map_rev, dropwhile_map, map_rev by assumption.
  reflexivity.
Qed.

Lemma normalize_header_idem s :
  _normalize_header (_normalize_header s) = _normalize_header s.
Proof.
  rewrite !normalize_header_eq. unfold strip.
  rewrite (strip_by_map isspace norm_char) by apply isspace_norm_char.
  rewrite strip_by_idem, map_map.
  apply map_ext. apply norm_char_idem.
Qed.

(** Formatting then normalizing an ASCII text without hyphens and capital
    letters gives the text back. *)
Lemma norm_format_ascii b k :
  Forall (fun c => c <> 45 /\ is_upper_ascii c = false /\ c < 128) k ->
  map norm_char (format_from b k) = k.
Proof.
  intros Hk. revert b.
  induction Hk as [|c k (H2 & H3 & H4) _ IH]; intros b; [reflexivity|].
  cbn [format_from]. destruct (N.eqb_spec 95 c) as [<-|Hn].
  - cbn [map]. rewrite IH. reflexivity.
  - rewrite map_app, IH.
    assert (Hone : map norm_char (if b then title_char c else [lower_char c])
                   = [c]).
    { destruct b.
      - unfold title_char. destruct (is_lower_ascii c) eqn:E.
        + cbn [map]. f_equal. char_cases.
        + destruct (c =? sharp_s) eqn:E'; [char_cases|].
          cbn [map]. f_equal. char_cases.
      - cbn [map]. f_equal. char_cases. }
    now rewrite Hone.
Qed.

Lemma normalized_chars s :
  ascii s ->
  Forall (fun c => c <> 45 /\ is_upper_ascii c = false /\ c < 128)
    (_normalize_header s).
Proof.
  intros Ha. rewrite normalize_header_eq. apply Forall_map.
  apply (Forall_strip_by isspace) in Ha. fold (strip s) in Ha.
  eapply Forall_impl; [|exact Ha]. intros c Hc. cbv beta in Hc.
  split; [|split]; char_cases.
Qed.

Lemma normalize_format s :
  ascii s ->
  _normalize_header (_format_header (_normalize_header s)) =
  _normalize_header s.
Proof.
  intros Ha.
  rewrite (normalize_header_eq (_format_header _)), format_header_eq.
  unfold strip.
  rewrite <- (strip_by_map isspace norm_char) by apply isspace_norm_char.
  rewrite (norm_format_ascii true _ (normalized_chars s Ha)).
  fold (strip (_normalize_header s)).
  rewrite <- (normalize_header_idem s) at 2.
  rewrite (normalize_header_eq (_normalize_header s)).
  rewrite <- (map_id (strip (_normalize_header s))) at 1.
  apply map_ext_in. intros c Hc.
  pose proof (normalized_chars s Ha) as Hn.
  apply (Forall_strip_by isspace) in Hn. fold (strip (_normalize_header s)) in Hn.
  rewrite Forall_forall in Hn. destruct (Hn c Hc) as (H1 & H2 & H3).
  char_cases.
Qed.

(** X10: a header name is normalized character by character: blanks at both
    ends go, a hyphen becomes an underscore, a capital letter its small
    letter.  Normalizing twice changes nothing more; for an ASCII name the
    wire form made by [_format_header] normalizes back to the same name, so
    [get_header] finds the same values under a name, under its normal form
    and under its wire form. *)
Theorem header_name_forms (s : str) (h : HTTPHeaders) :
  ascii s ->
  _normalize_header s = map norm_char (strip s) /\
  _normalize_header (_normalize_header s) = _normalize_header s /\
  _normalize_header (_format_header (_normalize_header s)) =
    _normalize_header s /\
  get_header h (_normalize_header s) = get_header h s /\
  get_header h (_format_header (_normalize_header s)) = get_header h s.
Proof.
  intros Ha.
  split; [apply normalize_header_eq|].
  split; [apply normalize_header_idem|].
  split; [now apply normalize_format|].
  unfold get_header.
  now rewrite normalize_header_idem, normalize_format.
Qed.

Lemma replace_encodable h name values :
  encodable_headers h -> Forall encodable values ->
  Dict.get (_normalize_header name) (headers h) <> None ->
  exists h', replace h name values = Ok (h', true).
Proof.
  intros (Hs & Hd) Hv Hg. unfold replace.
  destruct (Dict.get (_normalize_header name) (headers h)) as [old|] eqn:G;
    [|congruence].
  assert (He : encodable_headers
                 (with_headers h
                    (Dict.set (_normalize_header name) values (headers h)))).
  { split; [exact Hs|]. cbn [headers with_headers].
    apply Forall_set; [assumption|]. cbn [fst snd].
    split; [|assumption].
    apply get_In in G. rewrite Forall_forall in Hd.
    apply Hd in G. exact (proj1 G). }
  destruct (update_raw_bytes_encodable _ He) as (h' & Hu).
  rewrite Hu. eauto.
Qed.

Lemma delete_encodable h name :
  encodable_headers h ->
  Dict.get (_normalize_header name) (headers h) <> None ->
  exists h', delete h name = Ok (h', true).
Proof.
  intros (Hs & Hd) Hg. unfold delete, Dict.pop.
  destruct (Dict.get (_normalize_header name) (headers h)) as [old|] eqn:G;
    [|congruence].
  assert (He : encodable_headers
                 (with_headers h
                    (Dict.remove (_normalize_header name) (headers h)))).
  { split; [exact Hs|]. cbn [headers with_headers]. now apply Forall_remove. }
  destruct (update_raw_bytes_encodable _ He) as (h' & Hu).
  rewrite Hu. eauto.
Qed.




End HeaderMore.

Section ConstructionMore.
Import Text Http.
Local Open Scope N_scope.

(** Once a line was kept, [_unfold_lines] does not fail any more, and the
    line kept first stays the beginning of the first line of the result. *)
Lemma unfold_loop_started lines : forall others first folded,
  exists folded' out,
    _unfold_lines_loop lines (others ++ [first ++ folded]) =
    Ok ((first ++ folded') :: out).
Proof.
  induction lines as [|line lines IH]; intros others first folded.
  - cbn [_unfold_lines_loop]. rewrite rev_app_distr. cbn [rev app]. eauto.
  - cbn [_unfold_lines_loop].
    destruct (strip line) as [|c0 s0] eqn:El; [apply IH|].
    destruct (starts_with [32] line || starts_with [9] line).
    + destruct others as [|o os]; cbn [app].
      * rewrite <- app_assoc. apply (IH []).
      * apply (IH ((o ++ [32] ++ c0 :: s0) :: os)).
    + apply (IH (line :: others)).
Qed.

Lemma unfold_lines_outcome lines :
  match find (fun l => negb (Shapes.is_blank l)) lines with
  | None => _unfold_lines lines = Ok []
  | Some first =>
      if Shapes.is_continuation first
      then _unfold_lines lines = Raise IndexError
      else exists folded out, _unfold_lines lines = Ok ((first ++ folded) :: out)
  end.
Proof.
  unfold _unfold_lines.
  induction lines as [|line lines IH]; [reflexivity|].
  cbn [find _unfold_lines_loop]. unfold Shapes.is_blank at 1.
  destruct (strip line) as [|c0 s0] eqn:El; cbn [negb]; [exact IH|].
  unfold Shapes.is_continuation.
  destruct (starts_with [32] line || starts_with [9] line); [reflexivity|].
  destruct (unfold_loop_started lines [] line []) as (folded & out & H).
  cbn [app] in H. rewrite app_nil_r in H. eauto.
Qed.


Lemma In_get {E} k (e : E) (d : Dict.t E) :
  Dict.wf d -> In (k, e) d -> Dict.get k d = Some e.
Proof.
  unfold Dict.wf, Dict.keys.
  induction d as [|[k' e'] d IH]; intros Hwf Hin; [contradiction|].
  cbn [map fst] in Hwf. apply NoDup_cons_iff in Hwf as (Hnot & Hwf).
  cbn [Dict.get]. destruct Hin as [Heq|Hin].
  - injection Heq as -> ->. now rewrite str_eqb_refl.
  - str_cases k k'.
    + exfalso. apply Hnot. apply in_map_iff. now exists (k', e).
    + now apply IH.
Qed.

Lemma normalize_normal_name k : normal_name k -> _normalize_header k = k.
Proof.
  intros (_ & Hk). rewrite normalize_header_eq.
  rewrite strip_name
    by (eapply Forall_impl; [|exact Hk]; intros c Hc; exact (proj1 Hc)).
  rewrite <- (map_id k) at 2. apply map_ext_in. intros c Hc.
  rewrite Forall_forall in Hk. destruct (Hk c Hc) as (H1 & H2 & H3).
  char_cases.
Qed.


End ConstructionMore.

Lemma header_name_forms_witness :
  Http._normalize_header (lit " Content-Length ") = lit "content_length" /\
  Http._format_header (lit "content_length") = lit "Content-Length" /\
  Http.get_header Examples.two_values_headers (lit "X-A") =
  Http.get_header Examples.two_values_headers (lit " x_a").
Proof.
  assert (Ha : Http.ascii (lit " x_a")).
  { apply Forall_forall. intros c Hc. apply N.ltb_lt.
    revert c Hc. apply forallb_forall. reflexivity. }
  split; [reflexivity|]. split; [reflexivity|].
  destruct (header_name_forms (lit " x_a") Examples.two_values_headers Ha)
    as (_ & _ & _ & _ & H).
  rewrite <- H. reflexivity.
Defined.

Lemma two_values_encodable :
  Http.HTTPHeaders_init Examples.two_values = Ok Examples.two_values_headers /\
  Http.encodable_headers Examples.two_values_headers /\
  Dict.wf (Http.headers Examples.two_values_headers).
Proof.
  assert (E : Http.HTTPHeaders_init Examples.two_values =
              Ok Examples.two_values_headers) by (vm_compute; reflexivity).
  split; [exact E|]. split.
  - apply parsed_shape_encodable. exact (HTTPHeaders_init_shape _ _ E).
  - exact (HTTPHeaders_init_wf _ _ E).
Qed.

Lemma lit_encodable (s : string) :
  forallb Text.in_repertoire (lit s) = true -> Http.encodable (lit s).
Proof. intros H. apply Forall_forall. now apply forallb_forall. Qed.






(** ** The stream reader and the message builder *)

Section ReaderMore.
Import Text Http.
Local Open Scope N_scope.

Lemma bind_lift_ok {S A B} (a : A) (f : A -> M S B) (s : S) :
  bind (lift (Ok a)) f s = f a s.
Proof. reflexivity. Qed.

Lemma byte_eqb_neq (x y : Byte.byte) : x <> y -> Byte.eqb x y = false.
Proof.
  intros H. destruct (Byte.eqb x y) eqn:E; [|reflexivity].
  apply Byte.byte_dec_bl in E. contradiction.
Qed.

Lemma starts_with_bytes_app sep r : starts_with_bytes sep (sep ++ r) = true.
Proof.
  induction sep as [|x sep IH]; [reflexivity|].
  cbn [app starts_with_bytes]. now rewrite (Byte.byte_dec_lb eq_refl), IH.
Qed.

Lemma starts_with_bytes_true sep buf :
  starts_with_bytes sep buf = true -> buf = sep ++ skipn (length sep) buf.
Proof.
  revert buf. induction sep as [|x sep IH]; intros buf H; [reflexivity|].
  destruct buf as [|y buf]; [discriminate|].
  cbn [starts_with_bytes] in H. apply andb_true_iff in H as (H1 & H2).
  apply Byte.byte_dec_bl in H1. subst y.
  cbn [length skipn app]. f_equal. now apply IH.
Qed.

(** What was found: the data before the separator, and the rest. *)
Lemma find_separator_some sep buf : forall before data rest,
  find_separator sep buf before = Some (data, rest) ->
  exists mid, data = rev mid ++ before /\ buf = mid ++ sep ++ rest.
Proof.
  induction buf as [|b r IH]; intros before data rest H; [discriminate|].
  cbn [find_separator] in H.
  destruct (starts_with_bytes sep (b :: r)) eqn:E.
  - injection H as <- <-. exists []. split; [reflexivity|].
    now apply starts_with_bytes_true.
  - apply IH in H as (mid & -> & ->). exists (b :: mid).
    cbn [rev app]. now rewrite <- app_assoc.
Qed.

(** The separator is found where it first occurs. *)
Lemma find_separator_occurs sep buf : forall a b before,
  buf = a ++ sep ++ b -> sep <> [] ->
  exists data rest,
    find_separator sep buf before = Some (data, rest) /\
    (length data <= length a + length before)%nat.
Proof.
  induction buf as [|x r IH]; intros a b before Hbuf Hsep.
  - destruct a; destruct sep; try discriminate. congruence.
  - cbn [find_separator].
    destruct (starts_with_bytes sep (x :: r)) eqn:E.
    + do 2 eexists. split; [reflexivity|]. lia.
    + destruct a as [|y a].
      * cbn [app] in Hbuf. rewrite Hbuf, starts_with_bytes_app in E.
        discriminate.
      * injection Hbuf as -> Hr.
        destruct (IH a b (y :: before) Hr Hsep) as (data & rest & Hf & Hl).
        exists data, rest. split; [exact Hf|]. cbn [length] in *. lia.
Qed.

Lemma find_separator_none sep buf : forall before,
  (forall a b, buf <> a ++ sep ++ b) ->
  find_separator sep buf before = None.
Proof.
  induction buf as [|x r IH]; intros before Hno; [reflexivity|].
  cbn [find_separator].
  destruct (starts_with_bytes sep (x :: r)) eqn:E.
  - apply starts_with_bytes_true in E. exfalso. exact (Hno [] _ E).
  - apply IH. intros a b Hr. apply (Hno (x :: a) b). cbn [app]. now f_equal.
Qed.

(** X16: [read_headers] returns the bytes up to and including the first
    CR LF CR LF and leaves what follows unread: when the stream holds the
    separator after at most 65536 bytes, the call returns, the bytes
    returned end with the separator, and followed by the unread bytes they
    are the stream.  A stream of at most 65536 bytes that ends without the
    separator makes it raise [IncompleteReadError]. *)
Theorem read_headers_outcome (stream : bytes) :
  (forall a b,
     stream = a ++ (CRLF ++ CRLF) ++ b ->
     N.of_nat (length a) <= DEFAULT_LIMIT ->
     exists raw_headers self' before,
       read_headers (AsyncHTTPStreamReader_init stream) =
         (Ok raw_headers, self') /\
       raw_headers = before ++ CRLF ++ CRLF /\
       stream = raw_headers ++ reader self' /\
       (length before <= length a)%nat) /\
  (N.of_nat (length stream) <= DEFAULT_LIMIT ->
   (forall a b, stream <> a ++ (CRLF ++ CRLF) ++ b) ->
   fst (read_headers (AsyncHTTPStreamReader_init stream)) =
     Raise IncompleteReadError).
Proof.
  unfold read_headers, on_reader, readuntil.
  cbn [reader AsyncHTTPStreamReader_init]. split.
  - intros a b Hs Hlim.
    destruct (find_separator_occurs (CRLF ++ CRLF) stream a b [] Hs
                ltac:(discriminate)) as (data & rest & Hf & Hl).
    rewrite Hf.
    destruct (find_separator_some _ _ _ _ _ Hf) as (mid & Hd & Hm).
    rewrite app_nil_r in Hd. cbn [length] in Hl.
    replace (N.of_nat (length data) <=? DEFAULT_LIMIT) with true
      by (symmetry; apply N.leb_le; lia).
    exists (rev data ++ CRLF ++ CRLF). eexists. exists (rev data).
    split; [reflexivity|]. split; [reflexivity|]. cbn [reader].
    split; [|rewrite length_rev; lia].
    rewrite Hd, rev_involutive, <- app_assoc. exact Hm.
  - intros _ Hno. now rewrite (find_separator_none _ _ [] Hno).
Qed.

Lemma find_separator_line line : forall rest before,
  Forall (fun b => b <> byte_of 10) line ->
  find_separator CRLF (line ++ CRLF ++ rest) before =
  Some (rev line ++ before, rest).
Proof.
  induction line as [|b l IH]; intros rest before Hl; [reflexivity|].
  inversion Hl as [|? ? Hb Hl']; subst.
  cbn [app find_separator].
  assert (E : starts_with_bytes CRLF (b :: l ++ CRLF ++ rest) = false).
  { unfold CRLF at 1. cbn [starts_with_bytes].
    destruct l as [|y l0]; cbn [app].
    - unfold CRLF. cbn [app]. apply andb_false_iff. right. reflexivity.
    - inversion Hl' as [|? ? Hy _]; subst.
      apply andb_false_iff. right.
      rewrite byte_eqb_neq; [reflexivity|]. congruence. }
  rewrite E, IH by assumption. cbn [rev]. now rewrite <- app_assoc.
Qed.

Lemma readuntil_line line rest :
  Shapes.size_line_shape line ->
  readuntil CRLF (line ++ CRLF ++ rest) = (Ok (line ++ CRLF), rest).
Proof.
  intros (Hl & Hlen). unfold readuntil.
  rewrite find_separator_line by assumption.
  rewrite app_nil_r, length_rev, rev_involutive.
  now replace (N.of_nat (length line) <=? DEFAULT_LIMIT) with true
    by (symmetry; now apply N.leb_le).
Qed.

Lemma readuntil_empty_line rest :
  readuntil CRLF (CRLF ++ rest) = (Ok CRLF, rest).
Proof. reflexivity. Qed.

Lemma readexactly_app data rest :
  readexactly (Z.of_nat (length data)) (data ++ rest) = (Ok data, rest).
Proof.
  unfold readexactly.
  replace (Z.of_nat (length data) <? 0)%Z with false
    by (symmetry; apply Z.ltb_ge; lia).
  replace (Z.of_nat (length (data ++ rest)) <? Z.of_nat (length data))%Z
    with false by (symmetry; apply Z.ltb_ge; rewrite length_app; lia).
  rewrite Nat2Z.id. f_equal.
  - f_equal. induction data; cbn [length firstn app]; [now destruct rest|].
    now f_equal.
  - induction data; cbn [length skipn app]; [reflexivity|assumption].
Qed.

Lemma read_chunked_loop_decodes chunks last_line trailer rest :
  Forall (fun chunk =>
            Shapes.size_line_shape (fst chunk) /\ snd chunk <> [] /\
            chunk_size (fst chunk ++ CRLF) =
              Ok (Z.of_nat (length (snd chunk)))) chunks ->
  Shapes.size_line_shape last_line ->
  chunk_size (last_line ++ CRLF) = Ok 0%Z ->
  Shapes.size_line_shape trailer ->
  forall fuel body,
    (length chunks < fuel)%nat ->
    _read_chunked_loop fuel body
      (Shapes.chunked_stream chunks last_line trailer rest) =
    (Ok (body ++ concat (map snd chunks)), rest).
Proof.
  intros Hchunks Hlast Hzero Htrailer.
  induction Hchunks as [|[size_line data] chunks (Hs & Hne & Hsize) _ IH];
    intros fuel body Hfuel.
  - destruct fuel as [|fuel]; [cbn [length] in Hfuel; lia|].
    unfold Shapes.chunked_stream. cbn [flat_map app _read_chunked_loop].
    unfold bind at 1. rewrite readuntil_line by assumption.
    unfold bind at 1, lift at 1. rewrite Hzero. cbn [Z.eqb].
    unfold bind at 1. rewrite readuntil_line by assumption.
    unfold ret. cbn [map concat]. now rewrite app_nil_r.
  - destruct fuel as [|fuel]; [cbn [length] in Hfuel; lia|].
    cbn [fst snd] in *.
    unfold Shapes.chunked_stream. cbn [flat_map fst snd].
    rewrite <- !app_assoc.
    cbn [_read_chunked_loop].
    unfold bind at 1. rewrite readuntil_line by assumption.
    unfold bind at 1, lift at 1. rewrite Hsize.
    replace (Z.of_nat (length data) =? 0)%Z with false
      by (symmetry; apply Z.eqb_neq; destruct data; [congruence|];
          cbn [length]; lia).
    unfold bind at 1. rewrite readexactly_app.
    unfold bind at 1.
    rewrite readuntil_empty_line.
    fold (Shapes.chunked_stream chunks last_line trailer rest).
    rewrite IH by (cbn [length] in Hfuel; lia).
    cbn [map concat fst snd]. now rewrite <- app_assoc.
Qed.

Lemma chunked_stream_length chunks last_line trailer rest :
  (length chunks <=
   length (Shapes.chunked_stream chunks last_line trailer rest))%nat.
Proof.
  unfold Shapes.chunked_stream. rewrite length_app.
  assert (H : (length chunks <=
               length (flat_map
                         (fun chunk : bytes * bytes =>
                            fst chunk ++ CRLF ++ snd chunk ++ CRLF) chunks))%nat).
  { induction chunks as [|c chunks IH]; [cbn [length]; lia|].
    cbn [flat_map length]. rewrite !length_app.
    change (length CRLF) with 2%nat. lia. }
  eapply Nat.le_trans; [exact H | apply Nat.le_add_r].
Qed.

(** X17: [_read_chunked] decodes a chunked body.  Take a stream made of
    chunks, each a size line whose size field reads as the length of the
    data that follows it, then a last size line that reads as 0 and one more
    line; every size line is free of line feeds and within the limit of the
    stream.  The call returns the data of the chunks, one after the other,
    and leaves unread exactly what follows that last line. *)
Theorem read_chunked_decodes chunks last_line trailer rest self :
  Forall (fun chunk =>
            Shapes.size_line_shape (fst chunk) /\ snd chunk <> [] /\
            chunk_size (fst chunk ++ CRLF) =
              Ok (Z.of_nat (length (snd chunk)))) chunks ->
  Shapes.size_line_shape last_line ->
  chunk_size (last_line ++ CRLF) = Ok 0%Z ->
  Shapes.size_line_shape trailer ->
  reader self = Shapes.chunked_stream chunks last_line trailer rest ->
  _read_chunked self =
    (Ok (concat (map snd chunks)),
     {| reader := rest; _body_reader_type := _body_reader_type self;
        _content_length := _content_length self |}).
Proof.
  intros Hchunks Hlast Hzero Htrailer Hreader.
  unfold _read_chunked, on_reader. rewrite Hreader.
  rewrite (read_chunked_loop_decodes chunks last_line trailer rest
             Hchunks Hlast Hzero Htrailer).
  - reflexivity.
  - apply Nat.lt_succ_r. apply chunked_stream_length.
Qed.

(** X18: the body of a message that is not chunked.  Let the headers give
    the size [n] through Content-Length (0 when the header is absent).  For
    [n = 0] the body is empty and nothing is read; for a negative [n] the
    builder raises [ValueError]; for [n > 0] it raises
    [IncompleteReadError] when fewer than [n] bytes arrive before the end of
    the stream, and otherwise the body is the next [n] bytes exactly and the
    bytes after them stay unread.  The header set is returned as it was. *)
Theorem content_length_body h n (self : AsyncHTTPStreamReader) :
  _expect_chunked_body h = Ok false ->
  _expected_body_size h = Ok n ->
  (n = 0%Z ->
   _build_body h self = (Ok (h, {| body_raw := [] |}), self)) /\
  ((n < 0)%Z -> fst (_build_body h self) = Raise ValueError) /\
  ((0 < n)%Z -> (Z.of_nat (length (reader self)) < n)%Z ->
   fst (_build_body h self) = Raise IncompleteReadError) /\
  ((0 < n)%Z -> (n <= Z.of_nat (length (reader self)))%Z ->
   exists self',
     _build_body h self =
       (Ok (h, {| body_raw := firstn (Z.to_nat n) (reader self) |}), self') /\
     reader self' = skipn (Z.to_nat n) (reader self) /\
     length (firstn (Z.to_nat n) (reader self)) = Z.to_nat n).
Proof.
  intros Hc Hn. unfold _build_body.
  rewrite Hc, bind_lift_ok. cbv beta iota.
  rewrite Hn, bind_lift_ok. cbv beta.
  split; [|split; [|split]].
  - intros ->. reflexivity.
  - intros Hneg.
    replace (n =? 0)%Z with false by (symmetry; apply Z.eqb_neq; lia).
    cbv [bind set_body_reader_type set_content_length read_body
         _body_reader_type _read_exactly on_reader _content_length reader
         readexactly].
    replace (n <? 0)%Z with true by (symmetry; apply Z.ltb_lt; lia).
    reflexivity.
  - intros Hpos Hshort.
    replace (n =? 0)%Z with false by (symmetry; apply Z.eqb_neq; lia).
    cbv [bind set_body_reader_type set_content_length read_body
         _body_reader_type _read_exactly on_reader _content_length reader
         readexactly].
    replace (n <? 0)%Z with false by (symmetry; apply Z.ltb_ge; lia).
    destruct self as [buf t cl]. cbn [reader] in Hshort.
    replace (Z.of_nat (length buf) <? n)%Z with true
      by (symmetry; apply Z.ltb_lt; exact Hshort).
    reflexivity.
  - intros Hpos Henough.
    replace (n =? 0)%Z with false by (symmetry; apply Z.eqb_neq; lia).
    cbv [bind set_body_reader_type set_content_length read_body
         _body_reader_type _read_exactly on_reader _content_length reader
         readexactly].
    replace (n <? 0)%Z with false by (symmetry; apply Z.ltb_ge; lia).
    destruct self as [buf t cl]. cbn [reader] in Henough.
    replace (Z.of_nat (length buf) <? n)%Z with false
      by (symmetry; apply Z.ltb_ge; lia).
    eexists. split; [reflexivity|]. cbn [reader]. split; [reflexivity|].
    apply firstn_length_le. lia.
Qed.

End ReaderMore.

Lemma read_headers_outcome_witness :
  let stream := (Examples.get_x ++ Text.blit "abc")%list in
  exists raw_headers self',
    Http.read_headers (Http.AsyncHTTPStreamReader_init stream) =
      (Ok raw_headers, self') /\
    stream = (raw_headers ++ Http.reader self')%list.
Proof.
  intros stream.
  destruct (proj1 (read_headers_outcome stream)
              (Http.wire ["GET /x HTTP/1.1"]%string
               ++ Text.blit "Host: localhost")%list
              (Text.blit "abc") eq_refl)
    as (raw_headers & self' & before & H1 & _ & H3 & _).
  - vm_compute. discriminate.
  - exists raw_headers, self'. split; [exact H1 | exact H3].
Defined.

Lemma read_chunked_decodes_witness :
  let self :=
    Http.AsyncHTTPStreamReader_init
      (Http.wire ["4"; "Wiki"; "5;ext=1"; "pedia"; "0"; ""]%string
       ++ Text.blit "next") in
  exists self',
    Http._read_chunked self = (Ok (Text.blit "Wikipedia"), self') /\
    Http.reader self' = Text.blit "next".
Proof.
  intros self.
  assert (Hshape : forall s,
            forallb (fun b => negb (Byte.eqb b (Text.byte_of 10)))
              (Text.blit s) = true ->
            (N.of_nat (length (Text.blit s)) <=? Http.DEFAULT_LIMIT)%N = true ->
            Shapes.size_line_shape (Text.blit s)).
  { intros s H1 H2. split; [|now apply N.leb_le].
    apply Forall_forall. intros b Hb Heq.
    rewrite forallb_forall in H1. specialize (H1 b Hb).
    rewrite Heq in H1. discriminate. }
  eexists. split.
  - apply (read_chunked_decodes
             [(Text.blit "4", Text.blit "Wiki");
              (Text.blit "5;ext=1", Text.blit "pedia")]
             (Text.blit "0") (Text.blit "") (Text.blit "next") self).
    + repeat constructor; try discriminate;
        apply Hshape; reflexivity.
    + apply Hshape; reflexivity.
    + reflexivity.
    + apply Hshape; reflexivity.
    + reflexivity.
  - reflexivity.
Defined.

Lemma content_length_body_witness :
  let h := Http.msg_headers Examples.post_request in
  exists self',
    Http._build_body h (Http.AsyncHTTPStreamReader_init (Text.blit "abcdef")) =
    (Ok (h, {| Http.body_raw := Text.blit "abc" |}), self') /\
    Http.reader self' = Text.blit "def".
Proof.
  intros h.
  destruct (proj2 (proj2 (proj2
              (content_length_body h 3
                 (Http.AsyncHTTPStreamReader_init (Text.blit "abcdef"))
                 eq_refl eq_refl)))
              ltac:(lia) ltac:(cbn; lia))
    as (self' & H1 & H2 & _).
  exists self'. split; [exact H1 | exact H2].
Defined.

(** ** The handler *)

Section ServerMore.
Import Text Http Server.
Local Open Scope N_scope.

Lemma split_str_go_none s : forall cur,
  Shapes.adjacent_slashes s = false ->
  split_str_go (lit "//") s O cur = [rev cur ++ s].
Proof.
  induction s as [|c r IH]; intros cur H.
  - cbn [split_str_go]. now rewrite app_nil_r.
  - assert (E : starts_with (lit "//") (c :: r) = false /\
                Shapes.adjacent_slashes r = false).
    { change (lit "//") with [47; 47]. destruct r as [|d r'].
      - split; [|reflexivity]. cbn [starts_with]. apply andb_false_r.
      - cbn [Shapes.adjacent_slashes] in H.
        apply orb_false_iff in H as (H1 & H2). split.
        + cbn [starts_with]. rewrite andb_true_r.
          now rewrite (N.eqb_sym 47 c), (N.eqb_sym 47 d).
        + destruct r'; [reflexivity|exact H2]. }
    destruct E as (E1 & E2).
    cbn [split_str_go]. rewrite E1, IH by assumption.
    cbn [rev]. now rewrite <- app_assoc.
Qed.

Lemma split_str_go_scheme scheme rest : forall cur,
  Forall (fun c => c <> 47) scheme ->
  split_str_go (lit "//") (scheme ++ lit "//" ++ rest) O cur =
  (rev cur ++ scheme) :: split_str_go (lit "//") rest O [].
Proof.
  induction scheme as [|c s IH]; intros cur Hs.
  - change (lit "//") with [47; 47]. cbn [app split_str_go starts_with].
    rewrite !N.eqb_refl. cbn [andb length Nat.pred]. now rewrite app_nil_r.
  - inversion Hs as [|? ? Hc Hs']; subst.
    cbn [app split_str_go].
    assert (E : starts_with (lit "//") (c :: s ++ lit "//" ++ rest) = false).
    { change (lit "//") with [47; 47]. cbn [starts_with].
      apply andb_false_iff. left. apply N.eqb_neq. congruence. }
    rewrite E, IH by assumption. cbn [rev]. now rewrite <- app_assoc.
Qed.

(** X19: how the origin address is read from the URL.  A URL without two
    slashes in a row makes [_parse_origin_host_port] raise [IndexError]
    (so every connection is closed without a reply).  For a URL
    [scheme // rest], with no slash in [scheme] and no two slashes in a row
    in [rest], the host is [rest] without one final slash, path included if
    there is one, and the port is 443 when the scheme begins with "https"
    and 80 for every other scheme. *)
Theorem parse_origin_host_port_outcome (self : CachingProxyServer) :
  (Shapes.adjacent_slashes (origin_url self) = false ->
   _parse_origin_host_port self = Raise IndexError) /\
  (forall scheme rest,
     origin_url self = scheme ++ lit "//" ++ rest ->
     Forall (fun c => c <> 47) scheme ->
     Shapes.adjacent_slashes rest = false ->
     _parse_origin_host_port self =
       Ok (if ends_with (lit "/") rest then removelast rest else rest,
           if starts_with (lit "https") scheme then 443 else 80)).
Proof.
  unfold _parse_origin_host_port, split_str. split.
  - intros H. now rewrite split_str_go_none by exact H.
  - intros scheme rest -> Hs Hr.
    rewrite split_str_go_scheme by exact Hs.
    rewrite split_str_go_none by exact Hr. reflexivity.
Qed.

(** What [serve] leaves behind: when it returns, one message was written to
    the client and its connection was closed; when it raises, nothing was
    written to the client.  At most one message goes to the origin. *)
Lemma serve_outcome net origin_host origin_port request w r w' :
  serve net origin_host origin_port request w = (r, w') ->
  match r with
  | Ok _ =>
      client_closed w' = true /\ exists m, to_client w' = to_client w ++ [m]
  | _ => to_client w' = to_client w /\ client_closed w' = client_closed w
  end /\
  (to_origin w' = to_origin w \/ exists m, to_origin w' = to_origin w ++ [m]).
Proof.
  intros H.
  unfold serve, bind, lift, on_storage, _write_request_to_origin,
    _write_response_to_client_and_close in H.
  repeat (first
    [ match type of H with
      | context [Cache.has_cached_response ?k ?c] =>
          destruct (Cache.has_cached_response k c) as [[[]|?|] ?]
      | context [Cache.get_cached_response ?k ?c] =>
          destruct (Cache.get_cached_response k c) as [[?|?|] ?]
      | context [Cache.cache_response ?k ?v ?c] =>
          destruct (Cache.cache_response k v c) as [[[]|?|] ?]
      end
    | match type of H with
      | context [match ?x with _ => _ end] => destruct x
      | context [if ?b then _ else _] => destruct b
      end ];
    cbn [storage to_client to_origin client_closed cache_calls] in H);
    injection H as <- <-;
    cbn [client_closed to_client to_origin]; repeat split; eauto.
Qed.


Lemma replace_header_encodable stream request name values :
  build_from stream = Ok request -> Forall encodable values ->
  exists request', replace_header request name values = Ok request'.
Proof.
  unfold build_from. intros H Hv.
  destruct (build_message (AsyncHTTPStreamReader_init stream)) as [r rest] eqn:B.
  cbn [fst] in H. subst r. apply build_message_encodable in B.
  unfold replace_header.
  destruct (Dict.get (_normalize_header name) (headers (msg_headers request)))
    as [old|] eqn:G.
  - destruct (replace_encodable (msg_headers request) name values B Hv)
      as (h' & Hr); [congruence|]. rewrite Hr. eauto.
  - unfold replace. rewrite G. eauto.
Qed.



Lemma digits_are_digits d :
  Forall (fun c => is_digit_ascii c = true) (lit (NilEmpty.string_of_uint d)).
Proof.
  induction d; cbn [NilEmpty.string_of_uint lit list_ascii_of_string map];
    try constructor; try assumption; try reflexivity.
Qed.

Lemma str_of_N_good n : good_value (str_of_N n).
Proof.
  assert (Hd : Forall (fun c => is_digit_ascii c = true) (str_of_N n)).
  { unfold str_of_N, NilZero.string_of_uint.
    destruct (N.to_uint n); try apply digits_are_digits.
    repeat constructor. }
  split; [|split].
  - eapply Forall_impl; [|exact Hd]. intros c Hc. clear - Hc. char_cases.
  - apply strip_by_no_blank. eapply Forall_impl; [|exact Hd].
    intros c Hc. clear - Hc. char_cases.
  - apply str_of_N_encodable.
Qed.

Lemma CL_good n : good_item (CL, [str_of_N n]).
Proof.
  split; [|split; [|split]]; cbn [fst snd].
  - split; [discriminate|].
    repeat (constructor;
            [split; [reflexivity|split; [discriminate|reflexivity]]|]).
    constructor.
  - repeat (constructor; [reflexivity|]). constructor.
  - discriminate.
  - constructor; [apply str_of_N_good | constructor].
Qed.

Lemma dechunked_shape h body h' :
  parsed_shape h -> truthy (get_header h TE) = true ->
  _dechunk_body h body = Ok h' ->
  parsed_shape h' /\ encode_all (header_lines h') = Some (raw h').
Proof.
  intros (H1 & H2 & H3 & Hwf & Hd) Ht H.
  apply dechunk_body_ok in H as (Hh & Hs & Hr); try assumption.
  split; [|exact Hr].
  unfold parsed_shape. rewrite Hh, Hs.
  split; [assumption|]. split; [assumption|]. split; [assumption|].
  split; [apply wf_set; now apply wf_remove|].
  apply Forall_set; [now apply Forall_remove | apply CL_good].
Qed.

(** A header set in the shape that parsing gives, whose raw bytes are its
    serialization, is parsed again from these bytes. *)
Lemma reparse_serialized h :
  parsed_shape h -> encode_all (header_lines h) = Some (raw h) ->
  exists h2,
    HTTPHeaders_init (raw h) = Ok h2 /\
    start_line h2 = start_line h /\
    (Forall ascii (names h) -> headers h2 = headers h).
Proof.
  intros Hshape Hraw.
  destruct (serialize_parsed h Hshape) as (h1 & Hu & _ & _ & Hdec).
  unfold _update_raw_bytes in Hu. rewrite Hraw in Hu. injection Hu as <-.
  cbn [raw] in Hdec.
  destruct Hshape as (H1 & H2 & H3 & Hwf & Hd).
  pose proof (body_lines_shape _ Hd) as Hb.
  unfold HTTPHeaders_init, _parse_raw_headers, _decode_header_bytes.
  rewrite Hdec, text_lines_body.
  rewrite split_header_lines_serialized.
  2:{ apply Forall_app. split; [constructor; [assumption|] | repeat constructor].
      eapply Forall_impl; [|exact Hb]. intros l (Hl & _). exact Hl. }
  unfold _unfold_lines. rewrite <- app_assoc.
  rewrite unfold_own_lines.
  2:{ constructor; [assumption|].
      eapply Forall_impl; [|exact Hb]. intros l (_ & Hl & _). exact Hl. }
  2:{ repeat constructor. }
  cbn [rev app _parse_header_lines].
  eexists. split; [reflexivity|]. cbn [start_line headers].
  split; [reflexivity|]. intros Hascii.
  rewrite (parse_serialized_items (headers h) []);
    [reflexivity | exact Hwf | exact Hd |].
  unfold names, Dict.keys in Hascii.
  rewrite Forall_forall in *. intros item Hin. apply Hascii.
  now apply in_map.
Qed.

Lemma build_message_reparse reader0 message rest :
  build_message reader0 = (Ok message, rest) ->
  exists h2,
    HTTPHeaders_init (raw (msg_headers message)) = Ok h2 /\
    start_line h2 = start_line (msg_headers message) /\
    (Forall ascii (names (msg_headers message)) ->
     headers h2 = headers (msg_headers message)).
Proof.
  unfold build_message. intros H.
  apply bind_ok in H as (h & s1 & Hh & H).
  unfold _build_headers in Hh.
  apply bind_ok in Hh as (raw_headers & s0 & _ & Hh).
  apply lift_ok in Hh as (Hinit & _).
  pose proof (HTTPHeaders_init_shape _ _ Hinit) as Hshape.
  assert (Hsame : exists h2,
            HTTPHeaders_init (raw h) = Ok h2 /\
            start_line h2 = start_line h /\
            (Forall ascii (names h) -> headers h2 = headers h)).
  { destruct (HTTPHeaders_init_ok _ _ Hinit) as (Hr & _).
    rewrite Hr. exists h. auto. }
  apply bind_ok in H as ([h' body] & s2 & Hb & Hret).
  unfold ret in Hret. injection Hret as <- _. cbn [msg_headers fst].
  unfold _build_body in Hb.
  apply bind_ok in Hb as (chunked & s3 & Hc & Hb).
  apply lift_ok in Hc as (Hc & _).
  destruct chunked.
  - apply bind_ok in Hb as ([] & s4 & _ & Hb).
    apply bind_ok in Hb as (body_raw & s5 & _ & Hb).
    apply bind_ok in Hb as (h1 & s6 & Hd & Hret).
    unfold ret in Hret. injection Hret as <- _ _.
    apply lift_ok in Hd as (Hd & _).
    destruct (dechunked_shape _ _ _ Hshape (expect_chunked_truthy _ Hc) Hd)
      as (Hs1 & Hr1).
    now apply reparse_serialized.
  - apply bind_ok in Hb as (n & s4 & _ & Hb).
    destruct (n =? 0)%Z.
    + unfold ret in Hb. now injection Hb as <- _ _.
    + apply bind_ok in Hb as ([] & s5 & _ & Hb).
      apply bind_ok in Hb as ([] & s6 & _ & Hb).
      apply bind_ok in Hb as (body_raw & s7 & _ & Hret).
      unfold ret in Hret. now injection Hret as <- _ _.
Qed.


Lemma has_cached_response_miss {V} key (c c1 : Cache.InMemoryResponseCache V) :
  Dict.wf (Cache._cache c) ->
  Cache.has_cached_response key c = (Ok false, c1) ->
  Dict.wf (Cache._cache c1) /\
  Cache.cache_size_limit c1 = Cache.cache_size_limit c /\
  Cache.hit_ttl c1 = Cache.hit_ttl c.
Proof.
  intros Hwf H.
  destruct (Dict.get key (Cache._cache c)) as [e|] eqn:G.
  - destruct (Z.eq_dec (Cache.HIT_TTL e) 0) as [Hz|Hnz].
    + rewrite (has_cached_response_expired V _ _ _ G Hz) in H.
      injection H as <-. cbn [Cache._cache Cache.with_cache
        Cache.cache_size_limit Cache.hit_ttl].
      split; [now apply wf_remove | auto].
    + rewrite (has_cached_response_live V _ _ _ G Hnz) in H. discriminate.
  - rewrite (has_cached_response_absent V _ _ G) in H.
    injection H as <-. auto.
Qed.

Lemma cache_response_then_served {V} key (v : V) c :
  Dict.wf (Cache._cache c) ->
  (0 < Cache.cache_size_limit c)%Z -> Cache.hit_ttl c <> 0%Z ->
  exists c1,
    Cache.cache_response key v c = (Ok tt, c1) /\
    Cache.has_cached_response key c1 = (Ok true, c1) /\
    exists c2, Cache.get_cached_response key c1 = (Ok v, c2).
Proof.
  intros Hwf Hlim Httl.
  destruct (cache_response_stores V key v c Hwf Hlim)
    as (c1 & Hput & Hwf1 & G1 & _).
  exists c1. split; [exact Hput|]. split.
  - eapply has_cached_response_live; [exact G1|exact Httl].
  - pose proof (get_cached_response_present V key c1 _ G1) as Hget.
    cbv zeta in Hget. cbn [Cache.response] in Hget. eauto.
Qed.

Lemma built_response_rebuilt stream response :
  build_from stream = Ok response ->
  exists rebuilt,
    raw_build_response (raw (msg_headers response))
      (body_raw (msg_body response)) = Ok rebuilt /\
    start_line (msg_headers rebuilt) = start_line (msg_headers response).
Proof.
  unfold build_from. intros H.
  destruct (build_message (AsyncHTTPStreamReader_init stream)) as [r rest] eqn:B.
  cbn [fst] in H. subst r.
  destruct (build_message_reparse _ _ _ B) as (h2 & Hinit & Hs & _).
  unfold raw_build_response. rewrite Hinit. eauto.
Qed.


(** The two paths of a GET as equations. *)
Lemma serve_miss_eq net origin_host origin_port request w request' origin
    c1 response c2 response' :
  method request = GET ->
  replace_header request (lit "host")
    [origin_host ++ lit ":" ++ str_of_N origin_port] = Ok request' ->
  _open_connection_to_origin net origin_host origin_port = Ok origin ->
  Cache.has_cached_response (request_line request) (storage w) =
    (Ok false, c1) ->
  build_from (origin (message_raw request')) = Ok response ->
  Cache.cache_response (request_line request)
    {| header := raw (msg_headers response);
       body := body_raw (msg_body response) |} c1 = (Ok tt, c2) ->
  set_header response (lit "x_cached_by_proxy") [lit "MISS"] = Ok response' ->
  serve net origin_host origin_port request w =
  (Ok tt,
   {| storage := c2;
      to_origin := to_origin w ++ [message_raw request'];
      to_client := to_client w ++ [message_raw response'];
      client_closed := true;
      cache_calls :=
        (cache_calls w ++ [Cache.HasCachedResponse (request_line request)]) ++
        [Cache.CacheResponse (request_line request)
           {| header := raw (msg_headers response);
              body := body_raw (msg_body response) |}] |}).
Proof.
  intros Hm Hr Ho Hhas Hb Hput Hset.
  pose proof (replace_header_same_line _ _ _ _ Hr) as (Hl & _).
  pose proof (method_same_line _ _ Hl) as Hm'.
  assert (Hy : str_eqb (method request') GET = true).
  { apply str_eqb_eq. congruence. }
  unfold serve. rewrite Hr, bind_lift_ok. cbv beta.
  rewrite Ho, bind_lift_ok. cbv beta.
  rewrite Hy. cbn [negb]. rewrite Hl.
  unfold bind at 1. unfold on_storage at 1. rewrite Hhas.
  unfold bind at 1. unfold _write_request_to_origin at 1.
  rewrite Hb, bind_lift_ok. cbv beta.
  unfold bind at 1. unfold on_storage at 1. cbn [storage]. rewrite Hput.
  rewrite Hset, bind_lift_ok. reflexivity.
Qed.

Lemma serve_hit_eq net origin_host origin_port request w request' origin
    cached c2 response response' :
  method request = GET ->
  replace_header request (lit "host")
    [origin_host ++ lit ":" ++ str_of_N origin_port] = Ok request' ->
  _open_connection_to_origin net origin_host origin_port = Ok origin ->
  Cache.has_cached_response (request_line request) (storage w) =
    (Ok true, storage w) ->
  Cache.get_cached_response (request_line request) (storage w) =
    (Ok cached, c2) ->
  raw_build_response (header cached) (body cached) = Ok response ->
  set_header response (lit "x_cached_by_proxy") [lit "HIT"] = Ok response' ->
  serve net origin_host origin_port request w =
  (Ok tt,
   {| storage := c2;
      to_origin := to_origin w;
      to_client := to_client w ++ [message_raw response'];
      client_closed := true;
      cache_calls :=
        (cache_calls w ++ [Cache.HasCachedResponse (request_line request)]) ++
        [Cache.GetCachedResponse (request_line request)] |}).
Proof.
  intros Hm Hr Ho Hhas Hget Hraw Hset.
  pose proof (replace_header_same_line _ _ _ _ Hr) as (Hl & _).
  pose proof (method_same_line _ _ Hl) as Hm'.
  assert (Hy : str_eqb (method request') GET = true).
  { apply str_eqb_eq. congruence. }
  unfold serve. rewrite Hr, bind_lift_ok. cbv beta.
  rewrite Ho, bind_lift_ok. cbv beta.
  rewrite Hy. cbn [negb]. rewrite Hl.
  unfold bind at 1. unfold on_storage at 1. rewrite Hhas.
  unfold bind at 1. unfold on_storage at 1. cbn [storage]. rewrite Hget.
  rewrite Hraw, bind_lift_ok. cbv beta.
  rewrite Hset, bind_lift_ok. reflexivity.
Qed.

Lemma stamp_rebuilt raw_headers raw_body response (value : str) :
  raw_build_response raw_headers raw_body = Ok response ->
  encodable value ->
  exists response' old,
    set_header response (lit "x_cached_by_proxy") [value] = Ok response' /\
    msg_body response' = msg_body response /\
    start_line (msg_headers response') = start_line (msg_headers response) /\
    get_header (msg_headers response') (lit "X-Cached-By-Proxy") =
      Some (old ++ [value]) /\
    encode_all (header_lines (msg_headers response')) =
      Some (raw (msg_headers response')).
Proof.
  unfold raw_build_response. intros H Hv.
  destruct (HTTPHeaders_init raw_headers) as [h| |] eqn:Hinit;
    try discriminate.
  injection H as <-.
  pose proof (parsed_shape_encodable _ (HTTPHeaders_init_shape _ _ Hinit)) as He.
  destruct (insert_encodable h (lit "x_cached_by_proxy") [value] He
              ltac:(now repeat constructor) ltac:(now repeat constructor))
    as (h' & Hi & _).
  unfold set_header. cbn [msg_headers msg_body]. rewrite Hi.
  apply insert_ok in Hi as (Hh & Hs & Hr).
  eexists.
  exists (match Dict.get (_normalize_header (lit "x_cached_by_proxy"))
                  (headers h) with Some old => old | None => [] end).
  split; [reflexivity|]. cbn [msg_headers msg_body].
  split; [reflexivity|]. split; [exact Hs|]. split; [|exact Hr].
  unfold get_header.
  change (_normalize_header (lit "X-Cached-By-Proxy"))
    with (_normalize_header (lit "x_cached_by_proxy")).
  rewrite Hh, get_set_same.
  now destruct (Dict.get _ (headers h)).
Qed.



End ServerMore.

Lemma parse_origin_host_port_outcome_witness :
  Server._parse_origin_host_port Examples.proxy =
    Ok (lit "dummyjson.com", 443%N) /\
  Server._parse_origin_host_port
    {| Server.host := lit "127.0.0.1"; Server.port := 8888;
       Server.origin_url := lit "ftp://h/api" |} = Ok (lit "h/api", 80%N) /\
  Server._parse_origin_host_port
    {| Server.host := lit "127.0.0.1"; Server.port := 8888;
       Server.origin_url := lit "dummyjson.com" |} = Raise IndexError.
Proof.
  split; [|split].
  - apply (proj2 (parse_origin_host_port_outcome Examples.proxy)
             (lit "https:") (lit "dummyjson.com/") eq_refl).
    + repeat (constructor; [discriminate|]). constructor.
    + reflexivity.
  - apply (proj2 (parse_origin_host_port_outcome
                    {| Server.host := lit "127.0.0.1"; Server.port := 8888;
                       Server.origin_url := lit "ftp://h/api" |})
             (lit "ftp:") (lit "h/api") eq_refl).
    + repeat (constructor; [discriminate|]). constructor.
    + reflexivity.
  - apply (proj1 (parse_origin_host_port_outcome
                    {| Server.host := lit "127.0.0.1"; Server.port := 8888;
                       Server.origin_url := lit "dummyjson.com" |})).
    reflexivity.
Defined.






(** ** The command line and the cache of the program *)

Section ArgsMore.
Variable V : Type.

Lemma convert_discard_negative_int default text n :
  (0 <= default)%Z ->
  Args.convert Args.discard_negative_int default text = Some n -> (0 <= n)%Z.
Proof.
  intros Hd. unfold Args.convert, Args.discard_negative_int.
  destruct text as [t|]; [|intros H; injection H as <-; exact Hd].
  destruct (Text.int_of_str t) as [z| |]; try discriminate.
  destruct (z <? 0)%Z eqn:E; [discriminate|].
  intros H. injection H as <-. now apply Z.ltb_ge.
Qed.

Lemma convert_discard_zero default text n :
  default <> 0%Z ->
  Args.convert Args.discard_zero default text = Some n -> n <> 0%Z.
Proof.
  intros Hd. unfold Args.convert, Args.discard_zero.
  destruct text as [t|]; [|intros H; injection H as <-; exact Hd].
  destruct (Text.int_of_str t) as [z| |]; try discriminate.
  destruct (z =? 0)%Z eqn:E; [discriminate|].
  intros H. injection H as <-. now apply Z.eqb_neq.
Qed.

Lemma choose_policy text p :
  Args.choose [lit "entire"; lit "lru"; lit "none"] (lit "lru") text = Some p ->
  p = lit "entire" \/ p = lit "lru" \/ p = lit "none".
Proof.
  unfold Args.choose. destruct text as [t|]; [|intros H; injection H as <-; auto].
  cbn [existsb].
  str_cases t (lit "entire"); [intros H0; injection H0 as <-; auto|].
  str_cases t (lit "lru"); [intros H1; injection H1 as <-; auto|].
  str_cases t (lit "none"); [intros H2; injection H2 as <-; auto|].
  discriminate.
Qed.

Lemma run_keeps_wf ops (c : Cache.InMemoryResponseCache V) :
  Cache._cache c = [] -> Dict.wf (Cache._cache (Cache.run ops c)).
Proof.
  intros Hc.
  assert (H0 : Cache.ordered_by [] c).
  { unfold Cache.ordered_by, Cache.keys_of. rewrite Hc.
    split; [constructor|]. split; [constructor|reflexivity]. }
  exact (proj1 (ordered_by_run V ops [] c H0)).
Qed.


End ArgsMore.

